(** * Thor 1.0 constrained Delaunay triangulation

    Shallow embedding of [src/thor-v1.0-sdk/src/Triangulation.cpp]
    (namespace [thor::detail]) and the properties of its specification.

    Numbers.  The source computes on [float].  Coordinates are modelled by
    exact rationals [Q]: [+], [-], [*] are the field operations and the
    comparisons [<], [<=], [==] are [Qlt], [Qle], [Qeq].  Rounding and
    overflow are not modelled.  The one place where the source divides by a
    value that may be zero ([ComputeCircumcircle]) is modelled with the IEEE
    outcome written out: the quotient is not finite and every ordered
    comparison with it is false.

    Memory.  [std::list<AdvancedTriangle>] is an arena: a finite map from
    handles (the list iterators) to triangles, together with the next handle
    to issue.  Handles are issued in [push_back] order, are never reused and
    stay valid until the element is erased.  A [const Vertex&] is a vertex
    with its address; two vertices are the same object when the addresses
    agree. *)

From Stdlib Require Import QArith Qabs Qminmax Lqa Lia List Bool Sorted.
From stdpp Require Import base option list gmap fin_maps.

Set Default Proof Using "Type".

(** ** Float comparisons *)

Definition fle (a b : Q) : bool := Qle_bool a b.
Definition flt (a b : Q) : bool := negb (Qle_bool b a).
Definition feq (a b : Q) : bool := Qeq_bool a b.

Lemma fle_iff a b : fle a b = true <-> (a <= b)%Q.
Proof. apply Qle_bool_iff. Qed.

Lemma flt_iff a b : flt a b = true <-> (a < b)%Q.
Proof.
  unfold flt. rewrite negb_true_iff, <- not_true_iff_false, Qle_bool_iff.
  split; [apply Qnot_le_lt | apply Qlt_not_le].
Qed.

Lemma feq_iff a b : feq a b = true <-> (a == b)%Q.
Proof. apply Qeq_bool_iff. Qed.

Lemma fle_false a b : fle a b = false <-> (b < a)%Q.
Proof.
  rewrite <- not_true_iff_false, fle_iff.
  split; [apply Qnot_le_lt | apply Qlt_not_le].
Qed.

Lemma flt_false a b : flt a b = false <-> (b <= a)%Q.
Proof.
  rewrite <- not_true_iff_false, flt_iff.
  split; [apply Qnot_lt_le | apply Qle_not_lt].
Qed.

Lemma feq_false a b : feq a b = false <-> ~ (a == b)%Q.
Proof. rewrite <- not_true_iff_false, feq_iff. tauto. Qed.

(** ** SFML vectors and the vector algebra of Thor

    [sf::Vector2f], [sf::Vector3f] and the functions of
    [Thor/Vectors/VectorAlgebra2D.hpp] are not part of the sources at hand. *)

Module sf.
Record Vector2f := mkVector2f { x : Q; y : Q }.
Record Vector3f := mkVector3f { x3 : Q; y3 : Q; z : Q }.
End sf.

Declare Scope vec_scope.
Delimit Scope vec_scope with vec.
Bind Scope vec_scope with sf.Vector2f.

(** Modelled from the spec: the operators of [sf::Vector2f] (addition,
    subtraction, scalar multiple, comparison of both coordinates). *)
Definition vadd (a b : sf.Vector2f) : sf.Vector2f :=
  sf.mkVector2f (sf.x a + sf.x b) (sf.y a + sf.y b).
Definition vsub (a b : sf.Vector2f) : sf.Vector2f :=
  sf.mkVector2f (sf.x a - sf.x b) (sf.y a - sf.y b).
Definition vscale (k : Q) (a : sf.Vector2f) : sf.Vector2f :=
  sf.mkVector2f (k * sf.x a) (k * sf.y a).
Definition veq (a b : sf.Vector2f) : bool :=
  feq (sf.x a) (sf.x b) && feq (sf.y a) (sf.y b).
Definition vneq (a b : sf.Vector2f) : bool := negb (veq a b).

Infix "+" := vadd : vec_scope.
Infix "-" := vsub : vec_scope.

(** Modelled from the spec: [thor::CrossProduct] of two plane vectors, the
    vector [(0, 0, lhs.x * rhs.y - lhs.y * rhs.x)]. *)
Definition CrossProduct (lhs rhs : sf.Vector2f) : sf.Vector3f :=
  sf.mkVector3f 0 0 (sf.x lhs * sf.y rhs - sf.y lhs * sf.x rhs).

(** Modelled from the spec: [thor::PerpendicularVector], the vector turned by
    a quarter. *)
Definition PerpendicularVector (v : sf.Vector2f) : sf.Vector2f :=
  sf.mkVector2f (- sf.y v) (sf.x v).

(** Modelled from the spec: [thor::SquaredLength]. *)
Definition SquaredLength (v : sf.Vector2f) : Q :=
  sf.x v * sf.x v + sf.y v * sf.y v.

(** [std::pair] ordering, as [operator<] of the standard library has it. *)
Definition pair_lt {A B : Type} (ltA : A -> A -> bool) (ltB : B -> B -> bool)
    (p q : A * B) : bool :=
  ltA (fst p) (fst q) || (negb (ltA (fst q) (fst p)) && ltB (snd p) (snd q)).

(** ** Vertices *)

(** A user vertex: [addr] stands for the address of the object, which the
    source compares with [&a == &b]. *)
Record Vertex := mkVertex { addr : nat; GetPosition : sf.Vector2f }.

Definition same_object (a b : Vertex) : bool := Nat.eqb (addr a) (addr b).

Definition Vertex_at (a : nat) (px py : Q) : Vertex :=
  mkVertex a (sf.mkVector2f px py).

(** ** Geometric predicates *)

Definition ClockwiseOrientation (v0 v1 v2 : sf.Vector2f) : bool :=
  fle (sf.z (CrossProduct (v1 - v0) (v2 - v0))) 0.

(** The z-component the orientation test looks at, written out. *)
Definition turn (v0 v1 v2 : sf.Vector2f) : Q :=
  sf.z (CrossProduct (v1 - v0) (v2 - v0)).

Lemma turn_unfold v0 v1 v2 :
  turn v0 v1 v2 =
  ((sf.x v1 - sf.x v0) * (sf.y v2 - sf.y v0)
   - (sf.y v1 - sf.y v0) * (sf.x v2 - sf.x v0))%Q.
Proof. reflexivity. Qed.

Lemma ClockwiseOrientation_true v0 v1 v2 :
  ClockwiseOrientation v0 v1 v2 = true <-> (turn v0 v1 v2 <= 0)%Q.
Proof. apply fle_iff. Qed.

Lemma ClockwiseOrientation_false v0 v1 v2 :
  ClockwiseOrientation v0 v1 v2 = false <-> (0 < turn v0 v1 v2)%Q.
Proof. apply fle_false. Qed.

(** ** Containers of the mesh *)

(** [std::tr1::array<T, 3>].  The source indexes it with [0], [1], [2] and
    with sums reduced [% 3] only; an index beyond [2] is not defined in C++
    and reads the last element here. *)
Record array3 (A : Type) := mkArray3 { elt0 : A; elt1 : A; elt2 : A }.
Arguments mkArray3 {A} _ _ _.
Arguments elt0 {A} _.
Arguments elt1 {A} _.
Arguments elt2 {A} _.

Definition get3 {A} (a : array3 A) (i : nat) : A :=
  match i with
  | 0 => elt0 a
  | 1 => elt1 a
  | _ => elt2 a
  end.

Definition set3 {A} (a : array3 A) (i : nat) (v : A) : array3 A :=
  match i with
  | 0 => mkArray3 v (elt1 a) (elt2 a)
  | 1 => mkArray3 (elt0 a) v (elt2 a)
  | _ => mkArray3 (elt0 a) (elt1 a) v
  end.

Abbreviation TriangleIterator := nat (only parsing).

(** [OptTriangleIterator]: [valid] with its [target], or invalid. *)
Abbreviation OptTriangleIterator := (option nat) (only parsing).

Abbreviation UintPair := (nat * nat)%type (only parsing).

(** [CompareRawVertexPtrs] and [CompareVertexPtrs]: both compare the pair of
    coordinates of the user vertex. *)
Definition CompareRawVertexPtrs (lhs rhs : Vertex) : bool :=
  pair_lt flt flt
    (sf.x (GetPosition lhs), sf.y (GetPosition lhs))
    (sf.x (GetPosition rhs), sf.y (GetPosition rhs)).

Definition CompareVertexPtrs (lhs rhs : Vertex) : bool :=
  CompareRawVertexPtrs lhs rhs.

(** Modelled from the spec: the set of remaining vertices of a triangle is a
    [std::set] of vertex pointers ordered by [CompareVertexPtrs]; its
    declaration is in a header that is not part of the sources at hand.  It is
    a list kept in the order of the comparator; inserting a vertex equivalent
    to a member changes nothing. *)
Fixpoint set_insert (v : Vertex) (s : list Vertex) : list Vertex :=
  match s with
  | [] => [v]
  | u :: s' =>
      if CompareVertexPtrs v u then v :: u :: s'
      else if CompareVertexPtrs u v then u :: set_insert v s'
      else u :: s'
  end.

(** [erase(key)]: the member equivalent to the key goes; the result comes
    with the number of erased members. *)
Fixpoint set_erase_key (v : Vertex) (s : list Vertex) : nat * list Vertex :=
  match s with
  | [] => (0, [])
  | u :: s' =>
      if negb (CompareVertexPtrs v u) && negb (CompareVertexPtrs u v)
      then (1, s')
      else let '(n, r) := set_erase_key v s' in (n, u :: r)
  end.

(** [erase(iterator)]: the member the iterator stands on goes. *)
Fixpoint set_erase_itr (v : Vertex) (s : list Vertex) : list Vertex :=
  match s with
  | [] => []
  | u :: s' => if same_object v u then s' else u :: set_erase_itr v s'
  end.

(** ** Triangles *)

Record AdvancedTriangle := mkAdvancedTriangle {
  mCorners : array3 Vertex;
  mRemainingVertices : list Vertex;
  mAdjacentTriangles : array3 (option nat);
  mFlagged : bool
}.

(** The constructor [AdvancedTriangle(corner0, corner1, corner2)]. *)
Definition newAdvancedTriangle (corner0 corner1 corner2 : Vertex) : AdvancedTriangle :=
  mkAdvancedTriangle (mkArray3 corner0 corner1 corner2) []
    (mkArray3 None None None) false.

Definition corner (t : AdvancedTriangle) (i : nat) : Vertex := get3 (mCorners t) i.

Definition GetAdjacentTriangle (t : AdvancedTriangle) (index : nat) : option nat :=
  get3 (mAdjacentTriangles t) index.

Definition IsFlagged (t : AdvancedTriangle) : bool := mFlagged t.

Definition with_adjacent (index : nat) (adjacentTriangle : option nat)
    (t : AdvancedTriangle) : AdvancedTriangle :=
  mkAdvancedTriangle (mCorners t) (mRemainingVertices t)
    (set3 (mAdjacentTriangles t) index adjacentTriangle) (mFlagged t).

Definition with_flag (flagged : bool) (t : AdvancedTriangle) : AdvancedTriangle :=
  mkAdvancedTriangle (mCorners t) (mRemainingVertices t) (mAdjacentTriangles t) flagged.

Definition with_remaining (s : list Vertex) (t : AdvancedTriangle) : AdvancedTriangle :=
  mkAdvancedTriangle (mCorners t) s (mAdjacentTriangles t) (mFlagged t).

(** Returns the position of the triangle's vertex identified by index. *)
Definition At (triangle : AdvancedTriangle) (index : nat) : sf.Vector2f :=
  GetPosition (corner triangle index).

(** ** Edges *)

(** Returns vector.x + vector.y (required for vertex ordering). *)
Definition SumVectorComponents (vector : sf.Vector2f) : Q :=
  (sf.x vector + sf.y vector)%Q.

Record AdvancedEdge := mkEdge { edge0 : Vertex; edge1 : Vertex }.

Definition OrderCorners (e : AdvancedEdge) : AdvancedEdge :=
  if flt (SumVectorComponents (GetPosition (edge1 e)))
         (SumVectorComponents (GetPosition (edge0 e)))
  then mkEdge (edge1 e) (edge0 e)
  else e.

(** The constructor [AdvancedEdge(startPoint, endPoint)]. *)
Definition newAdvancedEdge (startPoint endPoint : Vertex) : AdvancedEdge :=
  OrderCorners (mkEdge startPoint endPoint).

Definition edge_key (e : AdvancedEdge) : (Q * Q) * (Q * Q) :=
  ((sf.x (GetPosition (edge0 e)), sf.y (GetPosition (edge0 e))),
   (sf.x (GetPosition (edge1 e)), sf.y (GetPosition (edge1 e)))).

Definition CompareEdges (lhs rhs : AdvancedEdge) : bool :=
  pair_lt (pair_lt flt flt) (pair_lt flt flt) (edge_key lhs) (edge_key rhs).

(** [EdgeSet] is [std::set<AdvancedEdge, CompareEdges>]; [find] returns the
    member that is neither smaller nor greater than the key. *)
Abbreviation EdgeSet := (list AdvancedEdge) (only parsing).

Definition edges_equivalent (a b : AdvancedEdge) : bool :=
  negb (CompareEdges a b) && negb (CompareEdges b a).

Definition EdgeSet_find (constrainedEdges : EdgeSet) (adv : AdvancedEdge)
    : option AdvancedEdge :=
  List.find (edges_equivalent adv) constrainedEdges.

(** ** The mesh and the commands on it *)

(** [triangles]: the [TriangleList]; [nextIterator]: the handle the next
    [push_back] issues; [surrounding]: for each [AdvancedVertex] (by the
    address of its user vertex) the value of [mSurroundingTriangle]. *)
Record Mesh := mkMesh {
  triangles : gmap nat AdvancedTriangle;
  nextIterator : nat;
  surrounding : gmap nat nat
}.

Inductive Failure :=
| AssertionFailed   (* an [assert] of the source fails *)
| InvalidIterator   (* an iterator that refers to no element is dereferenced *)
| OutOfFuel.        (* the recursion of the model runs out of its bound *)

(** A command either returns a value or stops with a failure; in both cases
    the mesh is the one reached at that point. *)
Inductive Outcome (A : Type) :=
| Returns (a : A) (m : Mesh)
| Stops (e : Failure) (m : Mesh).
Arguments Returns {A} _ _.
Arguments Stops {A} _ _.

Definition Cmd (A : Type) : Type := Mesh -> Outcome A.

Definition ret {A} (a : A) : Cmd A := fun m => Returns a m.

Definition bind {A B} (c : Cmd A) (k : A -> Cmd B) : Cmd B :=
  fun m =>
    match c m with
    | Returns a m' => k a m'
    | Stops e m' => Stops e m'
    end.

Definition stop {A} (e : Failure) : Cmd A := fun m => Stops e m.

Notation "x <- c ;; k" := (bind c (fun x => k))
  (at level 100, c at next level, right associativity).
Notation "c ;;; k" := (bind c (fun _ => k))
  (at level 100, right associativity).

Definition assert (b : bool) : Cmd unit :=
  if b then ret tt else stop AssertionFailed.

Definition mesh_of {A} (o : Outcome A) : Mesh :=
  match o with
  | Returns _ m => m
  | Stops _ m => m
  end.

(** [*itr]: read the triangle an iterator refers to. *)
Definition deref (itr : TriangleIterator) : Cmd AdvancedTriangle :=
  fun m =>
    match triangles m !! itr with
    | Some t => Returns t m
    | None => Stops InvalidIterator m
    end.

(** [itr->member(...)] for a member that changes the triangle. *)
Definition update (itr : TriangleIterator) (f : AdvancedTriangle -> AdvancedTriangle)
    : Cmd unit :=
  fun m =>
    match triangles m !! itr with
    | Some t =>
        Returns tt (mkMesh (<[itr := f t]> (triangles m)) (nextIterator m) (surrounding m))
    | None => Stops InvalidIterator m
    end.

Definition SetAdjacentTriangle (itr : TriangleIterator) (index : nat)
    (adjacentTriangle : OptTriangleIterator) : Cmd unit :=
  update itr (with_adjacent index adjacentTriangle).

Definition Flag (itr : TriangleIterator) : Cmd unit := update itr (with_flag true).

Definition AddVertex (itr : TriangleIterator) (vertexRef : Vertex) : Cmd unit :=
  update itr (fun t => with_remaining (set_insert vertexRef (mRemainingVertices t)) t).

(** [RemoveVertex(AdvancedVertex&)], with its assertion on the number of
    erased members. *)
Definition RemoveVertex (itr : TriangleIterator) (vertexRef : Vertex) : Cmd unit :=
  t <- deref itr ;;
  let '(erased, s) := set_erase_key vertexRef (mRemainingVertices t) in
  update itr (with_remaining s) ;;;
  assert (Nat.eqb erased 1).

(** [RemoveVertex(VertexPtrIterator)], with its assertion on the sizes. *)
Definition RemoveVertexItr (itr : TriangleIterator) (vertexItr : Vertex) : Cmd unit :=
  t <- deref itr ;;
  let size := length (mRemainingVertices t) in
  let s := set_erase_itr vertexItr (mRemainingVertices t) in
  update itr (with_remaining s) ;;;
  assert (Nat.eqb size (length s + 1)).

Definition SetSurroundingTriangle (v : Vertex) (target : TriangleIterator) : Cmd unit :=
  fun m => Returns tt (mkMesh (triangles m) (nextIterator m) (<[addr v := target]> (surrounding m))).

Definition GetSurroundingTriangle (v : Vertex) : Cmd TriangleIterator :=
  fun m =>
    match surrounding m !! addr v with
    | Some itr => Returns itr m
    | None => Stops InvalidIterator m
    end.

(** Inserts a new triangle built of the 3 corners and returns an iterator to it. *)
Definition InsertTriangle (corner0 corner1 corner2 : Vertex) : Cmd TriangleIterator :=
  fun m =>
    Returns (nextIterator m)
      (mkMesh (<[nextIterator m := newAdvancedTriangle corner0 corner1 corner2]> (triangles m))
              (S (nextIterator m)) (surrounding m)).

(** [triangles.erase(itr)] *)
Definition erase (itr : TriangleIterator) : Cmd unit :=
  fun m =>
    match triangles m !! itr with
    | Some _ => Returns tt (mkMesh (delete itr (triangles m)) (nextIterator m) (surrounding m))
    | None => Stops InvalidIterator m
    end.

(** [triangles.remove_if(std::tr1::mem_fn(&AdvancedTriangle::IsFlagged))] *)
Definition remove_if_IsFlagged : Cmd unit :=
  fun m =>
    Returns tt (mkMesh (filter (fun kt => IsFlagged (snd kt) = false) (triangles m))
                       (nextIterator m) (surrounding m)).

(** A [for] loop over the elements of a container. *)
Fixpoint foreach {A} (l : list A) (body : A -> Cmd unit) : Cmd unit :=
  match l with
  | [] => ret tt
  | a :: l' => body a ;;; foreach l' body
  end.

(** ** Circumcircle *)

(** [Circle]: mid point and squared radius.  [NonFiniteCircle] is what the
    source returns when the denominator [v.x * w.y - v.y * w.x] is zero:
    the quotients are infinite or not a number, and so are the mid point and
    the squared radius. *)
Inductive Circle :=
| FiniteCircle (midPoint : sf.Vector2f) (squaredRadius : Q)
| NonFiniteCircle.

(** [None]: the assertion of the first line fails. *)
Definition ComputeCircumcircle (triangle : AdvancedTriangle) : option Circle :=
  if vneq (At triangle 0) (At triangle 1) && vneq (At triangle 0) (At triangle 2) then
    (* Compute midpoint of two sides *)
    let p := vscale (1 # 2) (At triangle 0 + At triangle 1)%vec in
    let q := vscale (1 # 2) (At triangle 0 + At triangle 2)%vec in
    (* Compute perpendicular bisectors of the sides *)
    let v := PerpendicularVector (p - At triangle 0)%vec in
    let w := PerpendicularVector (q - At triangle 0)%vec in
    let ix := (sf.x v * (sf.y p * sf.x w + sf.x q * sf.y w - sf.y q * sf.x w)
               - sf.x p * sf.y v * sf.x w)%Q in
    let iy := (sf.y w * (sf.y p * sf.x v + sf.x q * sf.y v - sf.x p * sf.y v)
               - sf.y q * sf.y v * sf.x w)%Q in
    let d := (sf.x v * sf.y w - sf.y v * sf.x w)%Q in
    if feq d 0 then Some NonFiniteCircle
    else
      let intersection := sf.mkVector2f (ix / d) (iy / d) in
      Some (FiniteCircle intersection (SquaredLength (intersection - At triangle 0)%vec))
  else None.

(** [SquaredLength(position - circle.midPoint) < circle.squaredRadius] *)
Definition InsideCircle (position : sf.Vector2f) (circle : Circle) : bool :=
  match circle with
  | FiniteCircle midPoint squaredRadius =>
      flt (SquaredLength (position - midPoint)%vec) squaredRadius
  | NonFiniteCircle => false
  end.

(** ** Wedge tests and the transfer of remaining vertices *)

(** Checks whether vertex is inside the triangle (center,corner1,corner2);
    [None]: the assertion fails. *)
Definition IsVertexInSection3 (vertex : Vertex) (center corner1 corner2 : sf.Vector2f)
    : option bool :=
  if ClockwiseOrientation corner1 corner2 center then
    Some (flt (sf.z (CrossProduct (corner1 - center) (GetPosition vertex - center))) 0
          && fle 0 (sf.z (CrossProduct (corner2 - center) (GetPosition vertex - center))))
  else None.

(** The same, but with only 2 sections. *)
Definition IsVertexInSection2 (vertex : Vertex) (corner1 corner2 : sf.Vector2f) : bool :=
  fle 0 (sf.z (CrossProduct (corner2 - corner1) (GetPosition vertex - corner1))).

Definition asserted (o : option bool) : Cmd bool :=
  match o with
  | Some b => ret b
  | None => stop AssertionFailed
  end.

(** Moves the vertex pointed by sourceItr in sourceTriangle. *)
Definition TransferVertex (sourceTriangle : TriangleIterator) (sourceItr : Vertex)
    (destTriangle : TriangleIterator) : Cmd unit :=
  (* Let the vertex point to the new triangle *)
  SetSurroundingTriangle sourceItr destTriangle ;;;
  (* Move vertex from source to dest *)
  AddVertex destTriangle sourceItr ;;;
  RemoveVertexItr sourceTriangle sourceItr.

(** The index among [0], [1], [2] of the first adjacent of [other] that
    refers to [oldTriangle]. *)
Definition find_back_reference (other : AdvancedTriangle) (oldTriangle : TriangleIterator)
    : option nat :=
  List.find
    (fun i => match GetAdjacentTriangle other i with
              | Some target => Nat.eqb target oldTriangle
              | None => false
              end)
    [0; 1; 2].

(** Updates the adjacent triangle's references back to oldTriangle. *)
Definition UpdateAdjacentBackReferences (oldTriangle : TriangleIterator)
    (newTriangle other : OptTriangleIterator) : Cmd unit :=
  match other with
  | Some target =>
      t <- deref target ;;
      match find_back_reference t oldTriangle with
      | Some i => SetAdjacentTriangle target i newTriangle
      | None => stop AssertionFailed
      end
  | None => ret tt
  end.

(** Sets up the adjacent triangles of each element in newTriangles according
    to the old triangle (before the split into three new ones). *)
Definition InitializeAdjacents (newTriangles : array3 nat) (index : nat)
    (oldTriangle : TriangleIterator) : Cmd unit :=
  let index1 := (index + 1) mod 3 in
  let index2 := (index + 2) mod 3 in
  old <- deref oldTriangle ;;
  let other := GetAdjacentTriangle old index2 in
  SetAdjacentTriangle (get3 newTriangles index) 0 (Some (get3 newTriangles index1)) ;;;
  SetAdjacentTriangle (get3 newTriangles index) 1 (Some (get3 newTriangles index2)) ;;;
  SetAdjacentTriangle (get3 newTriangles index) 2 other ;;;
  UpdateAdjacentBackReferences oldTriangle (Some (get3 newTriangles index)) other.

(** The body of the loop of [TransferVertices3] for one remaining vertex. *)
Definition TransferVertices3_body (oldTriangleItr : TriangleIterator)
    (oldTriangle : AdvancedTriangle) (newTriangles : array3 nat)
    (newCornerPosition : sf.Vector2f) (itr : Vertex) : Cmd unit :=
  in0 <- asserted (IsVertexInSection3 itr newCornerPosition (At oldTriangle 0) (At oldTriangle 1)) ;;
  if in0 then TransferVertex oldTriangleItr itr (get3 newTriangles 0)
  else
    in1 <- asserted (IsVertexInSection3 itr newCornerPosition (At oldTriangle 1) (At oldTriangle 2)) ;;
    if in1 then TransferVertex oldTriangleItr itr (get3 newTriangles 1)
    else
      in2 <- asserted (IsVertexInSection3 itr newCornerPosition (At oldTriangle 2) (At oldTriangle 0)) ;;
      assert in2 ;;;
      TransferVertex oldTriangleItr itr (get3 newTriangles 2).

(** Move all vertices in oldTriangle into the 3 new ones in newTriangles,
    according to their position. *)
Definition TransferVertices3 (oldTriangleItr : TriangleIterator) (newTriangles : array3 nat)
    (newCornerPosition : sf.Vector2f) : Cmd unit :=
  oldTriangle <- deref oldTriangleItr ;;
  foreach (mRemainingVertices oldTriangle)
    (TransferVertices3_body oldTriangleItr oldTriangle newTriangles newCornerPosition).

(** ** Arrangement of the corners of two adjacent triangles *)

Record Arrangement := mkArrangement {
  sharedCornerIndices1 : UintPair;
  sharedCornerIndices2 : UintPair;
  disjointCornerIndices : UintPair
}.

(** [match[i]] for the rotation [j]. *)
Definition corner_match (first second : AdvancedTriangle) (j i : nat) : bool :=
  veq (At first ((j + i) mod 3)) (At second (2 - i)).

(** [std::accumulate(match.begin(), match.end(), 0)] *)
Definition accumulate (bs : list bool) : nat :=
  fold_left (fun n (b : bool) => if b then S n else n) bs 0.

(** One round of the loop that fills the output parameters; the state is the
    output parameters and [nbSharedCorners].  [None]: an assertion fails. *)
Definition fill_corner (first second : AdvancedTriangle) (j : nat)
    (st : option (Arrangement * nat)) (i : nat) : option (Arrangement * nat) :=
  match st with
  | None => None
  | Some (a, nbSharedCorners) =>
      let firstIndex := (j + i) mod 3 in
      let secondIndex := 2 - i in
      if corner_match first second j i then
        (* A corner that both adjacent triangles have in common *)
        if same_object (corner first firstIndex) (corner second secondIndex) then
          if Nat.eqb nbSharedCorners 0
          then Some (mkArrangement (firstIndex, secondIndex) (sharedCornerIndices2 a)
                       (disjointCornerIndices a), S nbSharedCorners)
          else Some (mkArrangement (sharedCornerIndices1 a) (firstIndex, secondIndex)
                       (disjointCornerIndices a), S nbSharedCorners)
        else None
      else
        (* A disjoint corner (contained in either first or second) *)
        if same_object (corner first firstIndex) (corner second secondIndex) then None
        else Some (mkArrangement (sharedCornerIndices1 a) (sharedCornerIndices2 a)
                     (firstIndex, secondIndex), nbSharedCorners)
  end.

(** Ensure that the indices are clockwise oriented for both triangles. *)
Definition orient_shared (first : AdvancedTriangle) (a : Arrangement) : Arrangement :=
  if ClockwiseOrientation
       (At first (fst (sharedCornerIndices1 a)))
       (At first (fst (sharedCornerIndices2 a)))
       (At first (fst (disjointCornerIndices a)))
  then a
  else mkArrangement (sharedCornerIndices2 a) (sharedCornerIndices1 a)
         (disjointCornerIndices a).

(** The loop over the rotations [j]; [None]: an assertion fails, the last one
    being the [assert(false)] after the loop. *)
Fixpoint ArrangeCorners_from (first second : AdvancedTriangle) (js : list nat)
    : option Arrangement :=
  match js with
  | [] => None
  | j :: js' =>
      if Nat.eqb (accumulate (map (corner_match first second j) [0; 1; 2])) 2 then
        match fold_left (fill_corner first second j) [0; 1; 2]
                (Some (mkArrangement (0, 0) (0, 0) (0, 0), 0)) with
        | Some (a, _) => Some (orient_shared first a)
        | None => None
        end
      else ArrangeCorners_from first second js'
  end.

Definition ArrangeCorners (first second : AdvancedTriangle) : option Arrangement :=
  ArrangeCorners_from first second [0; 1; 2].

(** ** Edge flip *)

(** Helper function for TransferVertices2(). *)
Definition TransferVertices2Impl (oldFirst oldSecond newFirst newSecond : TriangleIterator)
    (disjointCornerIndices : UintPair) (oldTriangle : TriangleIterator) : Cmd unit :=
  tf <- deref oldFirst ;;
  ts <- deref oldSecond ;;
  t <- deref oldTriangle ;;
  foreach (mRemainingVertices t) (fun itr =>
    if IsVertexInSection2 itr (At tf (fst disjointCornerIndices))
         (At ts (snd disjointCornerIndices))
    then TransferVertex oldTriangle itr newFirst
    else
      assert (IsVertexInSection2 itr (At ts (snd disjointCornerIndices))
                (At tf (fst disjointCornerIndices))) ;;;
      TransferVertex oldTriangle itr newSecond).

(** Moves all vertices in oldTriangle to either newFirst or newSecond. *)
Definition TransferVertices2 (oldFirst oldSecond newFirst newSecond : TriangleIterator)
    (disjointCornerIndices : UintPair) : Cmd unit :=
  TransferVertices2Impl oldFirst oldSecond newFirst newSecond disjointCornerIndices oldFirst ;;;
  TransferVertices2Impl oldFirst oldSecond newFirst newSecond disjointCornerIndices oldSecond.

(** Copies the adjacent triangle from oldTriangle at oldIndex to newTriangle
    at newIndex, and lets the referencee point to newTriangle. *)
Definition UpdateAdjacentRelation (oldTriangle : TriangleIterator) (oldIndex : nat)
    (newTriangle : TriangleIterator) (newIndex : nat) : Cmd unit :=
  old <- deref oldTriangle ;;
  let other := GetAdjacentTriangle old oldIndex in
  (* Update this triangle's references to adjacent triangles. *)
  SetAdjacentTriangle newTriangle newIndex other ;;;
  (* Update adjacent triangles's references to this triangle. *)
  UpdateAdjacentBackReferences oldTriangle (Some newTriangle) other.

(** Performs an edge flip; returns the pair of the newly created triangles. *)
Definition FlipEdges (oldFirst oldSecond : TriangleIterator) (a : Arrangement)
    : Cmd (TriangleIterator * TriangleIterator) :=
  let sc1 := sharedCornerIndices1 a in
  let sc2 := sharedCornerIndices2 a in
  let dc := disjointCornerIndices a in
  tf <- deref oldFirst ;;
  ts <- deref oldSecond ;;
  (* Create the new triangles which are going to outlive this function *)
  newFirst <- InsertTriangle (corner tf (fst sc1)) (corner ts (snd dc)) (corner tf (fst dc)) ;;
  newSecond <- InsertTriangle (corner ts (snd sc2)) (corner tf (fst dc)) (corner ts (snd dc)) ;;
  (* Move each vertex to the new corresponding triangle *)
  TransferVertices2 oldFirst oldSecond newFirst newSecond dc ;;;
  (* Adapt referenced adjacents *)
  UpdateAdjacentRelation oldFirst (fst sc1) newSecond 2 ;;;
  UpdateAdjacentRelation oldFirst (fst sc2) newFirst 1 ;;;
  UpdateAdjacentRelation oldSecond (snd sc1) newSecond 1 ;;;
  UpdateAdjacentRelation oldSecond (snd sc2) newFirst 2 ;;;
  (* Of course, the new triangles are adjacent to each other. *)
  SetAdjacentTriangle newFirst 0 (Some newSecond) ;;;
  SetAdjacentTriangle newSecond 0 (Some newFirst) ;;;
  (* Mark old triangles for removal; they're not needed anymore. *)
  Flag oldFirst ;;;
  Flag oldSecond ;;;
  ret (newFirst, newSecond).

(** ** Boundary vertices and constrained edges *)

(** Returns true when the specified container holds the specified vertex
    (comparing addresses, not values). *)
Definition ContainsVertex (container : list Vertex) (vertex : Vertex) : bool :=
  existsb (fun itr => same_object itr vertex) container.

(** Returns true if any of the boundary (dummy) vertices is part of
    first/second's shared edge. *)
Definition SharedBoundary (boundaryVertices : list Vertex) (first : AdvancedTriangle)
    (sharedCornerIndices1 sharedCornerIndices2 : UintPair) : bool :=
  ContainsVertex boundaryVertices (corner first (fst sharedCornerIndices1))
  || ContainsVertex boundaryVertices (corner first (fst sharedCornerIndices2)).

(** Returns true if any of the boundary (dummy) vertices is either first's or
    second's disjoint corner. *)
Definition DisjointBoundary (boundaryVertices : list Vertex) (first second : AdvancedTriangle)
    (disjointCornerIndices : UintPair) : bool :=
  ContainsVertex boundaryVertices (corner first (fst disjointCornerIndices))
  || ContainsVertex boundaryVertices (corner second (snd disjointCornerIndices)).

(** ** Insertion of a point: the split into three *)

(** The first part of [InsertPoint], up to the removal of the old triangle:
    the triangle that surrounds the vertex is split up into three new
    sub-triangles, each consisting of two old corners and the vertex.
    Returns [newTriangles]. *)
Definition InsertPoint_split (vertex : Vertex) : Cmd (array3 nat) :=
  oldTriangleItr <- GetSurroundingTriangle vertex ;;
  oldTriangle <- deref oldTriangleItr ;;
  assert (ClockwiseOrientation (At oldTriangle 0) (At oldTriangle 1) (At oldTriangle 2)) ;;;
  n0 <- InsertTriangle (corner oldTriangle 0) (corner oldTriangle 1) vertex ;;
  n1 <- InsertTriangle (corner oldTriangle 1) (corner oldTriangle 2) vertex ;;
  n2 <- InsertTriangle (corner oldTriangle 2) (corner oldTriangle 0) vertex ;;
  let newTriangles := mkArray3 n0 n1 n2 in
  (* Assign the adjacent triangles to the new triangles *)
  foreach [0; 1; 2] (fun i => InitializeAdjacents newTriangles i oldTriangleItr) ;;;
  (* Remove current vertex - as soon as it forms a triangle corner, it counts
     no longer as remaining vertex *)
  let newCornerPosition := GetPosition vertex in
  RemoveVertex oldTriangleItr vertex ;;;
  (* Move each vertex to its corresponding new surrounding triangle *)
  TransferVertices3 oldTriangleItr newTriangles newCornerPosition ;;;
  (* Remove the old big triangle, we have three new ones *)
  erase oldTriangleItr ;;;
  ret newTriangles.

(** ** Local Delaunay repair *)

Section Repair.

(** [Intersect] of two edges is declared in a header that is not part of the
    sources at hand; the repair is stated for any such test. *)
Variable Intersect : AdvancedEdge -> AdvancedEdge -> bool.

(** Checks if edge intersects any constrained edge in constrainedEdges. *)
Definition IntersectsEdge (edge : AdvancedEdge) (constrainedEdges : EdgeSet) : bool :=
  existsb (fun itr => Intersect edge itr) constrainedEdges.

(** These two bools express whether the disjoint edge respectively the shared
    edge MUST be flipped. *)
Definition disjointEdgeEnforced (boundaryVertices : list Vertex) (constrainedEdges : EdgeSet)
    (first second : AdvancedTriangle) (a : Arrangement) : bool :=
  let disjointBoundary :=
    DisjointBoundary boundaryVertices first second (disjointCornerIndices a) in
  let disjointBlocking :=
    IntersectsEdge
      (newAdvancedEdge (corner first (fst (disjointCornerIndices a)))
                       (corner second (snd (disjointCornerIndices a))))
      constrainedEdges in
  disjointBoundary || disjointBlocking.

Definition sharedEdgeEnforced (boundaryVertices : list Vertex) (constrainedEdges : EdgeSet)
    (first : AdvancedTriangle) (a : Arrangement) : bool :=
  let sharedBoundary :=
    SharedBoundary boundaryVertices first (sharedCornerIndices1 a) (sharedCornerIndices2 a) in
  let sharedBlocking :=
    IntersectsEdge
      (newAdvancedEdge (corner first (fst (sharedCornerIndices1 a)))
                       (corner first (fst (sharedCornerIndices2 a))))
      constrainedEdges in
  sharedBoundary || sharedBlocking.

(** The test of the source on the merged quadrilateral: [true] when the
    source refuses the flip of an enforced shared edge. *)
Definition quadrilateral_refused (first second : AdvancedTriangle) (a : Arrangement) : bool :=
  ClockwiseOrientation (At first (fst (disjointCornerIndices a)))
                       (At second (snd (disjointCornerIndices a)))
                       (At first (fst (sharedCornerIndices1 a)))
  || ClockwiseOrientation (At second (snd (disjointCornerIndices a)))
                          (At first (fst (disjointCornerIndices a)))
                          (At first (fst (sharedCornerIndices2 a))).

(** Applies the check for the Delaunay condition recursively to the triangles
    neighbors.  [recur] is [EnsureLocalDelaunay]. *)
Definition EnsureLocalDelaunayAdjacent
    (recur : TriangleIterator -> TriangleIterator -> Cmd bool)
    (triangleItr : TriangleIterator) (adjacentIndex : nat) : Cmd bool :=
  t <- deref triangleItr ;;
  match GetAdjacentTriangle t adjacentIndex with
  | Some target => recur triangleItr target
  | None => ret false
  end.

(** Flips edges and enforces the Delaunay condition at adjacent triangles. *)
Definition ChangeEdgeSituation
    (recur : TriangleIterator -> TriangleIterator -> Cmd bool)
    (first second : TriangleIterator) (a : Arrangement) : Cmd unit :=
  newTriangles <- FlipEdges first second a ;;
  EnsureLocalDelaunayAdjacent recur (fst newTriangles) 1 ;;;
  EnsureLocalDelaunayAdjacent recur (fst newTriangles) 2 ;;;
  EnsureLocalDelaunayAdjacent recur (snd newTriangles) 1 ;;;
  EnsureLocalDelaunayAdjacent recur (snd newTriangles) 2 ;;;
  ret tt.

(** The body of [EnsureLocalDelaunay]; [recur] stands for the function
    itself in the calls that [ChangeEdgeSituation] makes. *)
Definition EnsureLocalDelaunay_body
    (recur : TriangleIterator -> TriangleIterator -> Cmd bool)
    (boundaryVertices : list Vertex) (constrainedEdges : EdgeSet)
    (first second : TriangleIterator) : Cmd bool :=
  (* Flagged triangles are going to be removed, don't take them into account *)
  tf <- deref first ;;
  if IsFlagged tf then ret false
  else
  ts <- deref second ;;
  if IsFlagged ts then ret false
  else
    (* Find out which triangle indices refer to the corners that are shared
       by both triangles, and which to the disjoint ones. *)
    match ArrangeCorners tf ts with
    | None => stop AssertionFailed
    | Some a =>
        let disjointEnforced :=
          disjointEdgeEnforced boundaryVertices constrainedEdges tf ts a in
        let sharedEnforced :=
          sharedEdgeEnforced boundaryVertices constrainedEdges tf a in
        if disjointEnforced && negb sharedEnforced then ret false
        else if sharedEnforced && negb disjointEnforced then
          (* If the merged quadrilateral isn't convex, we may of course not
             flip edges. *)
          if quadrilateral_refused tf ts a then ret false
          else
            ChangeEdgeSituation recur first second a ;;;
            ret true
        else
          (* If the vertex of the other triangle is inside this triangle's
             circumcircle, the Delaunay condition is locally breached and we
             need to flip edges. *)
          match ComputeCircumcircle tf, ComputeCircumcircle ts with
          | Some circle, Some circle2 =>
              if InsideCircle (At ts (snd (disjointCornerIndices a))) circle
                 && InsideCircle (At tf (fst (disjointCornerIndices a))) circle2
              then
                ChangeEdgeSituation recur first second a ;;;
                ret true
              else
                (* Otherwise, the triangles are Delaunay at the moment and no
                   edge flip is required. *)
                ret false
          | _, _ => stop AssertionFailed
          end
    end.

(** Checks whether the shared edge of two triangles must be moved and performs
    the necessary actions in this case.  Returns true if an edge flip is
    performed, false otherwise.  [fuel] bounds the depth of the recursion. *)
Fixpoint EnsureLocalDelaunay (fuel : nat) (boundaryVertices : list Vertex)
    (constrainedEdges : EdgeSet) (first second : TriangleIterator) : Cmd bool :=
  match fuel with
  | O => stop OutOfFuel
  | S fuel' =>
      EnsureLocalDelaunay_body (EnsureLocalDelaunay fuel' boundaryVertices constrainedEdges)
        boundaryVertices constrainedEdges first second
  end.

(** Inserts the specified vertex into the list of triangles. *)
Definition InsertPoint (fuel : nat) (vertex : Vertex) (boundaryVertices : list Vertex)
    (constrainedEdges : EdgeSet) : Cmd unit :=
  newTriangles <- InsertPoint_split vertex ;;
  (* For each newly created triangle, we must ensure that the Delaunay
     condition with its adjacent is kept up.  Corner number 2 is always the
     vertex inserted in this function. *)
  foreach [0; 1; 2] (fun i =>
    t <- deref (get3 newTriangles i) ;;
    match GetAdjacentTriangle t 2 with
    | Some target =>
        EnsureLocalDelaunay fuel boundaryVertices constrainedEdges
          (get3 newTriangles i) target ;;;
        ret tt
    | None => ret tt
    end) ;;;
  (* Remove currently flagged triangles. *)
  remove_if_IsFlagged.

End Repair.

(** ** Bootstrap *)

(** [triangles.begin()]: the element pushed first among those present. *)
Definition triangles_begin : Cmd TriangleIterator :=
  fun m =>
    match map_to_list (triangles m) with
    | [] => Stops InvalidIterator m
    | kt :: l => Returns (fold_right Nat.min (fst kt) (map fst l)) m
    end.

(** The three "dummy" vertices of [CreateBoundaryPoints]; their addresses are
    those of the elements of [boundaryVertices]. *)
Definition initialBoundaryVertices (a0 a1 a2 : nat) : list Vertex :=
  [Vertex_at a0 (-1) 0; Vertex_at a1 0 1; Vertex_at a2 1 0].

(** Creates 3 "dummy" vertices that form a huge triangle which later includes
    all other vertices.  Returns [boundaryVertices]; [allVertices] holds a
    tracked vertex for each of them, whose surrounding triangle is set here. *)
Definition CreateBoundaryPoints (a0 a1 a2 : nat) : Cmd (list Vertex) :=
  let boundaryVertices := initialBoundaryVertices a0 a1 a2 in
  let b0 := Vertex_at a0 (-1) 0 in
  let b1 := Vertex_at a1 0 1 in
  let b2 := Vertex_at a2 1 0 in
  InsertTriangle b0 b1 b2 ;;;
  foreach [b0; b1; b2] (fun v =>
    first <- triangles_begin ;;
    SetSurroundingTriangle v first) ;;;
  ret boundaryVertices.

Definition epsilon : Q := 372 # 1000000.

(** One round of the loop that finds the maximal coordinate. *)
Definition maxStep (maxCoord : Q) (itr : Vertex) : Q :=
  Qmax (Qmax maxCoord (Qabs (sf.x (GetPosition itr)))) (Qabs (sf.y (GetPosition itr))).

(** Find maximal coordinate in any direction. *)
Definition maxCoordOf (allVertices : list Vertex) : Q :=
  fold_left maxStep allVertices 0%Q.

(** Sets the initial point positions so that the triangle of dummy vertices
    includes all other vertices.  The three elements of [boundaryVertices] are
    overwritten in place: the addresses stay, the positions are the new ones. *)
Definition SetBoundaryPositions (allVertices : list Vertex) (boundaryVertices : list Vertex)
    : list Vertex :=
  let maxCoord := (maxCoordOf allVertices * 4)%Q in
  match boundaryVertices with
  | [b0; b1; b2] =>
      [Vertex_at (addr b0) epsilon (maxCoord - epsilon);
       Vertex_at (addr b1) (maxCoord + epsilon) (- epsilon);
       Vertex_at (addr b2) (- maxCoord - epsilon) (- maxCoord + epsilon)]
  | _ => boundaryVertices
  end.

Definition HasCorner (triangle : AdvancedTriangle) (c : Vertex) : bool :=
  same_object (corner triangle 0) c
  || same_object (corner triangle 1) c
  || same_object (corner triangle 2) c.

(** [corners[0]], [corners[1]], [corners[2]] are the first three elements of
    the container; on a container that holds fewer the subscripts are not
    defined ([None]). *)
Definition Has1Of3Corners (triangle : AdvancedTriangle) (corners : list Vertex) : option bool :=
  match corners with
  | c0 :: c1 :: c2 :: _ =>
      Some (HasCorner triangle c0 || HasCorner triangle c1 || HasCorner triangle c2)
  | _ => None
  end.

(** ** Boundary trim *)

(** Checks whether the edge formed of the two specified points is contained in
    constrainedEdges.  [None]: the assertion on the candidate fails. *)
Definition IsEdgeConstrained (constrainedEdges : EdgeSet) (startPoint endPoint : Vertex)
    : option bool :=
  let adv := newAdvancedEdge startPoint endPoint in
  match EdgeSet_find constrainedEdges adv with
  | None => Some false
  | Some candidate =>
      if veq (GetPosition (edge0 adv)) (GetPosition (edge0 candidate))
         && veq (GetPosition (edge1 adv)) (GetPosition (edge1 candidate))
      then Some true
      else None
  end.

(** Checks if the adjacent triangle is in use and returns a valid
    OptTriangleIterator in this case. *)
Definition HasUnusedAdjacent (triangle : AdvancedTriangle) (index : nat)
    (constrainedEdges : EdgeSet) : option OptTriangleIterator :=
  match IsEdgeConstrained constrainedEdges
          (corner triangle ((index + 1) mod 3)) (corner triangle ((index + 2) mod 3)) with
  | None => None
  | Some true => Some None
  | Some false => Some (GetAdjacentTriangle triangle index)
  end.

(** The loop over the three adjacents of [RemoveOuterPolygonTrianglesImpl]:
    the valid ones are pushed.  [None]: an assertion fails. *)
Fixpoint push_unused_adjacents (t : AdvancedTriangle) (constrainedEdges : EdgeSet)
    (indices : list nat) (stack : list nat) : option (list nat) :=
  match indices with
  | [] => Some stack
  | i :: indices' =>
      match HasUnusedAdjacent t i constrainedEdges with
      | None => None
      | Some (Some target) => push_unused_adjacents t constrainedEdges indices' (target :: stack)
      | Some None => push_unused_adjacents t constrainedEdges indices' stack
      end
  end.

(** Iterative implementation of RemoveUnusedTriangles: one round.  The stack
    is a list with its top first.  The result is the new stack, together with
    the triangle flagged in this round, if any. *)
Definition RemoveOuterPolygonTrianglesImpl (current : TriangleIterator) (stack : list nat)
    (constrainedEdges : EdgeSet) : Cmd (list nat * option nat) :=
  t <- deref current ;;
  (* Flagged triangles have already been passed, skip them *)
  if IsFlagged t then ret (stack, None)
  else
    Flag current ;;;
    match push_unused_adjacents t constrainedEdges [0; 1; 2] stack with
    | Some stack' => ret (stack', Some current)
    | None => stop AssertionFailed
    end.

(** The [while (!stack.empty())] loop; the result lists the triangles in the
    order in which the loop flags them. *)
Fixpoint RemoveOuterPolygonTriangles_loop (fuel : nat) (stack : list nat)
    (constrainedEdges : EdgeSet) : Cmd (list nat) :=
  match stack with
  | [] => ret []
  | current :: stack' =>
      match fuel with
      | O => stop OutOfFuel
      | S fuel' =>
          r <- RemoveOuterPolygonTrianglesImpl current stack' constrainedEdges ;;
          flagged <- RemoveOuterPolygonTriangles_loop fuel' (fst r) constrainedEdges ;;
          ret (match snd r with Some h => h :: flagged | None => flagged end)
      end
  end.

(** Removes the triangles that are "unused" (i.e. outside the polygon). *)
Definition RemoveOuterPolygonTriangles (fuel : nat) (current : TriangleIterator)
    (constrainedEdges : EdgeSet) : Cmd (list nat) :=
  flagged <- RemoveOuterPolygonTriangles_loop fuel [current] constrainedEdges ;;
  (* Remove all triangles marked as unused. *)
  remove_if_IsFlagged ;;;
  ret flagged.

(** ** Notions of the specification *)

(** A point is in the closed triangle [b0 b1 b2], whose corners are given in
    clockwise order, when it is on the clockwise side of each of the three
    directed edges. *)
Definition triangle_contains (b0 b1 b2 p : sf.Vector2f) : bool :=
  ClockwiseOrientation b0 b1 p && ClockwiseOrientation b1 b2 p
  && ClockwiseOrientation b2 b0 p.

(** The circle with mid point [mid] and squared radius [r2] passes through
    the three corners of the triangle. *)
Definition circle_through_corners (t : AdvancedTriangle) (mid : sf.Vector2f) (r2 : Q) : Prop :=
  (SquaredLength (At t 0 - mid) == r2)%Q
  /\ (SquaredLength (At t 1 - mid) == r2)%Q
  /\ (SquaredLength (At t 2 - mid) == r2)%Q.

(** The triangle of the three boundary vertices, read as a closed region
    and as an orientation. *)
Definition boundary_contains (boundaryVertices : list Vertex) (p : sf.Vector2f) : bool :=
  match boundaryVertices with
  | [n0; n1; n2] => triangle_contains (GetPosition n0) (GetPosition n1) (GetPosition n2) p
  | _ => false
  end.

Definition boundary_clockwise (boundaryVertices : list Vertex) : bool :=
  match boundaryVertices with
  | [n0; n1; n2] => ClockwiseOrientation (GetPosition n0) (GetPosition n1) (GetPosition n2)
  | _ => false
  end.

(** An edge flip inserts triangles: the list is longer afterwards. *)
Definition triangles_added (before after : Mesh) : Prop :=
  size (triangles before) < size (triangles after).

(** The circumcircle of a triangle, the unique circle through its three
    corners, exists when the corners are not collinear. *)
Definition circumcircle_of (t : AdvancedTriangle) (mid : sf.Vector2f) (r2 : Q) : Prop :=
  ~ (turn (At t 0) (At t 1) (At t 2) == 0)%Q /\ circle_through_corners t mid r2.

Definition strictly_inside_circumcircle (t : AdvancedTriangle) (p : sf.Vector2f) : Prop :=
  exists mid r2, circumcircle_of t mid r2 /\ (SquaredLength (p - mid) < r2)%Q.

(** Four points are the corners of a strictly convex quadrilateral, given in
    clockwise order: the turn at each corner is strictly clockwise. *)
Definition strictly_convex_clockwise (p0 p1 p2 p3 : sf.Vector2f) : Prop :=
  (turn p0 p1 p2 < 0 /\ turn p1 p2 p3 < 0 /\ turn p2 p3 p0 < 0 /\ turn p3 p0 p1 < 0)%Q.

(** The quadrilateral that two adjacent triangles form together: first
    shared corner, disjoint corner of the second triangle, second shared
    corner, disjoint corner of the first triangle. *)
Definition merged_quadrilateral_convex (first second : AdvancedTriangle) (a : Arrangement)
    : Prop :=
  strictly_convex_clockwise
    (At first (fst (sharedCornerIndices1 a)))
    (At second (snd (disjointCornerIndices a)))
    (At first (fst (sharedCornerIndices2 a)))
    (At first (fst (disjointCornerIndices a))).

(** What the specification expects of an arrangement: the shared corners
    agree in position, and each triangle lists shared corner, shared corner,
    disjoint corner in strictly clockwise order (the second one with the
    shared corners exchanged). *)
Definition arranged_clockwise (tf ts : AdvancedTriangle) (a : Arrangement) : Prop :=
  (turn (At tf (fst (sharedCornerIndices1 a))) (At tf (fst (sharedCornerIndices2 a)))
        (At tf (fst (disjointCornerIndices a))) < 0)%Q
  /\ (turn (At ts (snd (sharedCornerIndices2 a))) (At ts (snd (sharedCornerIndices1 a)))
           (At ts (snd (disjointCornerIndices a))) < 0)%Q
  /\ veq (At tf (fst (sharedCornerIndices1 a))) (At ts (snd (sharedCornerIndices1 a))) = true
  /\ veq (At tf (fst (sharedCornerIndices2 a))) (At ts (snd (sharedCornerIndices2 a))) = true.

(** A point is strictly inside the triangle [c0 c1 c2]: it is strictly on
    the clockwise side of each edge.  The triangle is then clockwise. *)
Definition strictly_inside_triangle (c0 c1 c2 p : sf.Vector2f) : Prop :=
  (turn c0 c1 p < 0 /\ turn c1 c2 p < 0 /\ turn c2 c0 p < 0)%Q.

Definition same_position (a b : sf.Vector2f) : Prop :=
  (sf.x a == sf.x b /\ sf.y a == sf.y b)%Q.

(** The vertex passes the wedge test number [k], between the corners [k] and
    [k + 1], of the old triangle. *)
Definition passes_wedge (oldTriangle : AdvancedTriangle) (center : sf.Vector2f) (u : Vertex)
    (k : nat) : Prop :=
  IsVertexInSection3 u center (At oldTriangle k) (At oldTriangle ((k + 1) mod 3)) = Some true.

(** The content of a [std::set] ordered by [CompareVertexPtrs]: strictly
    increasing. *)
Definition vertex_set (s : list Vertex) : Prop :=
  StronglySorted (fun a b => CompareVertexPtrs a b = true) s.

(** An adjacency link of the mesh that the boundary trim follows: the slot
    [i] of the triangle [a] refers to [b], and the edge opposite the corner
    [i], which the link crosses, is not constrained, as [IsEdgeConstrained]
    decides for the two corners in the order in which the trim asks. *)
Definition unconstrained_link (m : Mesh) (constrainedEdges : EdgeSet) (a b : nat) : Prop :=
  exists t i,
    triangles m !! a = Some t /\ i < 3
    /\ GetAdjacentTriangle t i = Some b
    /\ IsEdgeConstrained constrainedEdges
         (corner t ((i + 1) mod 3)) (corner t ((i + 2) mod 3)) = Some false.

Inductive reachable (m : Mesh) (constrainedEdges : EdgeSet) (start : nat) : nat -> Prop :=
| reachable_start : reachable m constrainedEdges start start
| reachable_link a b :
    reachable m constrainedEdges start a ->
    unconstrained_link m constrainedEdges a b ->
    reachable m constrainedEdges start b.

(** Every adjacency slot in use refers to a triangle of the list. *)
Definition adjacency_closed (m : Mesh) : Prop :=
  forall h t i b,
    triangles m !! h = Some t -> i < 3 -> GetAdjacentTriangle t i = Some b ->
    is_Some (triangles m !! b).

Definition no_flags (m : Mesh) : Prop :=
  forall h t, triangles m !! h = Some t -> IsFlagged t = false.

(** The value of an adjacency slot: [None] when the list holds no triangle
    under the handle. *)
Definition slot (m : Mesh) (h i : nat) : option (option nat) :=
  (fun t => GetAdjacentTriangle t i) <$> triangles m !! h.

(** A live triangle: in the list and not flagged. *)
Definition live (m : Mesh) (h : nat) : Prop :=
  exists t, triangles m !! h = Some t /\ IsFlagged t = false.

(** Some adjacency slot of [a] holds the handle [b]. *)
Definition links (m : Mesh) (a b : nat) : Prop :=
  exists i, i < 3 /\ slot m a i = Some (Some b).

(** Adjacency is symmetric: if a slot of the live triangle [a] holds a
    handle to the live triangle [b], some slot of [b] holds a handle back to
    [a]. *)
Definition adjacency_symmetric (m : Mesh) : Prop :=
  forall a b, live m a -> live m b -> links m a b -> links m b a.

(** The mesh before [CreateBoundaryPoints]. *)
Definition empty_mesh : Mesh := mkMesh ∅ 0 ∅.

(** * Properties *)

(** ** Geometric predicates *)

Lemma veq_iff a b : veq a b = true <-> (sf.x a == sf.x b /\ sf.y a == sf.y b)%Q.
Proof. unfold veq. rewrite andb_true_iff, !feq_iff. tauto. Qed.

Lemma vneq_true a b :
  vneq a b = true <-> ~ (sf.x a == sf.x b /\ sf.y a == sf.y b)%Q.
Proof.
  unfold vneq. rewrite negb_true_iff, <- not_true_iff_false, veq_iff. tauto.
Qed.



(** ** Circumcircle *)

(** For corners that are not collinear the source returns the circle
    through them. *)
Lemma ComputeCircumcircle_proper (t : AdvancedTriangle) :
  ~ (turn (At t 0) (At t 1) (At t 2) == 0)%Q ->
  exists mid r2,
    ComputeCircumcircle t = Some (FiniteCircle mid r2)
    /\ circle_through_corners t mid r2.
Proof.
  intros Hturn. unfold ComputeCircumcircle, circle_through_corners.
  set (A := At t 0) in *. set (B := At t 1) in *. set (C := At t 2) in *.
  rewrite turn_unfold in Hturn.
  destruct A as [ax ay], B as [bx by_], C as [cx cy]. cbn in Hturn.
  assert (H01 : vneq (sf.mkVector2f ax ay) (sf.mkVector2f bx by_) = true).
  { apply vneq_true. cbn. intros [Hx Hy]. apply Hturn. rewrite Hx, Hy. ring. }
  assert (H02 : vneq (sf.mkVector2f ax ay) (sf.mkVector2f cx cy) = true).
  { apply vneq_true. cbn. intros [Hx Hy]. apply Hturn. rewrite Hx, Hy. ring. }
  rewrite H01, H02. cbn [andb].
  cbv [vadd vsub vscale PerpendicularVector sf.x sf.y SquaredLength].
  match goal with |- context [feq ?e 0] => set (d := e) end.
  assert (Hd : ~ (d == 0)%Q).
  { intros Hd. apply Hturn.
    transitivity (4 * d)%Q; [subst d; ring | rewrite Hd; ring]. }
  apply feq_false in Hd as Hd'. rewrite Hd'.
  eexists _, _. split; [reflexivity|].
  cbv [sf.x sf.y]. subst d.
  repeat split; field; exact Hd.
Qed.



(** ** Constrained edges *)

Lemma newAdvancedEdge_sym (a b : Vertex) :
  ~ (SumVectorComponents (GetPosition a) == SumVectorComponents (GetPosition b))%Q ->
  newAdvancedEdge a b = newAdvancedEdge b a.
Proof.
  intros Hne. unfold newAdvancedEdge, OrderCorners. cbn.
  destruct (flt _ _) eqn:H1; destruct (flt (SumVectorComponents (GetPosition a)) _) eqn:H2;
    try reflexivity.
  - apply flt_iff in H1, H2. lra.
  - apply flt_false in H1, H2. exfalso. apply Hne. lra.
Qed.

(** C10 at the input on which the code departs from it: the points (0,1) and
    (1,0) have the same sum of coordinates, [OrderCorners] leaves both
    directions as they are, and the lookup depends on the direction. *)
Theorem IsEdgeConstrained_tie_is_directed :
  let a := Vertex_at 1 0 1 in
  let b := Vertex_at 2 1 0 in
  IsEdgeConstrained [newAdvancedEdge a b] a b = Some true
  /\ IsEdgeConstrained [newAdvancedEdge a b] b a = Some false
  /\ edges_equivalent (newAdvancedEdge a b) (newAdvancedEdge b a) = false.
Proof. repeat split; vm_compute; reflexivity. Qed.

(** ** Bootstrap *)

Lemma fold_maxStep_ge l : forall acc, (acc <= fold_left maxStep l acc)%Q.
Proof.
  induction l as [|v l IH]; intros acc; cbn.
  - apply Qle_refl.
  - eapply Qle_trans; [|apply IH]. unfold maxStep.
    eapply Qle_trans; [|apply Q.le_max_l]. apply Q.le_max_l.
Qed.

Lemma fold_maxStep_bound l : forall acc v, In v l ->
  (Qabs (sf.x (GetPosition v)) <= fold_left maxStep l acc
   /\ Qabs (sf.y (GetPosition v)) <= fold_left maxStep l acc)%Q.
Proof.
  induction l as [|u l IH]; intros acc v Hin; [destruct Hin|].
  destruct Hin as [->|Hin]; cbn.
  - split; (eapply Qle_trans; [|apply fold_maxStep_ge]); unfold maxStep.
    + eapply Qle_trans; [|apply Q.le_max_l]. apply Q.le_max_r.
    + apply Q.le_max_r.
  - apply IH, Hin.
Qed.

Lemma maxCoordOf_bound allVertices v : In v allVertices ->
  (Qabs (sf.x (GetPosition v)) <= maxCoordOf allVertices
   /\ Qabs (sf.y (GetPosition v)) <= maxCoordOf allVertices)%Q.
Proof. apply fold_maxStep_bound. Qed.

(** The three orientation tests of a point of the square of half side [M]
    against the triangle at scale [4 * M], for [M] at least [e]. *)
Lemma enclosing_inequalities (M e x y : Q) :
  (0 < e -> e <= M -> - M <= x <= M -> - M <= y <= M ->
   let m := M * 4 in
   ((m + e) - e) * (y - (m - e)) - ((- e) - (m - e)) * (x - e) <= 0
   /\ ((- m - e) - (m + e)) * (y - (- e)) - ((- m + e) - (- e)) * (x - (m + e)) <= 0
   /\ (e - (- m - e)) * (y - (- m + e)) - ((m - e) - (- m + e)) * (x - (- m - e)) <= 0)%Q.
Proof.
  intros He HM Hx Hy m. subst m. repeat split; nra.
Qed.

Lemma maxCoordOf_nonneg allVertices : (0 <= maxCoordOf allVertices)%Q.
Proof. apply fold_maxStep_ge. Qed.


(** The hypothesis on [M] holds as long as [allVertices] still holds the
    three dummy vertices of [CreateBoundaryPoints]. *)
Lemma maxCoordOf_initialBoundaryVertices (a0 a1 a2 : nat) (vertices : list Vertex) :
  (epsilon <= maxCoordOf (initialBoundaryVertices a0 a1 a2 ++ vertices))%Q.
Proof.
  destruct (maxCoordOf_bound (initialBoundaryVertices a0 a1 a2 ++ vertices)
              (Vertex_at a0 (-1) 0)) as [Hx _].
  { apply in_or_app. left. left. reflexivity. }
  eapply Qle_trans; [|exact Hx]. vm_compute. discriminate.
Qed.



(** ** Outcomes of commands *)

Lemma bind_Returns {A B} (c : Cmd A) (k : A -> Cmd B) m a m1 :
  c m = Returns a m1 -> bind c k m = k a m1.
Proof. unfold bind. now intros ->. Qed.

Lemma bind_Stops {A B} (c : Cmd A) (k : A -> Cmd B) m e m1 :
  c m = Stops e m1 -> bind c k m = Stops e m1.
Proof. unfold bind. now intros ->. Qed.

Lemma deref_Some itr m t :
  triangles m !! itr = Some t -> deref itr m = Returns t m.
Proof. unfold deref. now intros ->. Qed.

Lemma bind_deref {B} itr (k : AdvancedTriangle -> Cmd B) m t :
  triangles m !! itr = Some t -> bind (deref itr) k m = k t m.
Proof. intros H. apply bind_Returns, deref_Some, H. Qed.

(** ** The triangle list only grows during the repair *)

Lemma size_insert_Some (ts : gmap nat AdvancedTriangle) i x t :
  ts !! i = Some t -> size (<[i := x]> ts) = size ts.
Proof. intros H. rewrite map_size_insert, H. reflexivity. Qed.

Lemma size_insert_None (ts : gmap nat AdvancedTriangle) i x :
  ts !! i = None -> size (<[i := x]> ts) = S (size ts).
Proof. intros H. rewrite map_size_insert, H. reflexivity. Qed.

(** Every handle in use was issued before. *)
Definition handles_fresh (m : Mesh) : Prop :=
  forall h t, triangles m !! h = Some t -> h < nextIterator m.

Definition extends (m m' : Mesh) : Prop :=
  handles_fresh m ->
  handles_fresh m' /\ size (triangles m) <= size (triangles m').

Definition growing {A} (c : Cmd A) : Prop :=
  forall m, extends m (mesh_of (c m)).

Lemma extends_refl m : extends m m.
Proof. intros H. split; [exact H | lia]. Qed.

Lemma extends_trans m1 m2 m3 : extends m1 m2 -> extends m2 m3 -> extends m1 m3.
Proof.
  intros H12 H23 H1. destruct (H12 H1) as [H2 L12].
  destruct (H23 H2) as [H3 L23]. split; [exact H3 | lia].
Qed.

Lemma growing_ret {A} (a : A) : growing (ret a).
Proof. intros m. apply extends_refl. Qed.

Lemma growing_stop {A} e : growing (@stop A e).
Proof. intros m. apply extends_refl. Qed.

Lemma growing_bind {A B} (c : Cmd A) (k : A -> Cmd B) :
  growing c -> (forall a, growing (k a)) -> growing (bind c k).
Proof.
  intros Hc Hk m. unfold bind. specialize (Hc m).
  destruct (c m) as [a m1|e m1]; cbn in Hc.
  - eapply extends_trans; [exact Hc | apply Hk].
  - exact Hc.
Qed.

Lemma growing_assert b : growing (assert b).
Proof. destruct b; [apply growing_ret | apply growing_stop]. Qed.

Lemma growing_asserted o : growing (asserted o).
Proof. destruct o; [apply growing_ret | apply growing_stop]. Qed.

Lemma growing_deref itr : growing (deref itr).
Proof. intros m. unfold deref. destruct (_ !! _); apply extends_refl. Qed.

Lemma growing_update itr f : growing (update itr f).
Proof.
  intros m. unfold update. destruct (triangles m !! itr) as [t|] eqn:E;
    [|apply extends_refl].
  intros Hf. cbn. split.
  - intros h t' Hh. cbn in *. destruct (decide (itr = h)) as [->|Hne].
    + eapply Hf, E.
    + rewrite lookup_insert_ne in Hh by done. eapply Hf, Hh.
  - erewrite size_insert_Some by exact E. lia.
Qed.

Lemma growing_InsertTriangle c0 c1 c2 : growing (InsertTriangle c0 c1 c2).
Proof.
  intros m Hf. cbn. split.
  - intros h t Hh. cbn in *. destruct (decide (nextIterator m = h)) as [<-|Hne]; [lia|].
    rewrite lookup_insert_ne in Hh by done. apply Hf in Hh. lia.
  - destruct (triangles m !! nextIterator m) as [t|] eqn:E.
    + erewrite size_insert_Some by exact E. lia.
    + rewrite size_insert_None by exact E. lia.
Qed.

Lemma growing_SetSurroundingTriangle v target : growing (SetSurroundingTriangle v target).
Proof. intros m Hf. cbn. split; [exact Hf | lia]. Qed.

Lemma growing_foreach {A} (l : list A) body :
  (forall a, growing (body a)) -> growing (foreach l body).
Proof.
  intros Hb. induction l as [|a l IH]; cbn.
  - apply growing_ret.
  - apply growing_bind; [apply Hb | intros _; exact IH].
Qed.

Create HintDb growing.
#[local] Hint Resolve growing_ret growing_stop growing_assert growing_asserted
  growing_deref growing_update growing_InsertTriangle growing_SetSurroundingTriangle
  : growing.

Ltac grow :=
  repeat first
    [ apply growing_bind; [|intros ?]
    | apply growing_foreach; intros ?
    | solve [auto with growing]
    | match goal with
      | |- growing (if ?b then _ else _) => destruct b
      | |- growing (match ?x with _ => _ end) => destruct x
      | |- growing (let '(_, _) := ?x in _) => destruct x
      end ].

Lemma growing_SetAdjacentTriangle itr index adj : growing (SetAdjacentTriangle itr index adj).
Proof. apply growing_update. Qed.

Lemma growing_Flag itr : growing (Flag itr).
Proof. apply growing_update. Qed.

Lemma growing_AddVertex itr v : growing (AddVertex itr v).
Proof. apply growing_update. Qed.

Lemma growing_RemoveVertexItr itr v : growing (RemoveVertexItr itr v).
Proof. unfold RemoveVertexItr. grow. Qed.

#[local] Hint Resolve growing_SetAdjacentTriangle growing_Flag growing_AddVertex
  growing_RemoveVertexItr : growing.

Lemma growing_TransferVertex source v dest : growing (TransferVertex source v dest).
Proof. unfold TransferVertex. grow. Qed.

Lemma growing_UpdateAdjacentBackReferences old new other :
  growing (UpdateAdjacentBackReferences old new other).
Proof. unfold UpdateAdjacentBackReferences. grow. Qed.

#[local] Hint Resolve growing_TransferVertex growing_UpdateAdjacentBackReferences : growing.

Lemma growing_UpdateAdjacentRelation old oldIndex new newIndex :
  growing (UpdateAdjacentRelation old oldIndex new newIndex).
Proof. unfold UpdateAdjacentRelation. grow. Qed.

Lemma growing_TransferVertices2 oldFirst oldSecond newFirst newSecond dc :
  growing (TransferVertices2 oldFirst oldSecond newFirst newSecond dc).
Proof. unfold TransferVertices2, TransferVertices2Impl. grow. Qed.

#[local] Hint Resolve growing_UpdateAdjacentRelation growing_TransferVertices2 : growing.

Lemma growing_FlipEdges oldFirst oldSecond a : growing (FlipEdges oldFirst oldSecond a).
Proof. unfold FlipEdges. grow. Qed.

#[local] Hint Resolve growing_FlipEdges : growing.

Section RepairGrows.
Variable Intersect : AdvancedEdge -> AdvancedEdge -> bool.

Lemma growing_ChangeEdgeSituation recur first second a :
  (forall x y, growing (recur x y)) ->
  growing (ChangeEdgeSituation recur first second a).
Proof.
  intros Hr. unfold ChangeEdgeSituation, EnsureLocalDelaunayAdjacent. grow.
Qed.

Lemma growing_EnsureLocalDelaunay_body recur bv ce first second :
  (forall x y, growing (recur x y)) ->
  growing (EnsureLocalDelaunay_body Intersect recur bv ce first second).
Proof.
  intros Hr. unfold EnsureLocalDelaunay_body.
  pose proof (growing_ChangeEdgeSituation recur) as HC.
  grow; apply HC, Hr.
Qed.

Lemma growing_EnsureLocalDelaunay fuel bv ce first second :
  growing (EnsureLocalDelaunay Intersect fuel bv ce first second).
Proof.
  revert first second. induction fuel as [|fuel IH]; intros first second; cbn.
  - apply growing_stop.
  - apply growing_EnsureLocalDelaunay_body, IH.
Qed.

End RepairGrows.

(** ** The Delaunay test *)

Lemma ComputeCircumcircle_finite t mid r2 :
  ComputeCircumcircle t = Some (FiniteCircle mid r2) -> circumcircle_of t mid r2.
Proof.
  intros H.
  assert (Hturn : ~ (turn (At t 0) (At t 1) (At t 2) == 0)%Q).
  { intros Hturn. revert H. unfold ComputeCircumcircle.
    destruct (vneq _ _ && vneq _ _); [|discriminate].
    match goal with |- context [feq ?e 0] => set (d := e) end.
    assert (Hd : (d == 0)%Q).
    { rewrite turn_unfold in Hturn.
      transitivity ((1 # 4) * ((sf.x (At t 1) - sf.x (At t 0)) * (sf.y (At t 2) - sf.y (At t 0))
                               - (sf.y (At t 1) - sf.y (At t 0)) * (sf.x (At t 2) - sf.x (At t 0))))%Q.
      - subst d. cbv [vadd vsub vscale PerpendicularVector sf.x sf.y]. 
        destruct (At t 0), (At t 1), (At t 2). ring.
      - rewrite Hturn. ring. }
    apply feq_iff in Hd. rewrite Hd. discriminate. }
  split; [exact Hturn|].
  destruct (ComputeCircumcircle_proper t Hturn) as (mid' & r2' & Heq & Hthrough).
  rewrite H in Heq. injection Heq as -> ->. exact Hthrough.
Qed.

Lemma circumcircle_unique t mid r2 mid' r2' :
  circumcircle_of t mid r2 -> circumcircle_of t mid' r2' ->
  (sf.x mid == sf.x mid' /\ sf.y mid == sf.y mid' /\ r2 == r2')%Q.
Proof.
  intros [Hturn (H0 & H1 & H2)] [_ (H0' & H1' & H2')].
  rewrite turn_unfold in Hturn.
  unfold SquaredLength, vsub in *. 
  destruct (At t 0) as [ax ay], (At t 1) as [bx by_], (At t 2) as [cx cy],
    mid as [mx my], mid' as [nx ny]. cbn in *.
  set (D := ((bx - ax) * (cy - ay) - (by_ - ay) * (cx - ax))%Q) in *.
  assert (L1 : ((bx - ax) * (mx - nx) + (by_ - ay) * (my - ny) == 0)%Q) by lra.
  assert (L2 : ((cx - ax) * (mx - nx) + (cy - ay) * (my - ny) == 0)%Q) by lra.
  assert (Hx : (D * (mx - nx) == 0)%Q).
  { transitivity ((cy - ay) * ((bx - ax) * (mx - nx) + (by_ - ay) * (my - ny))
                  - (by_ - ay) * ((cx - ax) * (mx - nx) + (cy - ay) * (my - ny)))%Q;
      [subst D; ring | rewrite L1, L2; ring]. }
  assert (Hy : (D * (my - ny) == 0)%Q).
  { transitivity ((bx - ax) * ((cx - ax) * (mx - nx) + (cy - ay) * (my - ny))
                  - (cx - ax) * ((bx - ax) * (mx - nx) + (by_ - ay) * (my - ny)))%Q;
      [subst D; ring | rewrite L1, L2; ring]. }
  apply Qmult_integral in Hx, Hy.
  destruct Hx as [Hx|Hx]; [contradiction|].
  destruct Hy as [Hy|Hy]; [contradiction|].
  assert (Ex : (mx == nx)%Q) by lra.
  assert (Ey : (my == ny)%Q) by lra.
  repeat split; try assumption.
  rewrite <- H0, <- H0', Ex, Ey. reflexivity.
Qed.

(** The test of the source agrees with the geometric notion. *)
Lemma InsideCircle_circumcircle t p :
  (exists c, ComputeCircumcircle t = Some c /\ InsideCircle p c = true)
  <-> strictly_inside_circumcircle t p.
Proof.
  split.
  - intros (c & Hc & Hin). destruct c as [mid r2|]; [|discriminate].
    exists mid, r2. split; [apply ComputeCircumcircle_finite, Hc|].
    apply flt_iff, Hin.
  - intros (mid & r2 & Hcirc & Hlt).
    destruct (ComputeCircumcircle_proper t (proj1 Hcirc)) as (mid' & r2' & Heq & Hthrough).
    exists (FiniteCircle mid' r2'). split; [exact Heq|].
    destruct (circumcircle_unique t mid r2 mid' r2' Hcirc
                (ComputeCircumcircle_finite _ _ _ Heq)) as (Ex & Ey & Er).
    cbn. apply flt_iff. unfold SquaredLength, vsub in *. cbn in *.
    rewrite <- Ex, <- Ey, <- Er. exact Hlt.
Qed.

(** ** Edge flips and the return value of the repair *)

Lemma bind_assoc {A B C} (c : Cmd A) (k : A -> Cmd B) (k' : B -> Cmd C) m :
  bind (bind c k) k' m = bind c (fun a => bind (k a) k') m.
Proof. unfold bind. destruct (c m); reflexivity. Qed.

Lemma bind_InsertTriangle {B} c0 c1 c2 (k : nat -> Cmd B) m :
  bind (InsertTriangle c0 c1 c2) k m =
  k (nextIterator m)
    (mkMesh (<[nextIterator m := newAdvancedTriangle c0 c1 c2]> (triangles m))
       (S (nextIterator m)) (surrounding m)).
Proof. reflexivity. Qed.

Lemma adds_bind_InsertTriangle {B} c0 c1 c2 (k : nat -> Cmd B) m :
  (forall h, growing (k h)) ->
  handles_fresh m ->
  triangles_added m (mesh_of (bind (InsertTriangle c0 c1 c2) k m)).
Proof.
  intros Hk Hfresh. rewrite bind_InsertTriangle.
  match goal with |- triangles_added _ (mesh_of (_ _ ?m1)) => set (m1' := m1) end.
  assert (H1 : handles_fresh m1' /\ size (triangles m1') = S (size (triangles m))).
  { split.
    - apply (growing_InsertTriangle c0 c1 c2 m Hfresh).
    - subst m1'. cbn. apply size_insert_None.
      destruct (triangles m !! nextIterator m) eqn:E; [|reflexivity].
      apply Hfresh in E. lia. }
  destruct H1 as [Hfresh1 Hsize1].
  destruct (Hk (nextIterator m) m1' Hfresh1) as [_ Hsize2].
  unfold triangles_added. rewrite Hsize1 in Hsize2. exact Hsize2.
Qed.

Section RepairDecision.
Variable Intersect : AdvancedEdge -> AdvancedEdge -> bool.
Variable boundaryVertices : list Vertex.
Variable constrainedEdges : EdgeSet.


(** The branch that flips: the list is longer afterwards, whatever the
    recursive calls do, and the value returned, if any, is true. *)
Lemma flip_branch_adds recur first second a m tf ts :
  (forall x y, growing (recur x y)) ->
  handles_fresh m ->
  triangles m !! first = Some tf ->
  triangles m !! second = Some ts ->
  triangles_added m (mesh_of ((ChangeEdgeSituation recur first second a ;;; ret true) m)).
Proof.
  intros Hr Hfresh Hf Hs. unfold ChangeEdgeSituation, FlipEdges.
  rewrite !bind_assoc. rewrite (bind_deref _ _ _ _ Hf).
  rewrite !bind_assoc. rewrite (bind_deref _ _ _ _ Hs).
  rewrite !bind_assoc.
  apply adds_bind_InsertTriangle; [|exact Hfresh].
  intros nf. unfold EnsureLocalDelaunayAdjacent. grow.
Qed.

Lemma flip_branch_not_false recur first second a m m' :
  (ChangeEdgeSituation recur first second a ;;; ret true) m <> Returns false m'.
Proof.
  unfold bind at 1. destruct (ChangeEdgeSituation _ _ _ _ _); discriminate.
Qed.

Lemma EnsureLocalDelaunay_live fuel first second m tf ts a :
  triangles m !! first = Some tf ->
  triangles m !! second = Some ts ->
  IsFlagged tf = false ->
  IsFlagged ts = false ->
  ArrangeCorners tf ts = Some a ->
  EnsureLocalDelaunay Intersect (S fuel) boundaryVertices constrainedEdges first second m =
  (let recur := EnsureLocalDelaunay Intersect fuel boundaryVertices constrainedEdges in
   let disjointEnforced :=
     disjointEdgeEnforced Intersect boundaryVertices constrainedEdges tf ts a in
   let sharedEnforced :=
     sharedEdgeEnforced Intersect boundaryVertices constrainedEdges tf a in
   if disjointEnforced && negb sharedEnforced then ret false
   else if sharedEnforced && negb disjointEnforced then
     if quadrilateral_refused tf ts a then ret false
     else ChangeEdgeSituation recur first second a ;;; ret true
   else
     match ComputeCircumcircle tf, ComputeCircumcircle ts with
     | Some circle, Some circle2 =>
         if InsideCircle (At ts (snd (disjointCornerIndices a))) circle
            && InsideCircle (At tf (fst (disjointCornerIndices a))) circle2
         then ChangeEdgeSituation recur first second a ;;; ret true
         else ret false
     | _, _ => stop AssertionFailed
     end) m.
Proof.
  intros Hf Hs Ff Fs Ha. cbn [EnsureLocalDelaunay]. unfold EnsureLocalDelaunay_body.
  rewrite (bind_deref _ _ _ _ Hf), Ff, (bind_deref _ _ _ _ Hs), Fs, Ha. reflexivity.
Qed.

Lemma triangles_added_irrefl m : ~ triangles_added m m.
Proof. unfold triangles_added. lia. Qed.


(** C8: whenever [EnsureLocalDelaunay] returns false the mesh is the one
    before the call; and when one of the two triangles is flagged it returns
    false at once. *)
Theorem EnsureLocalDelaunay_false_leaves_mesh
    (fuel : nat) (first second : TriangleIterator) (m : Mesh) :
  (forall m',
      EnsureLocalDelaunay Intersect fuel boundaryVertices constrainedEdges first second m
      = Returns false m' -> m' = m)
  /\ (forall tf,
        triangles m !! first = Some tf -> IsFlagged tf = true ->
        EnsureLocalDelaunay Intersect (S fuel) boundaryVertices constrainedEdges first second m
        = Returns false m)
  /\ (forall tf ts,
        triangles m !! first = Some tf -> triangles m !! second = Some ts ->
        IsFlagged ts = true ->
        EnsureLocalDelaunay Intersect (S fuel) boundaryVertices constrainedEdges first second m
        = Returns false m).
Proof.
  split; [|split].
  - intros m'. destruct fuel as [|fuel']; [discriminate|].
    cbn [EnsureLocalDelaunay]. unfold EnsureLocalDelaunay_body.
    destruct (triangles m !! first) as [tf|] eqn:Hf;
      [rewrite (bind_deref _ _ _ _ Hf)
      |unfold bind, deref; rewrite Hf; discriminate].
    destruct (IsFlagged tf); [intros [= <-]; reflexivity|].
    destruct (triangles m !! second) as [ts|] eqn:Hs;
      [rewrite (bind_deref _ _ _ _ Hs)
      |unfold bind, deref; rewrite Hs; discriminate].
    destruct (IsFlagged ts); [intros [= <-]; reflexivity|].
    destruct (ArrangeCorners tf ts) as [a|]; [|discriminate].
    cbv zeta.
    repeat match goal with
      | |- (if ?b then _ else _) _ = _ -> _ => destruct b
      | |- match ?x with _ => _ end _ = _ -> _ => destruct x
      end;
      try discriminate;
      try (intros [= <-]; reflexivity);
      try (intros H; exfalso; exact (flip_branch_not_false _ _ _ _ _ _ H)).
  - intros tf Hf Ff. cbn [EnsureLocalDelaunay]. unfold EnsureLocalDelaunay_body.
    rewrite (bind_deref _ _ _ _ Hf), Ff. reflexivity.
  - intros tf ts Hf Hs Fs. cbn [EnsureLocalDelaunay]. unfold EnsureLocalDelaunay_body.
    rewrite (bind_deref _ _ _ _ Hf).
    destruct (IsFlagged tf); [reflexivity|].
    rewrite (bind_deref _ _ _ _ Hs), Fs. reflexivity.
Qed.

End RepairDecision.

(** ** Arranged corners *)

Ltac case_fill H :=
  repeat match type of H with
    | context [if ?b then _ else _] => destruct b eqn:?
    end.

Ltac turn_facts :=
  repeat match goal with
    | H : ClockwiseOrientation _ _ _ = true |- _ => apply ClockwiseOrientation_true in H
    | H : ClockwiseOrientation _ _ _ = false |- _ => apply ClockwiseOrientation_false in H
    end;
  rewrite ?turn_unfold in *.

Lemma fill_corner_oriented tf ts j a0 n :
  j < 3 ->
  Nat.eqb (accumulate (map (corner_match tf ts j) [0; 1; 2])) 2 = true ->
  fold_left (fill_corner tf ts j) [0; 1; 2]
    (Some (mkArrangement (0, 0) (0, 0) (0, 0), 0)) = Some (a0, n) ->
  (turn (At tf 0) (At tf 1) (At tf 2) < 0)%Q ->
  (turn (At ts 0) (At ts 1) (At ts 2) < 0)%Q ->
  arranged_clockwise tf ts (orient_shared tf a0).
Proof.
  intros Hj Hacc Hfill Hf Hs.
  destruct j as [|[|[|j]]]; [| | |lia];
    cbn [map accumulate fold_left] in Hacc, Hfill;
    unfold fill_corner, corner_match in Hacc, Hfill;
    cbn [Nat.modulo Nat.add Nat.sub Nat.eqb Nat.divmod fst snd] in Hacc, Hfill;
    cbn in Hacc, Hfill;
    case_fill Hfill; try discriminate; cbn in Hacc; try discriminate;
    injection Hfill as <- <-;
    unfold arranged_clockwise, orient_shared; cbn;
    match goal with |- context [if ?b then _ else _] => destruct b eqn:? end; cbn;
    turn_facts; repeat split; try assumption; try lra.
Qed.

Lemma ArrangeCorners_from_oriented tf ts js a :
  Forall (fun j => j < 3) js ->
  ArrangeCorners_from tf ts js = Some a ->
  (turn (At tf 0) (At tf 1) (At tf 2) < 0)%Q ->
  (turn (At ts 0) (At ts 1) (At ts 2) < 0)%Q ->
  arranged_clockwise tf ts a.
Proof.
  intros Hjs Ha Hf Hs. induction Hjs as [|j js Hj Hjs IH]; [discriminate|].
  cbn [ArrangeCorners_from] in Ha.
  destruct (Nat.eqb (accumulate _) 2) eqn:Hacc; [|apply IH, Ha].
  destruct (fold_left _ _ _) as [[a0 n]|] eqn:Hfill; [|discriminate].
  injection Ha as <-. eapply fill_corner_oriented; eauto.
Qed.

Lemma ArrangeCorners_oriented tf ts a :
  ArrangeCorners tf ts = Some a ->
  (turn (At tf 0) (At tf 1) (At tf 2) < 0)%Q ->
  (turn (At ts 0) (At ts 1) (At ts 2) < 0)%Q ->
  arranged_clockwise tf ts a.
Proof.
  apply ArrangeCorners_from_oriented. repeat constructor.
Qed.

(** The code's test on the quadrilateral is convexity. *)
Lemma quadrilateral_refused_convex tf ts a :
  arranged_clockwise tf ts a ->
  quadrilateral_refused tf ts a = false <-> merged_quadrilateral_convex tf ts a.
Proof.
  intros (H1 & H2 & E1 & E2).
  unfold quadrilateral_refused, merged_quadrilateral_convex, strictly_convex_clockwise.
  rewrite orb_false_iff, !ClockwiseOrientation_false.
  apply veq_iff in E1, E2. destruct E1 as [E1x E1y], E2 as [E2x E2y].
  rewrite !turn_unfold in *.
  destruct (At tf (fst (sharedCornerIndices1 a))) as [s1x s1y],
           (At tf (fst (sharedCornerIndices2 a))) as [s2x s2y],
           (At tf (fst (disjointCornerIndices a))) as [dfx dfy],
           (At ts (snd (disjointCornerIndices a))) as [dsx dsy],
           (At ts (snd (sharedCornerIndices1 a))) as [t1x t1y],
           (At ts (snd (sharedCornerIndices2 a))) as [t2x t2y].
  cbn [sf.x sf.y] in *.
  rewrite <- E1x, <- E1y, <- E2x, <- E2y in H2.
  split.
  - intros [C1 C2]. repeat split; lra.
  - intros (T1 & T2 & T3 & T4). split; lra.
Qed.

Section RepairEnforced.
Variable Intersect : AdvancedEdge -> AdvancedEdge -> bool.
Variable boundaryVertices : list Vertex.
Variable constrainedEdges : EdgeSet.


End RepairEnforced.

(** ** A pair of adjacent triangles to run the repair on *)

(** The triangles (0,1), (0,-1), (-1,0) and (0,-1), (0,1), (1/2,0): they
    share the edge from (0,1) to (0,-1), and each disjoint corner is strictly
    inside the circumcircle of the other triangle. *)
Definition kite_first : AdvancedTriangle :=
  mkAdvancedTriangle
    (mkArray3 (Vertex_at 10 0 1) (Vertex_at 11 0 (-1)) (Vertex_at 12 (-1) 0))
    [] (mkArray3 None None (Some 1)) false.

Definition kite_second : AdvancedTriangle :=
  mkAdvancedTriangle
    (mkArray3 (Vertex_at 11 0 (-1)) (Vertex_at 10 0 1) (Vertex_at 13 (1 # 2) 0))
    [] (mkArray3 None None (Some 0)) false.

Definition kite : Mesh := mkMesh (<[1 := kite_second]> (<[0 := kite_first]> ∅)) 2 ∅.

Definition kite_arrangement : Arrangement := mkArrangement (0, 1) (1, 0) (2, 2).

Definition no_intersection (e1 e2 : AdvancedEdge) : bool := false.

Lemma handles_fresh_kite : handles_fresh kite.
Proof.
  change (map_Forall (fun h _ => h < 2) (triangles kite)).
  refine (bool_decide_unpack _ _). vm_compute. exact I.
Defined.


Example kite_is_flipped :
  exists m', EnsureLocalDelaunay no_intersection 3 [] [] 0 1 kite = Returns true m'
             /\ size (triangles m') = 4.
Proof. eexists. split; vm_compute; reflexivity. Qed.


Example kite_enforced_shared_edge_is_flipped :
  sharedEdgeEnforced no_intersection [Vertex_at 10 0 1] [] kite_first kite_arrangement = true
  /\ disjointEdgeEnforced no_intersection [Vertex_at 10 0 1] [] kite_first kite_second
       kite_arrangement = false
  /\ exists m', EnsureLocalDelaunay no_intersection 3 [Vertex_at 10 0 1] [] 0 1 kite
                = Returns true m'.
Proof. repeat split. eexists. vm_compute. reflexivity. Qed.

(** ** The three wedges around a point inside a triangle *)

(** The z-component of the cross product that the wedge test looks at. *)
Definition wedge_side (center c p : sf.Vector2f) : Q :=
  sf.z (CrossProduct (c - center) (p - center)).

Lemma wedge_sides_balance (c0 c1 c2 v p : sf.Vector2f) :
  (turn c1 c2 v * wedge_side v c0 p + turn c2 c0 v * wedge_side v c1 p
   + turn c0 c1 v * wedge_side v c2 p == 0)%Q.
Proof.
  unfold wedge_side. rewrite !turn_unfold. cbn. ring.
Qed.

Lemma wedge_sides_zero (c0 c1 v p : sf.Vector2f) :
  ~ (turn c0 c1 v == 0)%Q ->
  (wedge_side v c0 p == 0)%Q -> (wedge_side v c1 p == 0)%Q ->
  same_position p v.
Proof.
  intros Hturn H0 H1. unfold wedge_side in *. rewrite turn_unfold in Hturn.
  destruct c0 as [x0 y0], c1 as [x1 y1], v as [vx vy], p as [px py].
  unfold same_position. cbn in *.
  set (D := ((x1 - x0) * (vy - y0) - (y1 - y0) * (vx - x0))%Q) in *.
  assert (Hx : (D * (px - vx) == 0)%Q).
  { transitivity ((x1 - vx) * ((x0 - vx) * (py - vy) - (y0 - vy) * (px - vx))
                  - (x0 - vx) * ((x1 - vx) * (py - vy) - (y1 - vy) * (px - vx)))%Q;
      [subst D; ring | rewrite H0, H1; ring]. }
  assert (Hy : (D * (py - vy) == 0)%Q).
  { transitivity ((y1 - vy) * ((x0 - vx) * (py - vy) - (y0 - vy) * (px - vx))
                  - (y0 - vy) * ((x1 - vx) * (py - vy) - (y1 - vy) * (px - vx)))%Q;
      [subst D; ring | rewrite H0, H1; ring]. }
  apply Qmult_integral in Hx, Hy.
  destruct Hx as [Hx|Hx]; [contradiction|].
  destruct Hy as [Hy|Hy]; [contradiction|].
  split; lra.
Qed.

(** Around a point strictly inside a triangle, the three sides of a point
    elsewhere are neither all negative nor all non-negative. *)
Lemma wedge_sides_mixed (c0 c1 c2 v p : sf.Vector2f) :
  strictly_inside_triangle c0 c1 c2 v ->
  ~ same_position p v ->
  ~ (wedge_side v c0 p < 0 /\ wedge_side v c1 p < 0 /\ wedge_side v c2 p < 0)%Q
  /\ ~ (0 <= wedge_side v c0 p /\ 0 <= wedge_side v c1 p /\ 0 <= wedge_side v c2 p)%Q.
Proof.
  intros (T0 & T1 & T2) Hne.
  pose proof (wedge_sides_balance c0 c1 c2 v p) as Hb.
  set (a0 := wedge_side v c0 p) in *. set (a1 := wedge_side v c1 p) in *.
  set (a2 := wedge_side v c2 p) in *.
  set (m0 := turn c1 c2 v) in *. set (m1 := turn c2 c0 v) in *.
  set (m2 := turn c0 c1 v) in *.
  assert (Z : ~ (m2 == 0)%Q) by lra.
  assert (W := wedge_sides_zero c0 c1 v p Z). fold a0 a1 in W.
  clearbody a0 a1 a2 m0 m1 m2.
  split.
  - intros (N0 & N1 & N2).
    assert (0 < m0 * a0)%Q by nra. assert (0 < m1 * a1)%Q by nra.
    assert (0 < m2 * a2)%Q by nra. lra.
  - intros (P0 & P1 & P2).
    assert (m0 * a0 <= 0)%Q by nra. assert (m1 * a1 <= 0)%Q by nra.
    assert (m2 * a2 <= 0)%Q by nra.
    assert (Z0 : (m0 * a0 == 0)%Q) by lra. assert (Z1 : (m1 * a1 == 0)%Q) by lra.
    apply Qmult_integral in Z0, Z1.
    destruct Z0 as [Z0|Z0]; [lra|]. destruct Z1 as [Z1|Z1]; [lra|].
    apply Hne. apply W; [exact Z0 | exact Z1].
Qed.

(** The index of the new triangle that [TransferVertices3] moves a vertex to. *)
Definition wedge_of (oldTriangle : AdvancedTriangle) (center : sf.Vector2f) (u : Vertex) : nat :=
  if IsVertexInSection3 u center (At oldTriangle 0) (At oldTriangle 1) is Some true then 0
  else if IsVertexInSection3 u center (At oldTriangle 1) (At oldTriangle 2) is Some true then 1
  else 2.

Lemma fle_flt a : fle 0 a = negb (flt a 0).
Proof. unfold flt, fle. now rewrite negb_involutive. Qed.

Lemma IsVertexInSection3_sides u center c1 c2 :
  (turn c1 c2 center <= 0)%Q ->
  IsVertexInSection3 u center c1 c2 =
  Some (flt (wedge_side center c1 (GetPosition u)) 0
        && negb (flt (wedge_side center c2 (GetPosition u)) 0)).
Proof.
  intros H. unfold IsVertexInSection3.
  apply ClockwiseOrientation_true in H. rewrite H, fle_flt. reflexivity.
Qed.

(** Exactly one of the three wedge tests passes, and no assertion of the
    wedge tests fails. *)
Lemma wedge_tests_exactly_one (t : AdvancedTriangle) (v : sf.Vector2f) (u : Vertex) :
  strictly_inside_triangle (At t 0) (At t 1) (At t 2) v ->
  ~ same_position (GetPosition u) v ->
  (forall k, k < 3 ->
     exists b, IsVertexInSection3 u v (At t k) (At t ((k + 1) mod 3)) = Some b)
  /\ wedge_of t v u < 3
  /\ (forall k, k < 3 -> passes_wedge t v u k <-> k = wedge_of t v u).
Proof.
  intros Hin Hne.
  destruct (wedge_sides_mixed _ _ _ _ _ Hin Hne) as [Hneg Hpos].
  destruct Hin as (T0 & T1 & T2).
  unfold wedge_of, passes_wedge.
  assert (E0 := IsVertexInSection3_sides u v (At t 0) (At t 1) (Qlt_le_weak _ _ T0)).
  assert (E1 := IsVertexInSection3_sides u v (At t 1) (At t 2) (Qlt_le_weak _ _ T1)).
  assert (E2 := IsVertexInSection3_sides u v (At t 2) (At t 0) (Qlt_le_weak _ _ T2)).
  rewrite <- !flt_false in Hpos. rewrite <- !flt_iff in Hneg.
  assert (Hw : wedge_of t v u < 3
               /\ forall k, k < 3 -> passes_wedge t v u k <-> k = wedge_of t v u).
  { unfold wedge_of, passes_wedge.
    destruct (flt (wedge_side v (At t 0) (GetPosition u)) 0),
             (flt (wedge_side v (At t 1) (GetPosition u)) 0),
             (flt (wedge_side v (At t 2) (GetPosition u)) 0);
      try (exfalso; apply Hneg; repeat split; reflexivity);
      try (exfalso; apply Hpos; repeat split; reflexivity);
      cbn [andb negb] in E0, E1, E2; rewrite E0; try rewrite E1;
      (split; [lia|]);
      intros [|[|[|k]]] Hk; try lia;
      cbn [Nat.add Nat.modulo Nat.divmod fst snd Nat.sub];
      rewrite ?E0, ?E1, ?E2; split; congruence. }
  split; [|exact Hw].
  intros [|[|[|k]]] Hk; try lia; eexists; eassumption.
Qed.

(** ** Sets of remaining vertices *)

Lemma CompareVertexPtrs_true a b :
  CompareVertexPtrs a b = true <->
  (sf.x (GetPosition a) < sf.x (GetPosition b)
   \/ (sf.x (GetPosition a) == sf.x (GetPosition b)
       /\ sf.y (GetPosition a) < sf.y (GetPosition b)))%Q.
Proof.
  unfold CompareVertexPtrs, CompareRawVertexPtrs, pair_lt. cbn [fst snd].
  rewrite orb_true_iff, andb_true_iff, negb_true_iff, !flt_iff, flt_false.
  split; intros [H|[H1 H2]]; try (left; lra).
  - destruct (Qlt_le_dec (sf.x (GetPosition a)) (sf.x (GetPosition b))); [left; lra|].
    right. split; lra.
  - right. split; lra.
Qed.

Lemma CompareVertexPtrs_false a b :
  CompareVertexPtrs a b = false <->
  (sf.x (GetPosition b) < sf.x (GetPosition a)
   \/ (sf.x (GetPosition a) == sf.x (GetPosition b)
       /\ sf.y (GetPosition b) <= sf.y (GetPosition a)))%Q.
Proof.
  rewrite <- not_true_iff_false, CompareVertexPtrs_true.
  split.
  - intros H.
    destruct (Qlt_le_dec (sf.x (GetPosition b)) (sf.x (GetPosition a))); [left; assumption|].
    right. split.
    + destruct (Qlt_le_dec (sf.x (GetPosition a)) (sf.x (GetPosition b))); [|lra].
      exfalso. apply H. left. assumption.
    + destruct (Qlt_le_dec (sf.y (GetPosition a)) (sf.y (GetPosition b))); [|assumption].
      exfalso. apply H.
      destruct (Qlt_le_dec (sf.x (GetPosition a)) (sf.x (GetPosition b))); [left; assumption|].
      right. split; lra.
  - intros [H|[H1 H2]] [H'|[H1' H2']]; lra.
Qed.

Lemma equivalent_same_position a b :
  negb (CompareVertexPtrs a b) && negb (CompareVertexPtrs b a) = true <->
  same_position (GetPosition a) (GetPosition b).
Proof.
  rewrite andb_true_iff, !negb_true_iff, !CompareVertexPtrs_false. unfold same_position.
  split.
  - intros [[H|[H1 H2]] [H'|[H1' H2']]]; split; lra.
  - intros [Hx Hy]. split; right; split; lra.
Qed.

Lemma same_position_trans a b c : same_position a b -> same_position b c -> same_position a c.
Proof. unfold same_position. intros [? ?] [? ?]. split; lra. Qed.

Lemma same_position_sym a b : same_position a b -> same_position b a.
Proof. unfold same_position. intros [? ?]. split; lra. Qed.

Lemma CompareVertexPtrs_apart a b :
  CompareVertexPtrs a b = true -> ~ same_position (GetPosition a) (GetPosition b).
Proof. rewrite CompareVertexPtrs_true. unfold same_position. intros [H|[H1 H2]] [Hx Hy]; lra. Qed.

Lemma set_erase_key_subset v s : forall n r,
  set_erase_key v s = (n, r) -> forall x, In x r -> In x s.
Proof.
  induction s as [|w s IH]; intros n r; cbn [set_erase_key].
  - intros [= <- <-] x Hx. exact Hx.
  - destruct (negb (CompareVertexPtrs v w) && negb (CompareVertexPtrs w v)).
    + intros [= <- <-] x Hx. right. exact Hx.
    + destruct (set_erase_key v s) as [n' r'] eqn:Er. intros [= <- <-] x [<-|Hx].
      * left. reflexivity.
      * right. eapply IH; eauto.
Qed.

(** After the vertex is erased from a set, no member is at its position. *)
Lemma set_erase_key_apart v s0 s :
  vertex_set s0 ->
  set_erase_key v s0 = (1, s) ->
  vertex_set s
  /\ forall u, In u s -> ~ same_position (GetPosition u) (GetPosition v).
Proof.
  intros Hs0. revert s. induction Hs0 as [|u0 s' Hs' IH Hall]; intros s; cbn [set_erase_key].
  - discriminate.
  - rewrite List.Forall_forall in Hall.
    destruct (negb (CompareVertexPtrs v u0) && negb (CompareVertexPtrs u0 v)) eqn:E.
    + intros [= <-]. split; [exact Hs'|].
      intros u Hu Hsame. apply equivalent_same_position in E.
      apply (CompareVertexPtrs_apart u0 u (Hall u Hu)).
      apply same_position_sym. eapply same_position_trans; [exact Hsame | exact E].
    + destruct (set_erase_key v s') as [n r] eqn:Er. intros [= -> <-].
      destruct (IH r eq_refl) as [Hr Hne]. split.
      * constructor; [exact Hr|].
        apply List.Forall_forall. intros x Hx. apply Hall.
        eapply set_erase_key_subset; eauto.
      * intros u [<-|Hu]; [|apply Hne, Hu].
        intros Hsame. apply not_true_iff_false in E. apply E.
        apply equivalent_same_position, same_position_sym, Hsame.
Qed.

Lemma vertex_set_apart s :
  vertex_set s ->
  ForallOrdPairs (fun a b => ~ same_position (GetPosition a) (GetPosition b)) s.
Proof.
  induction 1 as [|a s Hs IH Hall]; constructor; [|exact IH].
  eapply List.Forall_impl; [|exact Hall]. intros b. apply CompareVertexPtrs_apart.
Qed.

Lemma set_insert_In u w s : In u (set_insert w s) -> u = w \/ In u s.
Proof.
  induction s as [|x s IH]; cbn.
  - intros [<-|[]]. now left.
  - destruct (CompareVertexPtrs w x).
    + intros [<-|H]; [now left | now right].
    + destruct (CompareVertexPtrs x w).
      * intros [<-|H]; [right; now left|]. destruct (IH H); [now left | right; now right].
      * intros H. now right.
Qed.

Lemma set_insert_keeps u w s : In u s -> In u (set_insert w s).
Proof.
  induction s as [|x s IH]; cbn; [intros []|].
  destruct (CompareVertexPtrs w x); [intros H; now right|].
  destruct (CompareVertexPtrs x w); [|trivial].
  intros [<-|H]; [now left | right; auto].
Qed.

Lemma set_insert_adds w s :
  (forall x, In x s -> ~ same_position (GetPosition x) (GetPosition w)) ->
  In w (set_insert w s).
Proof.
  induction s as [|x s IH]; cbn; intros Hne; [now left|].
  destruct (CompareVertexPtrs w x) eqn:E1; [now left|].
  destruct (CompareVertexPtrs x w) eqn:E2.
  - right. apply IH. intros y Hy. apply Hne. now right.
  - exfalso. apply (Hne x (or_introl eq_refl)).
    apply equivalent_same_position. rewrite E1, E2. reflexivity.
Qed.

(** ** The transfer of the remaining vertices to the three new triangles *)

Lemma with_remaining_own t : with_remaining (mRemainingVertices t) t = t.
Proof. destruct t. reflexivity. Qed.

Lemma TransferVertex_run m source u dest ts td q :
  source <> dest ->
  triangles m !! source = Some ts ->
  mRemainingVertices ts = u :: q ->
  triangles m !! dest = Some td ->
  TransferVertex source u dest m =
  Returns tt
    (mkMesh
       (<[source := with_remaining q ts]>
          (<[dest := with_remaining (set_insert u (mRemainingVertices td)) td]> (triangles m)))
       (nextIterator m)
       (<[addr u := dest]> (surrounding m))).
Proof.
  intros Hne Hs Hq Hd.
  cbv beta iota zeta delta
    [TransferVertex bind SetSurroundingTriangle AddVertex RemoveVertexItr update deref].
  cbn [triangles nextIterator surrounding]. rewrite Hd.
  cbn [triangles nextIterator surrounding]. rewrite lookup_insert_ne by congruence. rewrite Hs.
  cbn [triangles nextIterator surrounding]. rewrite lookup_insert_ne by congruence. rewrite Hs.
  cbn [triangles nextIterator surrounding with_remaining mRemainingVertices]. rewrite Hq.
  cbn [set_erase_itr length]. unfold same_object. rewrite Nat.eqb_refl.
  replace (length q + 1) with (S (length q)) by lia. rewrite Nat.eqb_refl. reflexivity.
Qed.

Lemma TransferVertices3_body_wedge oldItr old0 newT v u m :
  strictly_inside_triangle (At old0 0) (At old0 1) (At old0 2) v ->
  ~ same_position (GetPosition u) v ->
  TransferVertices3_body oldItr old0 newT v u m =
  TransferVertex oldItr u (get3 newT (wedge_of old0 v u)) m.
Proof.
  intros Hin Hne.
  destruct (wedge_tests_exactly_one old0 v u Hin Hne) as (Hb & _ & Hw).
  destruct (Hb 0 ltac:(lia)) as [b0 E0], (Hb 1 ltac:(lia)) as [b1 E1],
    (Hb 2 ltac:(lia)) as [b2 E2].
  cbn [Nat.add Nat.modulo Nat.divmod fst snd Nat.sub] in E0, E1, E2.
  pose proof (Hw 2 ltac:(lia)) as Hw2. unfold passes_wedge in Hw2.
  cbn [Nat.add Nat.modulo Nat.divmod fst snd Nat.sub] in Hw2.
  unfold TransferVertices3_body, wedge_of in *. rewrite E0, E1, E2 in *.
  unfold bind at 1. cbn [asserted ret].
  destruct b0; [reflexivity|].
  unfold bind at 1. cbn [asserted ret].
  destruct b1; [reflexivity|].
  unfold bind at 1. cbn [asserted ret].
  destruct b2; [reflexivity|].
  exfalso. destruct Hw2 as [_ Hw2]. specialize (Hw2 eq_refl). discriminate.
Qed.

(** The remaining vertices that the transfer adds to the new triangle
    number [k], and the surrounding triangles it records. *)
Definition collect (old0 : AdvancedTriangle) (v : sf.Vector2f) (k : nat)
    (q : list Vertex) (r : list Vertex) : list Vertex :=
  fold_left (fun r u => if Nat.eqb (wedge_of old0 v u) k then set_insert u r else r) q r.

Definition recorded (newT : array3 nat) (old0 : AdvancedTriangle) (v : sf.Vector2f)
    (q : list Vertex) (sm : gmap nat nat) : gmap nat nat :=
  fold_left (fun sm u => <[addr u := get3 newT (wedge_of old0 v u)]> sm) q sm.

Lemma get3_set3 {A} (a : array3 A) i j (x : A) :
  i < 3 -> j < 3 -> get3 (set3 a i x) j = if Nat.eqb i j then x else get3 a j.
Proof.
  intros Hi Hj.
  destruct i as [|[|[|i]]], j as [|[|[|j]]]; try lia; reflexivity.
Qed.

Lemma get3_NoDup (newT : array3 nat) oldItr i j :
  NoDup [oldItr; get3 newT 0; get3 newT 1; get3 newT 2] ->
  i < 3 -> j < 3 ->
  oldItr <> get3 newT i /\ (i <> j -> get3 newT i <> get3 newT j).
Proof.
  intros Hnd Hi Hj.
  apply NoDup_cons in Hnd as [H0 Hnd]. apply NoDup_cons in Hnd as [H1 Hnd].
  apply NoDup_cons in Hnd as [H2 _].
  rewrite !elem_of_cons in H0, H1, H2.
  destruct i as [|[|[|i]]], j as [|[|[|j]]]; try lia; cbn [get3] in *;
    (split; [|intros Hij; try lia]); intros He; set_solver.
Qed.

Section Transfer.
Variable oldItr : nat.
Variable old0 : AdvancedTriangle.
Variable newT : array3 nat.
Variable v : sf.Vector2f.
Hypothesis Hdistinct : NoDup [oldItr; get3 newT 0; get3 newT 1; get3 newT 2].
Hypothesis Hinside : strictly_inside_triangle (At old0 0) (At old0 1) (At old0 2) v.

Lemma TransferVertices3_loop (q : list Vertex) :
  forall (m : Mesh) (rs : array3 (list Vertex)) (cs : array3 AdvancedTriangle),
  (forall u, In u q -> ~ same_position (GetPosition u) v) ->
  triangles m !! oldItr = Some (with_remaining q old0) ->
  (forall k, k < 3 ->
     triangles m !! get3 newT k = Some (with_remaining (get3 rs k) (get3 cs k))) ->
  exists m',
    foreach q (TransferVertices3_body oldItr old0 newT v) m = Returns tt m'
    /\ triangles m' !! oldItr = Some (with_remaining [] old0)
    /\ (forall k, k < 3 ->
          triangles m' !! get3 newT k
          = Some (with_remaining (collect old0 v k q (get3 rs k)) (get3 cs k)))
    /\ (forall h, h <> oldItr -> (forall k, k < 3 -> h <> get3 newT k) ->
          triangles m' !! h = triangles m !! h)
    /\ nextIterator m' = nextIterator m
    /\ surrounding m' = recorded newT old0 v q (surrounding m).
Proof using Hdistinct Hinside.
  induction q as [|u q IH]; intros m rs cs Hne Hold Hnew.
  - exists m. cbn. repeat split; auto.
  - assert (Hu : ~ same_position (GetPosition u) v) by (apply Hne; now left).
    destruct (wedge_tests_exactly_one old0 v u Hinside Hu) as (_ & Hk & _).
    set (k := wedge_of old0 v u) in *.
    destruct (get3_NoDup newT oldItr k k Hdistinct Hk Hk) as [Hok _].
    cbn [foreach]. unfold bind at 1.
    rewrite (TransferVertices3_body_wedge _ _ _ _ _ _ Hinside Hu). fold k.
    rewrite (TransferVertex_run m oldItr u (get3 newT k) _ _ q Hok Hold eq_refl (Hnew k Hk)).
    cbn [mRemainingVertices with_remaining].
    match goal with |- context [foreach q _ ?m1] => set (m1' := m1) end.
    destruct (IH m1' (set3 rs k (set_insert u (get3 rs k))) cs) as (m' & Hrun & Ho & Hn & Hother & Hnext & Hsur).
    + intros w Hw. apply Hne. now right.
    + subst m1'. cbn. rewrite lookup_insert_eq. reflexivity.
    + intros j Hj. subst m1'. cbn.
      destruct (get3_NoDup newT oldItr j k Hdistinct Hj Hk) as [Hoj Hjk].
      rewrite lookup_insert_ne by exact Hoj.
      rewrite (get3_set3 _ _ _ _ Hk Hj).
      destruct (Nat.eqb k j) eqn:E.
      * apply Nat.eqb_eq in E. subst j. rewrite lookup_insert_eq. reflexivity.
      * apply Nat.eqb_neq in E. rewrite lookup_insert_ne by (intros ?; apply Hjk; congruence).
        apply Hnew, Hj.
    + exists m'. split; [exact Hrun|]. split; [exact Ho|]. split; [|split; [|split]].
      * intros j Hj. rewrite (Hn j Hj). rewrite (get3_set3 _ _ _ _ Hk Hj).
        unfold collect. cbn [fold_left]. fold k.
        destruct (Nat.eqb k j) eqn:E; [apply Nat.eqb_eq in E; rewrite <- E|]; reflexivity.
      * intros h Hh Hhn. rewrite (Hother h Hh Hhn). subst m1'. cbn.
        rewrite lookup_insert_ne by congruence.
        rewrite lookup_insert_ne by (intros ?; eapply (Hhn k Hk); congruence).
        reflexivity.
      * rewrite Hnext. reflexivity.
      * rewrite Hsur. reflexivity.
Qed.

End Transfer.

Lemma collect_keeps old0 v k q : forall r u, In u r -> In u (collect old0 v k q r).
Proof.
  induction q as [|w q IH]; intros r u Hu; cbn; [exact Hu|].
  apply IH. destruct (Nat.eqb _ _); [apply set_insert_keeps|]; exact Hu.
Qed.

Lemma collect_In old0 v k q : forall r u,
  In u (collect old0 v k q r) -> In u r \/ (In u q /\ wedge_of old0 v u = k).
Proof.
  induction q as [|w q IH]; intros r u Hu; cbn in Hu; [now left|].
  apply IH in Hu as [Hu|[Hu Hk]]; [|right; split; [now right | exact Hk]].
  destruct (Nat.eqb (wedge_of old0 v w) k) eqn:E; [|now left].
  apply set_insert_In in Hu as [->|Hu]; [|now left].
  right. split; [now left | apply Nat.eqb_eq, E].
Qed.

Lemma collect_adds old0 v k q : forall r u,
  ForallOrdPairs (fun a b => ~ same_position (GetPosition a) (GetPosition b)) q ->
  (forall x w, In x r -> In w q -> ~ same_position (GetPosition x) (GetPosition w)) ->
  In u q -> wedge_of old0 v u = k -> In u (collect old0 v k q r).
Proof.
  induction q as [|w q IH]; intros r u Hq Hr Hu Hk; [destruct Hu|].
  inversion_clear Hq as [|w' q' Hw Hq']. cbn.
  destruct Hu as [->|Hu].
  - rewrite Hk, Nat.eqb_refl. apply collect_keeps, set_insert_adds.
    intros x Hx. apply Hr; [exact Hx | now left].
  - apply IH; try assumption.
    intros x y Hx Hy.
    destruct (Nat.eqb _ _).
    + apply set_insert_In in Hx as [->|Hx].
      * rewrite List.Forall_forall in Hw. apply Hw, Hy.
      * apply Hr; [exact Hx | now right].
    + apply Hr; [exact Hx | now right].
Qed.

Lemma recorded_lookup newT old0 v q : forall sm u,
  NoDup (map addr q) -> In u q ->
  recorded newT old0 v q sm !! addr u = Some (get3 newT (wedge_of old0 v u)).
Proof.
  induction q as [|w q IH]; intros sm u Hnd Hu; [destruct Hu|].
  cbn in Hnd. apply NoDup_cons in Hnd as [Hw Hnd]. cbn.
  destruct Hu as [->|Hu]; [|apply IH; assumption].
  clear IH Hnd. revert sm. induction q as [|x q IH]; intros sm; cbn.
  - apply lookup_insert_eq.
  - cbn in Hw. apply not_elem_of_cons in Hw as [Hux Hw].
    rewrite insert_insert_ne by congruence. apply IH, Hw.
Qed.


(** A triangle with four remaining vertices, about to be split at (0,0). *)
Definition split_old : AdvancedTriangle :=
  mkAdvancedTriangle
    (mkArray3 (Vertex_at 0 0 4) (Vertex_at 1 4 (-4)) (Vertex_at 2 (-4) (-4)))
    [Vertex_at 11 (-1) (-1); Vertex_at 12 1 0; Vertex_at 13 1 1]
    (mkArray3 None None None) false.

Definition split_vertex : Vertex := Vertex_at 10 0 0.

Definition split_mesh : Mesh :=
  mkMesh
    (<[3 := newAdvancedTriangle (Vertex_at 2 (-4) (-4)) (Vertex_at 0 0 4) split_vertex]>
       (<[2 := newAdvancedTriangle (Vertex_at 1 4 (-4)) (Vertex_at 2 (-4) (-4)) split_vertex]>
          (<[1 := newAdvancedTriangle (Vertex_at 0 0 4) (Vertex_at 1 4 (-4)) split_vertex]>
             (<[0 := split_old]> ∅))))
    4 ∅.


Example split_mesh_after_transfer :
  exists m',
    TransferVertices3 0 (mkArray3 1 2 3) (GetPosition split_vertex) split_mesh = Returns tt m'
    /\ map (fun t => map addr (mRemainingVertices t))
         (omap (fun h => triangles m' !! h) [0; 1; 2; 3])
       = [[]; [12; 13]; [11]; []].
Proof. eexists. split; vm_compute; reflexivity. Qed.

(** ** Boundary trim *)

Lemma pair_lt_false {A B} (ltA : A -> A -> bool) (ltB : B -> B -> bool) p q :
  pair_lt ltA ltB p q = false <->
  ltA (fst p) (fst q) = false /\ (ltA (fst q) (fst p) = true \/ ltB (snd p) (snd q) = false).
Proof.
  unfold pair_lt. rewrite orb_false_iff, andb_false_iff, negb_false_iff. reflexivity.
Qed.

Lemma pair_lt_Q_equivalent (a b : Q * Q) :
  pair_lt flt flt a b = false ->
  pair_lt flt flt b a = false ->
  (fst a == fst b /\ snd a == snd b)%Q.
Proof.
  rewrite !pair_lt_false, !flt_false, !flt_iff.
  intros [H1 H2] [H3 H4]. split; lra.
Qed.

Lemma edges_equivalent_positions (a b : AdvancedEdge) :
  edges_equivalent a b = true ->
  veq (GetPosition (edge0 a)) (GetPosition (edge0 b)) = true
  /\ veq (GetPosition (edge1 a)) (GetPosition (edge1 b)) = true.
Proof.
  unfold edges_equivalent, CompareEdges.
  rewrite andb_true_iff, !negb_true_iff.
  intros [H1 H2]. apply pair_lt_false in H1 as [H1 H1'], H2 as [H2 H2'].
  rewrite H2 in H1'. rewrite H1 in H2'.
  destruct H1' as [H1'|H1']; [discriminate|]. destruct H2' as [H2'|H2']; [discriminate|].
  destruct (pair_lt_Q_equivalent _ _ H1 H2) as [Ex Ey].
  destruct (pair_lt_Q_equivalent _ _ H1' H2') as [Ex' Ey'].
  rewrite !veq_iff. auto.
Qed.

(** The assertion of [IsEdgeConstrained] never fails. *)
Lemma IsEdgeConstrained_defined constrainedEdges startPoint endPoint :
  exists b, IsEdgeConstrained constrainedEdges startPoint endPoint = Some b.
Proof.
  unfold IsEdgeConstrained, EdgeSet_find.
  destruct (List.find _ _) as [candidate|] eqn:Hfind; [|eexists; reflexivity].
  apply List.find_some in Hfind as [_ Heq].
  apply edges_equivalent_positions in Heq as [-> ->]. eexists. reflexivity.
Qed.

Lemma HasUnusedAdjacent_link (t : AdvancedTriangle) i constrainedEdges b :
  HasUnusedAdjacent t i constrainedEdges = Some (Some b) <->
  GetAdjacentTriangle t i = Some b
  /\ IsEdgeConstrained constrainedEdges
       (corner t ((i + 1) mod 3)) (corner t ((i + 2) mod 3)) = Some false.
Proof.
  unfold HasUnusedAdjacent.
  destruct (IsEdgeConstrained _ _ _) as [[|]|]; split; try (intros [? ?]); try discriminate.
  - intros [= ->]. auto.
  - congruence.
Qed.

Lemma HasUnusedAdjacent_defined (t : AdvancedTriangle) i constrainedEdges :
  exists o, HasUnusedAdjacent t i constrainedEdges = Some o.
Proof.
  unfold HasUnusedAdjacent.
  destruct (IsEdgeConstrained_defined constrainedEdges
              (corner t ((i + 1) mod 3)) (corner t ((i + 2) mod 3))) as [[|] ->];
    eexists; reflexivity.
Qed.

Lemma push_unused_adjacents_spec t constrainedEdges indices : forall stack,
  exists stack',
    push_unused_adjacents t constrainedEdges indices stack = Some stack'
    /\ length stack' <= length indices + length stack
    /\ forall b, In b stack' <->
         In b stack
         \/ exists i, In i indices /\ HasUnusedAdjacent t i constrainedEdges = Some (Some b).
Proof.
  induction indices as [|i indices IH]; intros stack; cbn [push_unused_adjacents].
  - exists stack. split; [reflexivity|]. split; [cbn; lia|].
    intros b. split; [auto|]. intros [H|(i & [] & _)]. exact H.
  - destruct (HasUnusedAdjacent_defined t i constrainedEdges) as [[target|] Hi]; rewrite Hi.
    + destruct (IH (target :: stack)) as (stack' & -> & Hlen & Hin).
      exists stack'. split; [reflexivity|]. split; [cbn in *; lia|].
      intros b. rewrite Hin. cbn [In]. split.
      * intros [[<-|H]|(j & Hj & Hb)]; [right; exists i; auto | now left |].
        right. exists j. auto.
      * intros [H|(j & [<-|Hj] & Hb)]; [left; now right | |].
        -- left. left. congruence.
        -- right. exists j. auto.
    + destruct (IH stack) as (stack' & -> & Hlen & Hin).
      exists stack'. split; [reflexivity|]. split; [cbn in *; lia|].
      intros b. rewrite Hin. cbn [In]. split.
      * intros [H|(j & Hj & Hb)]; [now left|]. right. exists j. auto.
      * intros [H|(j & [<-|Hj] & Hb)]; [now left | congruence |].
        right. exists j. auto.
Qed.

Definition flagged (m : Mesh) (h : nat) : Prop :=
  exists t, triangles m !! h = Some t /\ IsFlagged t = true.

(** The mesh [m] is the mesh [m0] with some more triangles flagged. *)
Definition flags_only (m0 m : Mesh) : Prop :=
  nextIterator m = nextIterator m0 /\ surrounding m = surrounding m0
  /\ forall h,
       triangles m !! h = triangles m0 !! h
       \/ exists t0, triangles m0 !! h = Some t0
                     /\ triangles m !! h = Some (with_flag true t0).

Definition unflagged_count (m : Mesh) : nat :=
  size (filter (fun kt : nat * AdvancedTriangle => IsFlagged (snd kt) = false) (triangles m)).

Lemma flags_only_refl m : flags_only m m.
Proof. repeat split. intros h. now left. Qed.

Lemma unflagged_count_Flag m c t :
  triangles m !! c = Some t -> IsFlagged t = false ->
  S (unflagged_count
       (mkMesh (<[c := with_flag true t]> (triangles m)) (nextIterator m) (surrounding m)))
  = unflagged_count m.
Proof.
  intros Hc Ht. unfold unflagged_count. cbn [triangles].
  rewrite map_filter_insert_False by (cbn; discriminate).
  rewrite map_filter_delete.
  assert (Hin : filter (fun kt : nat * AdvancedTriangle => IsFlagged (snd kt) = false)
                  (triangles m) !! c = Some t).
  { apply map_lookup_filter_Some. split; [exact Hc | exact Ht]. }
  rewrite map_size_delete, Hin.
  assert (size (filter (fun kt : nat * AdvancedTriangle => IsFlagged (snd kt) = false)
                  (triangles m)) <> 0).
  { apply map_size_ne_0_lookup_2 with c. eexists. exact Hin. }
  cbn. set (n := size _) in *. clearbody n. destruct n; [congruence | reflexivity].
Qed.

Lemma unflagged_count_le m : unflagged_count m <= size (triangles m).
Proof.
  unfold unflagged_count. apply map_subseteq_size, map_filter_subseteq.
Qed.

Lemma RemoveOuterPolygonTrianglesImpl_flagged m current stack constrainedEdges t :
  triangles m !! current = Some t -> IsFlagged t = true ->
  RemoveOuterPolygonTrianglesImpl current stack constrainedEdges m = Returns (stack, None) m.
Proof.
  intros Hc Ht. unfold RemoveOuterPolygonTrianglesImpl.
  rewrite (bind_deref _ _ _ _ Hc), Ht. reflexivity.
Qed.

Lemma RemoveOuterPolygonTrianglesImpl_unflagged m current stack constrainedEdges t :
  triangles m !! current = Some t -> IsFlagged t = false ->
  exists stack',
    RemoveOuterPolygonTrianglesImpl current stack constrainedEdges m
    = Returns (stack', Some current)
        (mkMesh (<[current := with_flag true t]> (triangles m))
           (nextIterator m) (surrounding m))
    /\ length stack' <= 3 + length stack
    /\ forall b, In b stack' <->
         In b stack
         \/ exists i, i < 3 /\ HasUnusedAdjacent t i constrainedEdges = Some (Some b).
Proof.
  intros Hc Ht. unfold RemoveOuterPolygonTrianglesImpl.
  rewrite (bind_deref _ _ _ _ Hc), Ht.
  destruct (push_unused_adjacents_spec t constrainedEdges [0; 1; 2] stack)
    as (stack' & Hpush & Hlen & Hin).
  exists stack'. split; [|split; [exact Hlen|]].
  - unfold bind, Flag, update. rewrite Hc, Hpush. reflexivity.
  - intros b. rewrite Hin. split; (intros [H|(i & Hi & Hb)]; [now left|]); right; exists i;
      (split; [|exact Hb]).
    + cbn in Hi. lia.
    + cbn. lia.
Qed.

Section FloodFill.
Variable m0 : Mesh.
Variable constrainedEdges : EdgeSet.
Variable start : nat.
Hypothesis Hclosed : adjacency_closed m0.
Hypothesis Hnoflags : no_flags m0.
Hypothesis Hstart : is_Some (triangles m0 !! start).

Lemma reachable_present h :
  reachable m0 constrainedEdges start h -> is_Some (triangles m0 !! h).
Proof using Hclosed Hstart.
  induction 1 as [|a b _ _ (t & i & Ha & Hi & Hadj & _)]; [exact Hstart|].
  eapply Hclosed; eauto.
Qed.

Lemma flagged_flags_only m h :
  flags_only m0 m ->
  flagged m h <->
  exists t0, triangles m0 !! h = Some t0 /\ triangles m !! h = Some (with_flag true t0).
Proof using Hnoflags.
  intros (_ & _ & Hm). split.
  - intros (t & Ht & Hf). destruct (Hm h) as [E|(t0 & H0 & H1)].
    + rewrite E in Ht. apply Hnoflags in Ht. congruence.
    + exists t0. auto.
  - intros (t0 & _ & H1). exists (with_flag true t0). auto.
Qed.

Lemma link_of_adjacent a t0 i b :
  triangles m0 !! a = Some t0 -> i < 3 ->
  HasUnusedAdjacent t0 i constrainedEdges = Some (Some b) ->
  unconstrained_link m0 constrainedEdges a b.
Proof.
  intros Ha Hi Hb. apply HasUnusedAdjacent_link in Hb as [Hadj Hc].
  exists t0, i. auto.
Qed.

Lemma flood_done (fuel : nat) (m : Mesh) :
  flags_only m0 m ->
  (forall h, flagged m h -> reachable m0 constrainedEdges start h) ->
  (forall a b, flagged m a -> unconstrained_link m0 constrainedEdges a b ->
     flagged m b \/ In b []) ->
  exists (log : list nat) (m' : Mesh),
    RemoveOuterPolygonTriangles_loop fuel [] constrainedEdges m = Returns log m'
    /\ flags_only m0 m'
    /\ NoDup log
    /\ (forall h, In h log -> ~ flagged m h)
    /\ (forall h, flagged m' h <-> flagged m h \/ In h log)
    /\ (forall h, In h [] -> flagged m' h)
    /\ (forall a b, flagged m' a -> unconstrained_link m0 constrainedEdges a b -> flagged m' b)
    /\ (forall h, flagged m' h -> reachable m0 constrainedEdges start h).
Proof.
  intros Hm Hvisited Hfront. exists [], m.
  split; [destruct fuel; reflexivity|]. split; [exact Hm|]. split; [constructor|].
  split; [intros h []|]. split; [intros h; split; [auto | intros [H|[]]; exact H]|].
  split; [intros h []|]. split; [|exact Hvisited].
  intros a b Ha Hab. destruct (Hfront a b Ha Hab) as [H|[]]. exact H.
Qed.

Lemma flood_loop (fuel : nat) : forall (stack : list nat) (m : Mesh),
  flags_only m0 m ->
  (forall h, In h stack -> reachable m0 constrainedEdges start h) ->
  (forall h, flagged m h -> reachable m0 constrainedEdges start h) ->
  (forall a b, flagged m a -> unconstrained_link m0 constrainedEdges a b ->
     flagged m b \/ In b stack) ->
  length stack + 3 * unflagged_count m <= fuel ->
  exists (log : list nat) (m' : Mesh),
    RemoveOuterPolygonTriangles_loop fuel stack constrainedEdges m = Returns log m'
    /\ flags_only m0 m'
    /\ NoDup log
    /\ (forall h, In h log -> ~ flagged m h)
    /\ (forall h, flagged m' h <-> flagged m h \/ In h log)
    /\ (forall h, In h stack -> flagged m' h)
    /\ (forall a b, flagged m' a -> unconstrained_link m0 constrainedEdges a b -> flagged m' b)
    /\ (forall h, flagged m' h -> reachable m0 constrainedEdges start h).
Proof using Hclosed Hnoflags Hstart.
  induction fuel as [|fuel IH]; intros stack m Hm Hstack Hvisited Hfront Hfuel.
  - destruct stack as [|c stack]; [|cbn in Hfuel; lia].
    apply flood_done; assumption.
  - destruct stack as [|c stack]; [apply flood_done; assumption|].
    cbn [RemoveOuterPolygonTriangles_loop].
    assert (Hc : reachable m0 constrainedEdges start c) by (apply Hstack; now left).
    destruct (reachable_present c Hc) as [t0 Ht0].
    destruct Hm as (Hnext & Hsur & Hm).
    destruct (Hm c) as [E|(t0' & H0 & H1)].
    + (* the triangle is not flagged yet *)
      rewrite Ht0 in E.
      destruct (RemoveOuterPolygonTrianglesImpl_unflagged m c stack constrainedEdges t0 E
                  (Hnoflags c t0 Ht0)) as (stack' & Himpl & Hlen & Hin).
      set (m1 := mkMesh (<[c := with_flag true t0]> (triangles m)) (nextIterator m)
                   (surrounding m)) in *.
      assert (Hm1 : flags_only m0 m1).
      { repeat split; [exact Hnext | exact Hsur |]. intros h. subst m1. cbn [triangles].
        destruct (decide (h = c)) as [->|Hne].
        - right. exists t0. rewrite lookup_insert_eq. auto.
        - rewrite lookup_insert_ne by congruence. apply Hm. }
      assert (Hfl1 : forall h, flagged m1 h <-> flagged m h \/ h = c).
      { intros h. unfold flagged. subst m1. cbn [triangles].
        destruct (decide (h = c)) as [->|Hne].
        - rewrite lookup_insert_eq. split; [auto|]. intros _. eexists. split; reflexivity.
        - rewrite lookup_insert_ne by congruence. split; [auto|]. intros [H|H]; [exact H|congruence]. }
      destruct (IH stack' m1 Hm1) as (log & m' & Hrun & Hm' & Hnd & Hlog & Hiff & Hst & Hcl & Hre).
      * intros h Hh. apply Hin in Hh as [Hh|(i & Hi & Hb)]; [apply Hstack; now right|].
        eapply reachable_link; [exact Hc|]. eapply link_of_adjacent; eauto.
      * intros h Hh. apply Hfl1 in Hh as [Hh| ->]; [apply Hvisited, Hh | exact Hc].
      * intros a b Ha Hab. apply Hfl1 in Ha as [Ha| ->].
        -- destruct (Hfront a b Ha Hab) as [Hb|[<-|Hb]].
           ++ left. apply Hfl1. now left.
           ++ left. apply Hfl1. now right.
           ++ right. apply Hin. now left.
        -- right. apply Hin. right.
           destruct Hab as (t & i & Ht & Hi & Hadj & Hcon).
           rewrite Ht0 in Ht. injection Ht as <-.
           exists i. split; [exact Hi|]. apply HasUnusedAdjacent_link. auto.
      * pose proof (unflagged_count_Flag m c t0 E (Hnoflags c t0 Ht0)) as Hcount.
        fold m1 in Hcount. cbn [length] in Hfuel. lia.
      * exists (c :: log), m'. split.
        { unfold bind. rewrite Himpl. cbn [fst snd]. rewrite Hrun. reflexivity. }
        split; [exact Hm'|]. split.
        { constructor; [|exact Hnd]. intros Hcl'. apply list_elem_of_In in Hcl'.
          apply (Hlog c Hcl'). apply Hfl1. now right. }
        split.
        { intros h [<-|Hh].
          - intros (t & Ht & Hf). rewrite E in Ht. injection Ht as <-.
            rewrite (Hnoflags _ _ Ht0) in Hf. discriminate.
          - intros Hf. apply (Hlog h Hh). apply Hfl1. now left. }
        split.
        { intros h. rewrite Hiff, Hfl1. cbn [In]. split.
          - intros [[H|H]|H]; auto.
          - intros [H|[H|H]]; auto. }
        split.
        { intros h [<-|Hh].
          - apply Hiff. left. apply Hfl1. now right.
          - apply Hst. apply Hin. now left. }
        split; [exact Hcl | exact Hre].
    + (* the triangle has been passed already *)
      rewrite Ht0 in H0. injection H0 as <-.
      assert (Hcf : flagged m c) by (eexists; split; [exact H1 | reflexivity]).
      destruct (IH stack m (conj Hnext (conj Hsur Hm)))
        as (log & m' & Hrun & Hm' & Hnd & Hlog & Hiff & Hst & Hcl & Hre).
      * intros h Hh. apply Hstack. now right.
      * exact Hvisited.
      * intros a b Ha Hab. destruct (Hfront a b Ha Hab) as [Hb|[<-|Hb]]; auto.
      * cbn [length] in Hfuel. lia.
      * exists log, m'. split.
        { unfold bind.
          rewrite (RemoveOuterPolygonTrianglesImpl_flagged m c stack constrainedEdges _ H1 eq_refl).
          cbn [fst snd]. rewrite Hrun. reflexivity. }
        split; [exact Hm'|]. split; [exact Hnd|]. split; [exact Hlog|].
        split; [exact Hiff|]. split; [|split; [exact Hcl | exact Hre]].
        intros h [<-|Hh]; [apply Hiff; now left | apply Hst, Hh].
Qed.

End FloodFill.


(** The kite with its shared edge constrained: the trim started at the first
    triangle stops at the edge. *)
Definition kite_constraint : EdgeSet :=
  [newAdvancedEdge (Vertex_at 10 0 1) (Vertex_at 11 0 (-1))].

Lemma adjacency_closed_kite : adjacency_closed kite.
Proof.
  intros h t i b Ht Hi Hadj. unfold kite in *. cbn [triangles] in *.
  apply lookup_insert_Some in Ht as [[<- <-]|[? Ht]];
    [|apply lookup_insert_Some in Ht as [[<- <-]|[? Ht]];
      [|rewrite lookup_empty in Ht; discriminate]];
    destruct i as [|[|[|i]]]; try lia; cbn in Hadj; try discriminate;
    injection Hadj as <-; eexists; vm_compute; reflexivity.
Defined.

Lemma no_flags_kite : no_flags kite.
Proof.
  intros h t Ht. unfold kite in *. cbn [triangles] in *.
  apply lookup_insert_Some in Ht as [[<- <-]|[? Ht]]; [reflexivity|].
  apply lookup_insert_Some in Ht as [[<- <-]|[? Ht]]; [reflexivity|].
  rewrite lookup_empty in Ht. discriminate.
Defined.


Example kite_trim_stops_at_constraint :
  exists m', RemoveOuterPolygonTriangles 7 0 kite_constraint kite = Returns [0] m'
             /\ triangles m' !! 0 = None /\ triangles m' !! 1 = Some kite_second.
Proof. eexists. repeat split; vm_compute; reflexivity. Qed.

Example kite_trim_without_constraint :
  exists m', RemoveOuterPolygonTriangles 7 0 [] kite = Returns [0; 1] m'
             /\ triangles m' = ∅.
Proof. eexists. split; vm_compute; reflexivity. Qed.

(** C3 as stated fails on a list that holds a flagged triangle: the second
    triangle is not reachable from the first, which has no adjacent, and is
    erased all the same. *)
Definition lone_first : AdvancedTriangle :=
  newAdvancedTriangle (Vertex_at 10 0 1) (Vertex_at 11 0 (-1)) (Vertex_at 12 (-1) 0).

Definition lone_flagged : AdvancedTriangle :=
  with_flag true
    (newAdvancedTriangle (Vertex_at 20 5 1) (Vertex_at 21 5 (-1)) (Vertex_at 22 4 0)).

Definition lone_mesh : Mesh :=
  mkMesh (<[1 := lone_flagged]> (<[0 := lone_first]> ∅)) 2 ∅.


(** ** Adjacency symmetry *)

(** Every handle in an adjacency slot was issued before. *)
Definition handles_issued (m : Mesh) : Prop :=
  forall h i b, i < 3 -> slot m h i = Some (Some b) -> b < nextIterator m.

(** The invariant of the mesh operations: the handles in use were issued by
    the list, which never issues a handle twice, and the adjacency is
    symmetric. *)
Definition mesh_ok (m : Mesh) : Prop :=
  handles_fresh m /\ handles_issued m /\ adjacency_symmetric m.

(** ** Adjacency symmetry: what the commands do to the slots *)

(** Symmetry up to the triangles in [X], which are about to go, and the
    links in [D], whose way back is still to be written. *)
Definition symmetric_except (X : list nat) (D : list (nat * nat)) (m : Mesh) : Prop :=
  forall a b, live m a -> live m b -> a ∉ X -> b ∉ X -> links m a b ->
              links m b a \/ (a, b) ∈ D.

(** [m'] is [m] with the slot [i] of [h] set to [v]. *)
Definition writes (m : Mesh) (h i : nat) (v : option nat) (m' : Mesh) : Prop :=
  nextIterator m' = nextIterator m
  /\ (forall h', live m' h' <-> live m h')
  /\ slot m h i <> None
  /\ forall h' i', i' < 3 ->
       slot m' h' i' = if decide (h' = h /\ i' = i) then Some v else slot m h' i'.

(** Both meshes have the same slots and flags. *)
Definition same_adjacency (m m' : Mesh) : Prop :=
  nextIterator m' = nextIterator m
  /\ (forall h', live m' h' <-> live m h')
  /\ forall h' i', i' < 3 -> slot m' h' i' = slot m h' i'.

Lemma same_adjacency_refl m : same_adjacency m m.
Proof. repeat split; auto. Qed.

Lemma same_adjacency_trans m1 m2 m3 :
  same_adjacency m1 m2 -> same_adjacency m2 m3 -> same_adjacency m1 m3.
Proof.
  intros (N1 & L1 & S1) (N2 & L2 & S2). split; [congruence|]. split.
  - intros h. rewrite L2. apply L1.
  - intros h i Hi. rewrite S2 by exact Hi. apply S1, Hi.
Qed.

Lemma present_slot m h i : is_Some (triangles m !! h) <-> slot m h i <> None.
Proof.
  unfold slot. destruct (triangles m !! h); cbn; split; try congruence; eauto.
  intros [? ?]. discriminate.
Qed.

Lemma handles_fresh_slot m :
  handles_fresh m <-> forall h, slot m h 0 <> None -> h < nextIterator m.
Proof.
  split.
  - intros Hf h Hs. apply present_slot in Hs as [t Ht]. eapply Hf, Ht.
  - intros Hs h t Ht. apply Hs. apply present_slot. eauto.
Qed.

Lemma get3_set3_eq {A} (a : array3 A) i (x : A) : get3 (set3 a i x) i = x.
Proof. destruct i as [|[|i]]; reflexivity. Qed.

Lemma update_inv itr f m m' :
  update itr f m = Returns tt m' ->
  exists t, triangles m !! itr = Some t
            /\ m' = mkMesh (<[itr := f t]> (triangles m)) (nextIterator m) (surrounding m).
Proof.
  unfold update. destruct (triangles m !! itr) as [t|]; [|discriminate].
  intros [= <-]. eauto.
Qed.

Lemma SetAdjacentTriangle_writes h i v m m' :
  i < 3 -> SetAdjacentTriangle h i v m = Returns tt m' -> writes m h i v m'.
Proof.
  intros Hi H. apply update_inv in H as (t & Ht & ->).
  split; [reflexivity|]. split; [|split].
  - intros h'. unfold live. cbn [triangles].
    destruct (decide (h' = h)) as [->|Hne].
    + rewrite lookup_insert_eq, Ht. split; intros (t' & [= <-] & Hf); eexists; split; eauto.
    + rewrite lookup_insert_ne by congruence. reflexivity.
  - unfold slot. rewrite Ht. discriminate.
  - intros h' i' Hi'. unfold slot. cbn [triangles].
    destruct (decide (h' = h)) as [->|Hne].
    + rewrite lookup_insert_eq, Ht. cbn. unfold GetAdjacentTriangle, with_adjacent. cbn.
      destruct (decide (i' = i)) as [->|Hi''].
      * rewrite decide_True by auto. rewrite get3_set3_eq. reflexivity.
      * rewrite decide_False by tauto. rewrite get3_set3 by assumption.
        destruct (Nat.eqb_spec i i'); [congruence | reflexivity].
    + rewrite decide_False by tauto. rewrite lookup_insert_ne by congruence. reflexivity.
Qed.

Lemma update_same_adjacency itr f m m' :
  (forall t, mAdjacentTriangles (f t) = mAdjacentTriangles t) ->
  (forall t, mFlagged (f t) = mFlagged t) ->
  update itr f m = Returns tt m' -> same_adjacency m m'.
Proof.
  intros Hadj Hflag H. apply update_inv in H as (t & Ht & ->).
  split; [reflexivity|]. split.
  - intros h'. unfold live, IsFlagged. cbn [triangles].
    destruct (decide (h' = itr)) as [->|Hne].
    + rewrite lookup_insert_eq, Ht. split.
      * intros (t' & [= <-] & Hf). exists t. split; [reflexivity|].
        rewrite <- Hflag. exact Hf.
      * intros (t' & [= <-] & Hf). eexists. split; [reflexivity|].
        rewrite Hflag. exact Hf.
    + rewrite lookup_insert_ne by congruence. reflexivity.
  - intros h' i' _. unfold slot, GetAdjacentTriangle. cbn [triangles].
    destruct (decide (h' = itr)) as [->|Hne].
    + rewrite lookup_insert_eq, Ht. cbn. rewrite Hadj. reflexivity.
    + rewrite lookup_insert_ne by congruence. reflexivity.
Qed.

(** A command that leaves slots and flags as they are, whenever it returns. *)
Definition neutral {A} (c : Cmd A) : Prop :=
  forall m a m', c m = Returns a m' -> same_adjacency m m'.

Lemma bind_inv {A B} (c : Cmd A) (k : A -> Cmd B) m b m' :
  bind c k m = Returns b m' ->
  exists a m1, c m = Returns a m1 /\ k a m1 = Returns b m'.
Proof.
  unfold bind. destruct (c m) as [a m1|]; [|discriminate]. eauto.
Qed.

Lemma neutral_ret {A} (a : A) : neutral (ret a).
Proof. intros m a' m' [= <- <-]. apply same_adjacency_refl. Qed.

Lemma neutral_stop {A} e : neutral (@stop A e).
Proof. intros m a m' H. discriminate. Qed.

Lemma neutral_bind {A B} (c : Cmd A) (k : A -> Cmd B) :
  neutral c -> (forall a, neutral (k a)) -> neutral (bind c k).
Proof.
  intros Hc Hk m b m' H. apply bind_inv in H as (a & m1 & H1 & H2).
  eapply same_adjacency_trans; [eapply Hc, H1 | eapply Hk, H2].
Qed.

Lemma neutral_assert b : neutral (assert b).
Proof. destruct b; [apply neutral_ret | apply neutral_stop]. Qed.

Lemma neutral_asserted o : neutral (asserted o).
Proof. destruct o; [apply neutral_ret | apply neutral_stop]. Qed.

Lemma neutral_deref itr : neutral (deref itr).
Proof.
  intros m a m'. unfold deref. destruct (_ !! _); [|discriminate].
  intros [= <- <-]. apply same_adjacency_refl.
Qed.

Lemma neutral_with_remaining itr g :
  neutral (update itr (fun t => with_remaining (g t) t)).
Proof.
  intros m [] m' H. eapply update_same_adjacency; [| |exact H]; reflexivity.
Qed.

Lemma neutral_SetSurroundingTriangle v target : neutral (SetSurroundingTriangle v target).
Proof. intros m a m' [= <- <-]. repeat split; auto. Qed.

Lemma neutral_foreach {A} (l : list A) body :
  (forall a, neutral (body a)) -> neutral (foreach l body).
Proof.
  intros Hb. induction l as [|a l IH]; cbn.
  - apply neutral_ret.
  - apply neutral_bind; [apply Hb | intros _; exact IH].
Qed.

Create HintDb neutral.
#[local] Hint Resolve neutral_ret neutral_stop neutral_assert neutral_asserted
  neutral_deref neutral_SetSurroundingTriangle : neutral.

Ltac neutrality :=
  repeat first
    [ solve [auto with neutral]
    | apply neutral_bind; [|intros ?]
    | apply neutral_foreach; intros ?
    | match goal with
      | |- neutral (if ?b then _ else _) => destruct b
      | |- neutral (match ?x with _ => _ end) => destruct x
      | |- neutral (let '(_, _) := ?x in _) => destruct x
      end ].

Lemma neutral_AddVertex itr v : neutral (AddVertex itr v).
Proof. apply (neutral_with_remaining itr (fun t => set_insert v (mRemainingVertices t))). Qed.

Lemma neutral_RemoveVertexItr itr v : neutral (RemoveVertexItr itr v).
Proof.
  unfold RemoveVertexItr. neutrality.
  apply (neutral_with_remaining itr (fun _ => set_erase_itr v (mRemainingVertices a))).
Qed.

Lemma neutral_RemoveVertex itr v : neutral (RemoveVertex itr v).
Proof.
  unfold RemoveVertex. neutrality.
  apply (neutral_with_remaining itr (fun _ => l)).
Qed.

#[local] Hint Resolve neutral_AddVertex neutral_RemoveVertexItr neutral_RemoveVertex : neutral.

Lemma neutral_TransferVertex source v dest : neutral (TransferVertex source v dest).
Proof. unfold TransferVertex. neutrality. Qed.

#[local] Hint Resolve neutral_TransferVertex : neutral.

Lemma neutral_TransferVertices2 oldFirst oldSecond newFirst newSecond dc :
  neutral (TransferVertices2 oldFirst oldSecond newFirst newSecond dc).
Proof. unfold TransferVertices2, TransferVertices2Impl. neutrality. Qed.

Lemma neutral_TransferVertices3 oldItr newT v : neutral (TransferVertices3 oldItr newT v).
Proof. unfold TransferVertices3, TransferVertices3_body. neutrality. Qed.

(** ** Adjacency symmetry: the steps *)

Definition handles_ok (m : Mesh) : Prop := handles_fresh m /\ handles_issued m.

Lemma same_adjacency_handles_ok m m' :
  same_adjacency m m' -> handles_ok m -> handles_ok m'.
Proof.
  intros (Hn & _ & Hs) [Hf Hi]. split.
  - apply handles_fresh_slot. intros h Hh. rewrite Hs in Hh by lia. rewrite Hn.
    apply (proj1 (handles_fresh_slot m) Hf), Hh.
  - intros h i b Hi' Hb. rewrite Hs in Hb by exact Hi'. rewrite Hn. eapply Hi; eauto.
Qed.

Lemma same_adjacency_links m m' a b :
  same_adjacency m m' -> links m' a b <-> links m a b.
Proof.
  intros (_ & _ & Hs). unfold links.
  split; intros (i & Hi & Hb); exists i; (split; [exact Hi|]).
  - rewrite <- Hs by exact Hi. exact Hb.
  - rewrite Hs by exact Hi. exact Hb.
Qed.

Lemma same_adjacency_symmetric_except X D m m' :
  same_adjacency m m' -> symmetric_except X D m -> symmetric_except X D m'.
Proof.
  intros Hsame Hsym a b La Lb Xa Xb Hab.
  pose proof Hsame as (_ & Hl & _).
  rewrite (same_adjacency_links m m') in * by exact Hsame.
  apply Hsym; try assumption; apply Hl; assumption.
Qed.

Lemma writes_handles_ok m h i v m' :
  i < 3 -> writes m h i v m' ->
  (forall b, v = Some b -> b < nextIterator m) ->
  handles_ok m -> handles_ok m'.
Proof.
  intros Hi (Hn & _ & Hp & Hs) Hv [Hf Hiss]. split.
  - apply handles_fresh_slot. intros h' Hh'. rewrite Hn.
    pose proof (proj1 (handles_fresh_slot m) Hf) as Hf'. rewrite Hs in Hh' by lia.
    destruct (decide (h' = h /\ 0 = i)) as [[-> <-]|_]; apply Hf'; assumption.
  - intros h' i' b Hi' Hb. rewrite Hn. rewrite Hs in Hb by exact Hi'.
    destruct (decide (h' = h /\ i' = i)) as [_|_].
    + injection Hb as Hb. apply Hv, Hb.
    + eapply Hiss; eauto.
Qed.

Lemma writes_elsewhere m h i v m' h' i' :
  writes m h i v m' -> i' < 3 -> ~ (h' = h /\ i' = i) -> slot m' h' i' = slot m h' i'.
Proof.
  intros (_ & _ & _ & Hs) Hi' Hne. rewrite Hs by exact Hi'. apply decide_False, Hne.
Qed.

Lemma writes_there m h i v m' :
  writes m h i v m' -> i < 3 -> slot m' h i = Some v.
Proof.
  intros (_ & _ & _ & Hs) Hi. rewrite Hs by exact Hi. apply decide_True. auto.
Qed.

(** Writing nothing into an empty slot changes nothing. *)
Lemma writes_None_same m h i m' :
  i < 3 -> writes m h i None m' -> slot m h i = Some None -> same_adjacency m m'.
Proof.
  intros Hi (Hn & Hl & _ & Hs) Hnone. split; [exact Hn|]. split; [exact Hl|].
  intros h' i' Hi'. rewrite Hs by exact Hi'.
  destruct (decide (h' = h /\ i' = i)) as [[-> ->]|_]; [symmetry; exact Hnone | reflexivity].
Qed.

(** A link written into an empty slot of a triangle that is exempt, or whose
    way back is pending or there already. *)
Lemma writes_pending X D m h i b m' :
  i < 3 -> writes m h i (Some b) m' -> slot m h i = Some None ->
  (h ∈ X \/ (h, b) ∈ D \/ links m b h) ->
  symmetric_except X D m -> symmetric_except X D m'.
Proof.
  intros Hi Hw Hnone Hwhy Hsym a b' La Lb Xa Xb (i' & Hi' & Hab).
  pose proof Hw as (_ & Hl & _ & Hs).
  assert (Hkeep : forall x y, links m x y -> links m' x y).
  { intros x y (j & Hj & Hxy). exists j. split; [exact Hj|].
    rewrite (writes_elsewhere _ _ _ _ _ x j Hw Hj); [exact Hxy|].
    intros [-> ->]. congruence. }
  rewrite Hs in Hab by exact Hi'.
  destruct (decide (a = h /\ i' = i)) as [[-> ->]|Hne].
  - injection Hab as <-. destruct Hwhy as [Hx|[Hd|Hback]];
      [contradiction | now right | left; apply Hkeep, Hback].
  - destruct (Hsym a b') as [Hback|Hd]; try (apply Hl; assumption); try assumption.
    + exists i'. auto.
    + left. apply Hkeep, Hback.
    + now right.
Qed.

(** A slot of [new] is set to [o], and the slot of [o] that referred to
    [old], a triangle that is about to go, now refers to [new]. *)
Lemma writes_relink X D m new idx o m1 j0 old m' :
  idx < 3 -> j0 < 3 ->
  writes m new idx (Some o) m1 -> slot m new idx = Some None ->
  slot m1 o j0 = Some (Some old) ->
  writes m1 o j0 (Some new) m' ->
  old ∈ X ->
  symmetric_except X D m -> symmetric_except X D m'.
Proof.
  intros Hidx Hj0 Hw1 Hnone Hold Hw2 HX Hsym a b La Lb Xa Xb (i & Hi & Hab).
  pose proof Hw1 as (_ & Hl1 & _ & Hs1). pose proof Hw2 as (_ & Hl2 & _ & Hs2).
  assert (Hkeep : forall x y, x ∉ X -> links m y x -> links m' y x).
  { intros x y Hx (j & Hj & Hyx). exists j. split; [exact Hj|].
    rewrite Hs2 by exact Hj. destruct (decide (y = o /\ j = j0)) as [[-> ->]|Hne2].
    - exfalso. rewrite Hs1 in Hold by exact Hj0.
      destruct (decide (o = new /\ j0 = idx)) as [[-> ->]|Hne1]; [congruence|].
      rewrite Hyx in Hold. injection Hold as ->. contradiction.
    - rewrite Hs1 by exact Hj. destruct (decide (y = new /\ j = idx)) as [[-> ->]|Hne1];
        [congruence | exact Hyx]. }
  rewrite Hs2 in Hab by exact Hi.
  destruct (decide (a = o /\ i = j0)) as [[-> ->]|Hne2].
  - (* the slot of [o] that now refers to [new] *)
    injection Hab as <-. left. exists idx. split; [exact Hidx|].
    rewrite Hs2 by exact Hidx. destruct (decide (new = o /\ idx = j0)) as [[-> ->]|Hne];
      [reflexivity|].
    apply (writes_there _ _ _ _ _ Hw1 Hidx).
  - rewrite Hs1 in Hab by exact Hi.
    destruct (decide (a = new /\ i = idx)) as [[-> ->]|Hne1].
    + (* the slot of [new] that now refers to [o] *)
      injection Hab as <-. left. exists j0. split; [exact Hj0|].
      apply (writes_there _ _ _ _ _ Hw2 Hj0).
    + destruct (Hsym a b) as [Hback|Hd]; try assumption.
      * apply Hl1, Hl2, La.
      * apply Hl1, Hl2, Lb.
      * exists i. auto.
      * left. apply Hkeep; assumption.
      * now right.
Qed.

Lemma symmetric_except_done X D m :
  (forall x, x ∈ X -> ~ live m x) ->
  (forall a b, (a, b) ∈ D -> links m b a) ->
  symmetric_except X D m -> adjacency_symmetric m.
Proof.
  intros HX HD Hsym a b La Lb Hab.
  destruct (Hsym a b) as [H|H]; try assumption.
  - intros Hx. exact (HX a Hx La).
  - intros Hx. exact (HX b Hx Lb).
  - apply HD, H.
Qed.

Lemma symmetric_except_start X D m :
  adjacency_symmetric m -> symmetric_except X D m.
Proof. intros Hsym a b La Lb _ _ Hab. left. apply Hsym; assumption. Qed.

Lemma slot_beyond m h i : slot m h i = slot m h (Nat.min i 2).
Proof.
  unfold slot, GetAdjacentTriangle. destruct (triangles m !! h); [|reflexivity].
  cbn. destruct i as [|[|[|i]]]; reflexivity.
Qed.

Lemma handles_issued_any m h i b :
  handles_issued m -> slot m h i = Some (Some b) -> b < nextIterator m.
Proof. intros Hi Hb. rewrite slot_beyond in Hb. eapply Hi; [|exact Hb]. lia. Qed.

Lemma deref_inv itr m t m' :
  deref itr m = Returns t m' -> m' = m /\ triangles m !! itr = Some t.
Proof.
  unfold deref. destruct (triangles m !! itr); [|discriminate]. intros [= <- <-]. auto.
Qed.

Lemma slot_of_triangle m h t i :
  triangles m !! h = Some t -> slot m h i = Some (GetAdjacentTriangle t i).
Proof. unfold slot. now intros ->. Qed.

Lemma find_back_reference_Some other oldTriangle j :
  find_back_reference other oldTriangle = Some j ->
  j < 3 /\ GetAdjacentTriangle other j = Some oldTriangle.
Proof.
  unfold find_back_reference. intros H. apply List.find_some in H as [Hin Hj].
  split.
  - cbn in Hin. lia.
  - destruct (GetAdjacentTriangle other j); [|discriminate].
    apply Nat.eqb_eq in Hj. congruence.
Qed.

Lemma UpdateAdjacentBackReferences_inv old new other m m' :
  UpdateAdjacentBackReferences old new other m = Returns tt m' ->
  match other with
  | None => m' = m
  | Some o => exists j0, j0 < 3 /\ slot m o j0 = Some (Some old) /\ writes m o j0 new m'
  end.
Proof.
  unfold UpdateAdjacentBackReferences. destruct other as [o|]; [|intros [= <-]; reflexivity].
  intros H. apply bind_inv in H as (t & m1 & Hd & H).
  apply deref_inv in Hd as [-> Ht].
  destruct (find_back_reference t old) as [j0|] eqn:Hfind; [|discriminate].
  apply find_back_reference_Some in Hfind as [Hj0 Hback].
  exists j0. split; [exact Hj0|]. split.
  - rewrite (slot_of_triangle _ _ _ _ Ht), Hback. reflexivity.
  - apply SetAdjacentTriangle_writes; assumption.
Qed.

(** What every step of the surgery maintains. *)
Definition surgery (X : list nat) (D : list (nat * nat)) (m : Mesh) : Prop :=
  handles_ok m /\ symmetric_except X D m.

(** The meshes agree on the flags and on the next handle, and on every slot
    that is not listed in [W] and does not refer to [old]. *)
Definition touches (W : list (nat * nat)) (old : nat) (m m' : Mesh) : Prop :=
  nextIterator m' = nextIterator m
  /\ (forall h, live m' h <-> live m h)
  /\ forall h i v, i < 3 -> (h, i) ∉ W -> v <> Some old ->
       slot m h i = Some v -> slot m' h i = Some v.

Lemma touches_trans W old m1 m2 m3 :
  touches W old m1 m2 -> touches W old m2 m3 -> touches W old m1 m3.
Proof.
  intros (N1 & L1 & S1) (N2 & L2 & S2). split; [congruence|]. split.
  - intros h. rewrite L2. apply L1.
  - intros h i v Hi HW Hv Hs. apply S2; auto.
Qed.

Lemma touches_weaken W W' old m m' :
  (forall x, x ∈ W -> x ∈ W') -> touches W old m m' -> touches W' old m m'.
Proof.
  intros Hsub (N & L & S). split; [exact N|]. split; [exact L|].
  intros h i v Hi HW. apply S; auto.
Qed.

Lemma same_adjacency_touches W old m m' : same_adjacency m m' -> touches W old m m'.
Proof.
  intros (N & L & S). split; [exact N|]. split; [exact L|].
  intros h i v Hi _ _ Hs. rewrite S by exact Hi. exact Hs.
Qed.

Lemma writes_touches m h i v m' old :
  writes m h i v m' -> touches [(h, i)] old m m'.
Proof.
  intros Hw. pose proof Hw as (N & L & _ & S). split; [exact N|]. split; [exact L|].
  intros h' i' v' Hi' HW _ Hs.
  rewrite (writes_elsewhere _ _ _ _ _ h' i' Hw Hi'); [exact Hs|].
  intros [-> ->]. apply HW. left.
Qed.

(** A slot of [new] is linked to what a slot of the old triangle referred
    to, and the reference back to the old triangle is redirected. *)
Lemma link_external_step X D old new idx other m m' :
  idx < 3 ->
  (SetAdjacentTriangle new idx other ;;;
   UpdateAdjacentBackReferences old (Some new) other) m = Returns tt m' ->
  old ∈ X ->
  slot m new idx = Some None ->
  (forall o, other = Some o -> o < nextIterator m) ->
  surgery X D m ->
  surgery X D m' /\ touches [(new, idx)] old m m' /\ slot m' new idx = Some other.
Proof.
  intros Hidx H HX Hnone Hother [Hok Hsym].
  apply bind_inv in H as ([] & m1 & H1 & H2).
  apply (SetAdjacentTriangle_writes _ _ _ _ _ Hidx) in H1.
  apply UpdateAdjacentBackReferences_inv in H2.
  assert (Hnew : new < nextIterator m).
  { destruct Hok as [Hf _]. apply (proj1 (handles_fresh_slot m) Hf).
    rewrite <- present_slot. apply (present_slot m new idx). congruence. }
  destruct other as [o|].
  - destruct H2 as (j0 & Hj0 & Hback & H2).
    split; [split|split].
    + eapply (writes_handles_ok m1); [exact Hj0 | exact H2 | |].
      * intros b [= <-]. destruct H1 as (-> & _). exact Hnew.
      * eapply (writes_handles_ok m); [exact Hidx | exact H1 | | exact Hok].
        intros b Hb. apply Hother, Hb.
    + exact (writes_relink X D m new idx o m1 j0 old m' Hidx Hj0 H1 Hnone Hback H2 HX Hsym).
    + destruct H1 as (N1 & L1 & _ & S1). destruct H2 as (N2 & L2 & _ & S2).
      split; [congruence|]. split; [intros h; rewrite L2; apply L1|].
      intros h i v Hi HW Hv Hs.
      assert (Hne : ~ (h = new /\ i = idx)) by (intros [-> ->]; apply HW; left).
      assert (Hs1 : slot m1 h i = Some v).
      { rewrite S1 by exact Hi. rewrite decide_False by exact Hne. exact Hs. }
      rewrite S2 by exact Hi.
      destruct (decide (h = o /\ i = j0)) as [[-> ->]|_]; [|exact Hs1].
      rewrite Hback in Hs1. congruence.
    + rewrite (proj2 (proj2 (proj2 H2))) by exact Hidx.
      destruct (decide (new = o /\ idx = j0)) as [[-> ->]|_].
      * reflexivity.
      * apply (writes_there _ _ _ _ _ H1 Hidx).
  - subst m'. pose proof (writes_None_same _ _ _ _ Hidx H1 Hnone) as Hsame.
    split; [split|split].
    + eapply same_adjacency_handles_ok; eauto.
    + eapply same_adjacency_symmetric_except; eauto.
    + apply same_adjacency_touches, Hsame.
    + apply (writes_there _ _ _ _ _ H1 Hidx).
Qed.

Lemma UpdateAdjacentRelation_step X D old oldIdx new newIdx m m' :
  newIdx < 3 ->
  UpdateAdjacentRelation old oldIdx new newIdx m = Returns tt m' ->
  old ∈ X ->
  slot m new newIdx = Some None ->
  surgery X D m ->
  surgery X D m' /\ touches [(new, newIdx)] old m m'.
Proof.
  intros Hidx H HX Hnone Hs. unfold UpdateAdjacentRelation in H.
  apply bind_inv in H as (t & m1 & Hd & H). apply deref_inv in Hd as [-> Ht].
  destruct (link_external_step X D old new newIdx _ m m' Hidx H HX Hnone) as (H1 & H2 & _);
    [|exact Hs|auto].
  intros o Ho. destruct Hs as [[_ Hiss] _].
  apply (handles_issued_any m old oldIdx o Hiss).
  rewrite (slot_of_triangle _ _ _ _ Ht), Ho. reflexivity.
Qed.

Lemma InsertTriangle_step X D c0 c1 c2 m n m' :
  InsertTriangle c0 c1 c2 m = Returns n m' ->
  surgery X D m ->
  n = nextIterator m /\ nextIterator m' = S n
  /\ surgery X D m'
  /\ (forall i, slot m' n i = Some None)
  /\ (forall h i, h <> n -> slot m' h i = slot m h i)
  /\ (forall h, h <> n -> live m' h <-> live m h)
  /\ live m' n.
Proof.
  intros [= <- <-] [[Hf Hiss] Hsym].
  assert (Hslot : forall i, slot (mkMesh (<[nextIterator m := newAdvancedTriangle c0 c1 c2]>
                                              (triangles m)) (S (nextIterator m)) (surrounding m))
                              (nextIterator m) i = Some None).
  { intros i. unfold slot. cbn [triangles]. rewrite lookup_insert_eq. cbn.
    destruct i as [|[|i]]; reflexivity. }
  assert (Hother : forall h i, h <> nextIterator m ->
            slot (mkMesh (<[nextIterator m := newAdvancedTriangle c0 c1 c2]> (triangles m))
                    (S (nextIterator m)) (surrounding m)) h i = slot m h i).
  { intros h i Hne. unfold slot. cbn [triangles]. rewrite lookup_insert_ne by congruence.
    reflexivity. }
  assert (Hlive : forall h, h <> nextIterator m ->
            live (mkMesh (<[nextIterator m := newAdvancedTriangle c0 c1 c2]> (triangles m))
                    (S (nextIterator m)) (surrounding m)) h <-> live m h).
  { intros h Hne. unfold live. cbn [triangles]. rewrite lookup_insert_ne by congruence.
    reflexivity. }
  split; [reflexivity|]. split; [reflexivity|]. split; [split; [split|]|].
  - apply (growing_InsertTriangle c0 c1 c2 m Hf).
  - intros h i b Hi Hb. cbn [nextIterator].
    destruct (decide (h = nextIterator m)) as [->|Hne].
    + rewrite Hslot in Hb. discriminate.
    + rewrite Hother in Hb by exact Hne. apply Hiss in Hb; [lia | exact Hi].
  - intros a b La Lb Xa Xb (i & Hi & Hab).
    destruct (decide (a = nextIterator m)) as [->|Ha];
      [rewrite Hslot in Hab; discriminate|].
    rewrite Hother in Hab by exact Ha.
    assert (Hb : b <> nextIterator m).
    { apply Hiss in Hab; [lia | exact Hi]. }
    destruct (Hsym a b) as [(j & Hj & Hba)|Hd]; try assumption.
    + apply Hlive; assumption.
    + apply Hlive; assumption.
    + exists i. auto.
    + left. exists j. split; [exact Hj|]. rewrite Hother by exact Hb. exact Hba.
    + now right.
  - split; [exact Hslot|]. split; [exact Hother|]. split; [exact Hlive|].
    unfold live. cbn [triangles]. rewrite lookup_insert_eq. eexists. split; reflexivity.
Qed.

Lemma Flag_step X D h m m' :
  Flag h m = Returns tt m' ->
  surgery X D m ->
  surgery X D m'
  /\ ~ live m' h
  /\ (forall h' i, slot m' h' i = slot m h' i)
  /\ (forall h', live m' h' -> live m h')
  /\ nextIterator m' = nextIterator m.
Proof.
  intros H [[Hf Hiss] Hsym]. apply update_inv in H as (t & Ht & ->).
  assert (Hslot : forall h' i,
            slot (mkMesh (<[h := with_flag true t]> (triangles m)) (nextIterator m)
                    (surrounding m)) h' i = slot m h' i).
  { intros h' i. unfold slot. cbn [triangles].
    destruct (decide (h' = h)) as [->|Hne].
    - rewrite lookup_insert_eq, Ht. reflexivity.
    - rewrite lookup_insert_ne by congruence. reflexivity. }
  assert (Hlive : forall h',
            live (mkMesh (<[h := with_flag true t]> (triangles m)) (nextIterator m)
                    (surrounding m)) h' <-> live m h' /\ h' <> h).
  { intros h'. unfold live. cbn [triangles].
    destruct (decide (h' = h)) as [->|Hne].
    - rewrite lookup_insert_eq. split.
      + intros (t' & [= <-] & Hfl). discriminate.
      + intros [_ Hne]. congruence.
    - rewrite lookup_insert_ne by congruence. tauto. }
  split; [split; [split|]|].
  - intros h' t' Ht'. cbn [triangles nextIterator] in *.
    destruct (decide (h = h')) as [<-|Hne]; [eapply Hf, Ht|].
    rewrite lookup_insert_ne in Ht' by exact Hne. eapply Hf, Ht'.
  - intros h' i b Hi Hb. rewrite Hslot in Hb. eapply Hiss; eauto.
  - intros a b La Lb Xa Xb (i & Hi & Hab). apply Hlive in La as [La _], Lb as [Lb _].
    rewrite Hslot in Hab.
    destruct (Hsym a b) as [(j & Hj & Hba)|Hd]; try assumption.
    + exists i. auto.
    + left. exists j. split; [exact Hj|]. rewrite Hslot. exact Hba.
    + now right.
  - split; [intros Hl; apply Hlive in Hl as [_ Hne]; congruence|].
    split; [exact Hslot|]. split; [|reflexivity].
    intros h' Hl. apply Hlive in Hl. tauto.
Qed.

Lemma touches_None W old m m' h i :
  touches W old m m' -> i < 3 -> (h, i) ∉ W -> slot m h i = Some None ->
  slot m' h i = Some None.
Proof.
  intros (_ & _ & S) Hi HW Hs. apply S; [exact Hi | exact HW | discriminate | exact Hs].
Qed.

(** [FlipEdges] keeps the adjacency symmetric. *)
Lemma FlipEdges_mesh_ok oldFirst oldSecond a m newTriangles m' :
  mesh_ok m ->
  FlipEdges oldFirst oldSecond a m = Returns newTriangles m' ->
  mesh_ok m'.
Proof.
  intros (Hf & Hiss & Hsym) H. unfold FlipEdges in H. cbv zeta in H.
  apply bind_inv in H as (tf & ? & Hd & H). apply deref_inv in Hd as [-> Htf].
  apply bind_inv in H as (ts & ? & Hd & H). apply deref_inv in Hd as [-> Hts].
  apply bind_inv in H as (nF & m1 & HI1 & H).
  apply bind_inv in H as (nS & m2 & HI2 & H).
  apply bind_inv in H as ([] & m3 & HT & H).
  apply bind_inv in H as ([] & m4 & HU1 & H).
  apply bind_inv in H as ([] & m5 & HU2 & H).
  apply bind_inv in H as ([] & m6 & HU3 & H).
  apply bind_inv in H as ([] & m7 & HU4 & H).
  apply bind_inv in H as ([] & m8 & HW1 & H).
  apply bind_inv in H as ([] & m9 & HW2 & H).
  apply bind_inv in H as ([] & m10 & HF1 & H).
  apply bind_inv in H as ([] & m11 & HF2 & H).
  injection H as _ <-.
  set (X := [oldFirst; oldSecond]). set (D := [(nF, nS); (nS, nF)]).
  assert (HXf : oldFirst ∈ X) by (apply elem_of_cons; now left).
  assert (HXs : oldSecond ∈ X) by (apply elem_of_cons; right; apply elem_of_cons; now left).
  assert (S0 : surgery X D m).
  { split; [split; assumption | apply symmetric_except_start, Hsym]. }
  destruct (InsertTriangle_step X D _ _ _ _ _ _ HI1 S0)
    as (EnF & N1 & S1 & None1 & Oth1 & _ & _).
  destruct (InsertTriangle_step X D _ _ _ _ _ _ HI2 S1)
    as (EnS & N2 & S2 & None2 & Oth2 & _ & _).
  assert (Hne : nF <> nS) by lia.
  assert (NoneF2 : forall i, slot m2 nF i = Some None).
  { intros i. rewrite Oth2 by exact Hne. apply None1. }
  pose proof (neutral_TransferVertices2 _ _ _ _ _ _ _ _ HT) as Same3.
  assert (S3 : surgery X D m3).
  { destruct S2 as [Hok2 Hsym2]. split;
      [eapply same_adjacency_handles_ok | eapply same_adjacency_symmetric_except]; eauto. }
  assert (NoneF3 : forall i, i < 3 -> slot m3 nF i = Some None).
  { intros i Hi. rewrite (proj2 (proj2 Same3)) by exact Hi. apply NoneF2. }
  assert (NoneS3 : forall i, i < 3 -> slot m3 nS i = Some None).
  { intros i Hi. rewrite (proj2 (proj2 Same3)) by exact Hi. apply None2. }
  assert (Hnot : forall (h h' : nat) (i i' : nat), (h, i) <> (h', i') -> (h, i) ∉ [(h', i')]).
  { intros h h' i i' Hd Hin. apply list_elem_of_singleton in Hin. contradiction. }
  destruct (UpdateAdjacentRelation_step X D _ _ _ 2 _ _ ltac:(lia) HU1 HXf
              (NoneS3 2 ltac:(lia)) S3) as (S4 & T4).
  destruct (UpdateAdjacentRelation_step X D _ _ _ 1 _ _ ltac:(lia) HU2 HXf
              (touches_None _ _ _ _ nF 1 T4 ltac:(lia) ltac:(apply Hnot; congruence)
                 (NoneF3 1 ltac:(lia))) S4) as (S5 & T5).
  assert (NoneS5 : slot m5 nS 1 = Some None).
  { apply (touches_None _ _ _ _ nS 1 T5); [lia | apply Hnot; congruence|].
    apply (touches_None _ _ _ _ nS 1 T4); [lia | apply Hnot; congruence|].
    apply NoneS3. lia. }
  destruct (UpdateAdjacentRelation_step X D _ _ _ 1 _ _ ltac:(lia) HU3 HXs NoneS5 S5)
    as (S6 & T6).
  assert (NoneF6 : slot m6 nF 2 = Some None).
  { apply (touches_None _ _ _ _ nF 2 T6); [lia | apply Hnot; congruence|].
    apply (touches_None _ _ _ _ nF 2 T5); [lia | apply Hnot; congruence|].
    apply (touches_None _ _ _ _ nF 2 T4); [lia | apply Hnot; congruence|].
    apply NoneF3. lia. }
  destruct (UpdateAdjacentRelation_step X D _ _ _ 2 _ _ ltac:(lia) HU4 HXs NoneF6 S6)
    as (S7 & T7).
  assert (Keep : forall h, slot m3 h 0 = Some None -> slot m7 h 0 = Some None).
  { intros h Hh.
    apply (touches_None _ _ _ _ h 0 T7); [lia | apply Hnot; congruence|].
    apply (touches_None _ _ _ _ h 0 T6); [lia | apply Hnot; congruence|].
    apply (touches_None _ _ _ _ h 0 T5); [lia | apply Hnot; congruence|].
    apply (touches_None _ _ _ _ h 0 T4); [lia | apply Hnot; congruence|].
    exact Hh. }
  assert (Next7 : nextIterator m7 = S (S (nextIterator m))).
  { rewrite (proj1 T7), (proj1 T6), (proj1 T5), (proj1 T4), (proj1 Same3), N2, EnS, N1, EnF.
    reflexivity. }
  apply (SetAdjacentTriangle_writes _ 0 _ _ _ ltac:(lia)) in HW1, HW2.
  assert (S8 : surgery X D m8).
  { destruct S7 as [Hok7 Hsym7]. split.
    - eapply (writes_handles_ok m7); [| exact HW1 | | exact Hok7]; [lia|].
      intros b [= <-]. lia.
    - eapply (writes_pending X D m7); [| exact HW1 | | | exact Hsym7]; [lia | |].
      + apply Keep, NoneF3. lia.
      + right. left. apply elem_of_cons. now left. }
  assert (NoneS8 : slot m8 nS 0 = Some None).
  { rewrite (writes_elsewhere _ _ _ _ _ nS 0 HW1); [|lia|intros [? _]; congruence].
    apply Keep, NoneS3. lia. }
  assert (S9 : surgery X D m9).
  { destruct S8 as [Hok8 Hsym8]. split.
    - eapply (writes_handles_ok m8); [| exact HW2 | | exact Hok8]; [lia|].
      intros b [= <-]. rewrite (proj1 HW1). lia.
    - eapply (writes_pending X D m8); [| exact HW2 | exact NoneS8 | | exact Hsym8]; [lia|].
      right. left. apply elem_of_cons. right. apply elem_of_cons. now left. }
  assert (LinkF : slot m9 nF 0 = Some (Some nS)).
  { rewrite (writes_elsewhere _ _ _ _ _ nF 0 HW2); [|lia|intros [? _]; congruence].
    apply (writes_there _ _ _ _ _ HW1). lia. }
  assert (LinkS : slot m9 nS 0 = Some (Some nF)).
  { apply (writes_there _ _ _ _ _ HW2). lia. }
  destruct (Flag_step X D _ _ _ HF1 S9) as (S10 & Dead1 & Slot10 & Live10 & _).
  destruct (Flag_step X D _ _ _ HF2 S10) as (S11 & Dead2 & Slot11 & Live11 & _).
  destruct S11 as [[Hf11 Hiss11] Hsym11].
  split; [exact Hf11|]. split; [exact Hiss11|].
  apply (symmetric_except_done X D); [| |exact Hsym11].
  - intros x Hx Hl. subst X. apply elem_of_cons in Hx as [->|Hx].
    + apply Dead1, Live11, Hl.
    + apply list_elem_of_singleton in Hx as ->. exact (Dead2 Hl).
  - intros x y Hxy. subst D. apply elem_of_cons in Hxy as [[= -> ->]|Hxy].
    + exists 0. split; [lia|]. rewrite Slot11, Slot10. exact LinkS.
    + apply list_elem_of_singleton in Hxy as [= -> ->].
      exists 0. split; [lia|]. rewrite Slot11, Slot10. exact LinkF.
Qed.

Lemma erase_step X D h m m' :
  erase h m = Returns tt m' ->
  surgery X D m ->
  surgery X D m'
  /\ ~ live m' h
  /\ (forall h' i, h' <> h -> slot m' h' i = slot m h' i).
Proof.
  unfold erase. destruct (triangles m !! h) as [t|] eqn:Ht; [|discriminate].
  intros [= <-] [[Hf Hiss] Hsym].
  assert (Hslot : forall h' i, h' <> h ->
            slot (mkMesh (delete h (triangles m)) (nextIterator m) (surrounding m)) h' i
            = slot m h' i).
  { intros h' i Hne. unfold slot. cbn [triangles]. rewrite lookup_delete_ne by congruence.
    reflexivity. }
  assert (Hlive : forall h',
            live (mkMesh (delete h (triangles m)) (nextIterator m) (surrounding m)) h'
            -> live m h' /\ h' <> h).
  { intros h' (t' & Ht' & Hfl). cbn [triangles] in Ht'.
    apply lookup_delete_Some in Ht' as [Hne Ht']. split; [exists t'; auto | congruence]. }
  split; [split; [split|]|split].
  - intros h' t' Ht'. cbn [triangles nextIterator] in *.
    apply lookup_delete_Some in Ht' as [_ Ht']. eapply Hf, Ht'.
  - intros h' i b Hi Hb. cbn [nextIterator].
    destruct (decide (h' = h)) as [->|Hne].
    + unfold slot in Hb. cbn [triangles] in Hb. rewrite lookup_delete_eq in Hb. discriminate.
    + rewrite Hslot in Hb by exact Hne. eapply Hiss; eauto.
  - intros a b La Lb Xa Xb (i & Hi & Hab).
    apply Hlive in La as [La Ha], Lb as [Lb Hb]. rewrite Hslot in Hab by exact Ha.
    destruct (Hsym a b) as [(j & Hj & Hba)|Hd]; try assumption.
    + exists i. auto.
    + left. exists j. split; [exact Hj|]. rewrite Hslot by exact Hb. exact Hba.
    + now right.
  - intros Hl. apply Hlive in Hl as [_ Hne]. congruence.
  - exact Hslot.
Qed.

Lemma touches_value W old m m' h i v :
  touches W old m m' -> i < 3 -> (h, i) ∉ W -> v <> old ->
  slot m h i = Some (Some v) -> slot m' h i = Some (Some v).
Proof.
  intros (_ & _ & S) Hi HW Hv Hs. apply S; [exact Hi | exact HW | congruence | exact Hs].
Qed.

Lemma InitializeAdjacents_step X D newT index old m m' :
  index < 3 ->
  InitializeAdjacents newT index old m = Returns tt m' ->
  old ∈ X ->
  let n := get3 newT index in
  let n1 := get3 newT ((index + 1) mod 3) in
  let n2 := get3 newT ((index + 2) mod 3) in
  (forall i, i < 3 -> slot m n i = Some None) ->
  (n, n1) ∈ D -> (n, n2) ∈ D ->
  n1 < nextIterator m -> n2 < nextIterator m -> n1 <> old -> n2 <> old ->
  surgery X D m ->
  surgery X D m'
  /\ touches [(n, 0); (n, 1); (n, 2)] old m m'
  /\ slot m' n 0 = Some (Some n1) /\ slot m' n 1 = Some (Some n2).
Proof.
  intros Hindex H HX n n1 n2 Hnone D1 D2 N1 N2 O1 O2 [Hok Hsym].
  unfold InitializeAdjacents in H. cbv zeta in H. fold n n1 n2 in H.
  apply bind_inv in H as (t & ? & Hd & H). apply deref_inv in Hd as [-> Ht].
  apply bind_inv in H as ([] & ma & W0 & H).
  apply bind_inv in H as ([] & mb & W1 & H).
  apply (SetAdjacentTriangle_writes _ 0 _ _ _ ltac:(lia)) in W0.
  apply (SetAdjacentTriangle_writes _ 1 _ _ _ ltac:(lia)) in W1.
  assert (Sa : surgery X D ma).
  { split.
    - eapply (writes_handles_ok m); [| exact W0 | | exact Hok]; [lia|]. intros b [= <-]. exact N1.
    - eapply (writes_pending X D m); [| exact W0 | | | exact Hsym]; [lia | apply Hnone; lia|].
      right. left. exact D1. }
  assert (Na : slot ma n 1 = Some None).
  { rewrite (writes_elsewhere _ _ _ _ _ n 1 W0); [apply Hnone; lia | lia |].
    intros [_ ?]. lia. }
  assert (Sb : surgery X D mb).
  { destruct Sa as [Hoka Hsyma]. split.
    - eapply (writes_handles_ok ma); [| exact W1 | | exact Hoka]; [lia|].
      intros b [= <-]. rewrite (proj1 W0). exact N2.
    - eapply (writes_pending X D ma); [| exact W1 | exact Na | | exact Hsyma]; [lia|].
      right. left. exact D2. }
  assert (Nb : slot mb n 2 = Some None).
  { rewrite (writes_elsewhere _ _ _ _ _ n 2 W1); [|lia|intros [_ ?]; lia].
    rewrite (writes_elsewhere _ _ _ _ _ n 2 W0); [apply Hnone; lia | lia |].
    intros [_ ?]. lia. }
  destruct (link_external_step X D old n 2 _ mb m' ltac:(lia) H HX Nb) as (S' & T' & _);
    [|exact Sb|].
  { intros o Ho. rewrite (proj1 W1), (proj1 W0). destruct Hok as [_ Hiss].
    apply (handles_issued_any m old ((index + 2) mod 3) o Hiss).
    rewrite (slot_of_triangle _ _ _ _ Ht), Ho. reflexivity. }
  assert (Hsub : forall (k : nat) (x : nat * nat), k < 3 -> x ∈ [(n, k)] ->
                   x ∈ [(n, 0); (n, 1); (n, 2)]).
  { intros k x Hk Hx. apply list_elem_of_singleton in Hx as ->.
    destruct k as [|[|[|k]]]; [| | |lia]; rewrite !elem_of_cons; auto. }
  split; [exact S'|]. split; [|split].
  - eapply touches_trans; [|eapply touches_trans].
    + eapply touches_weaken; [|apply (writes_touches _ _ _ _ _ old W0)]. intros x. apply Hsub. lia.
    + eapply touches_weaken; [|apply (writes_touches _ _ _ _ _ old W1)]. intros x. apply Hsub. lia.
    + eapply touches_weaken; [|exact T']. intros x. apply Hsub. lia.
  - apply (touches_value _ _ mb m' n 0 n1 T'); [lia | | exact O1 |].
    + intros Hin. apply list_elem_of_singleton in Hin. congruence.
    + rewrite (writes_elsewhere _ _ _ _ _ n 0 W1); [|lia|intros [_ ?]; lia].
      apply (writes_there _ _ _ _ _ W0). lia.
  - apply (touches_value _ _ mb m' n 1 n2 T'); [lia | | exact O2 |].
    + intros Hin. apply list_elem_of_singleton in Hin. congruence.
    + apply (writes_there _ _ _ _ _ W1). lia.
Qed.

Lemma GetSurroundingTriangle_inv v m itr m' :
  GetSurroundingTriangle v m = Returns itr m' -> m' = m.
Proof.
  unfold GetSurroundingTriangle. destruct (surrounding m !! addr v); [|discriminate].
  now intros [= _ <-].
Qed.

Lemma assert_inv b m u m' : assert b m = Returns u m' -> m' = m.
Proof. unfold assert. destruct b; [|discriminate]. now intros [= <-]. Qed.

Lemma same_adjacency_surgery X D m m' :
  same_adjacency m m' -> surgery X D m -> surgery X D m'.
Proof.
  intros Hsame [Hok Hsym]. split;
    [eapply same_adjacency_handles_ok | eapply same_adjacency_symmetric_except]; eauto.
Qed.

Lemma not_in_row (n n' : nat) (i : nat) :
  n <> n' -> (n, i) ∉ [(n', 0); (n', 1); (n', 2)].
Proof.
  intros Hne Hin. repeat (apply elem_of_cons in Hin as [[= ? ?]|Hin]; [congruence|]).
  now apply elem_of_nil in Hin.
Qed.

(** The split of [InsertPoint] keeps the adjacency symmetric. *)
Lemma InsertPoint_split_mesh_ok vertex m newTriangles m' :
  mesh_ok m ->
  InsertPoint_split vertex m = Returns newTriangles m' ->
  mesh_ok m'.
Proof.
  intros (Hf & Hiss & Hsym) H. unfold InsertPoint_split in H. cbv zeta in H.
  apply bind_inv in H as (old & ? & Hg & H). apply GetSurroundingTriangle_inv in Hg as ->.
  apply bind_inv in H as (t & ? & Hd & H). apply deref_inv in Hd as [-> Ht].
  apply bind_inv in H as ([] & ? & Ha & H). apply assert_inv in Ha as ->.
  apply bind_inv in H as (n0 & m1 & HI0 & H).
  apply bind_inv in H as (n1 & m2 & HI1 & H).
  apply bind_inv in H as (n2 & m3 & HI2 & H).
  apply bind_inv in H as ([] & m6 & HA & H).
  apply bind_inv in H as ([] & m7 & HR & H).
  apply bind_inv in H as ([] & m8 & HT & H).
  apply bind_inv in H as ([] & m9 & HE & H).
  injection H as _ <-.
  cbn [foreach] in HA.
  apply bind_inv in HA as ([] & m4 & HA0 & HA).
  apply bind_inv in HA as ([] & m5 & HA1 & HA).
  apply bind_inv in HA as ([] & ? & HA2 & HA).
  injection HA as ->.
  set (X := [old]).
  set (D := [(n0, n1); (n0, n2); (n1, n2); (n1, n0); (n2, n0); (n2, n1)]).
  assert (HX : old ∈ X) by (apply elem_of_cons; now left).
  assert (Hold : old < nextIterator m) by (eapply Hf, Ht).
  assert (S0 : surgery X D m).
  { split; [split; assumption | apply symmetric_except_start, Hsym]. }
  destruct (InsertTriangle_step X D _ _ _ _ _ _ HI0 S0)
    as (E0 & N1 & S1 & None0 & Oth1 & _ & _).
  destruct (InsertTriangle_step X D _ _ _ _ _ _ HI1 S1)
    as (E1 & N2 & S2 & None1 & Oth2 & _ & _).
  destruct (InsertTriangle_step X D _ _ _ _ _ _ HI2 S2)
    as (E2 & N3 & S3 & None2 & Oth3 & _ & _).
  assert (Hn01 : n0 <> n1) by lia. assert (Hn02 : n0 <> n2) by lia.
  assert (Hn12 : n1 <> n2) by lia.
  assert (Ho0 : n0 <> old) by lia. assert (Ho1 : n1 <> old) by lia.
  assert (Ho2 : n2 <> old) by lia.
  assert (None03 : forall i, slot m3 n0 i = Some None).
  { intros i. rewrite Oth3, Oth2 by assumption. apply None0. }
  assert (None13 : forall i, slot m3 n1 i = Some None).
  { intros i. rewrite Oth3 by assumption. apply None1. }
  assert (HD : forall x, x ∈ D <-> x = (n0, n1) \/ x = (n0, n2) \/ x = (n1, n2)
                                  \/ x = (n1, n0) \/ x = (n2, n0) \/ x = (n2, n1)).
  { intros x. subst D. rewrite !elem_of_cons, elem_of_nil. tauto. }
  destruct (InitializeAdjacents_step X D (mkArray3 n0 n1 n2) 0 old m3 m4 ltac:(lia) HA0 HX)
    as (S4 & T4 & L01 & L02); cbn [get3 Nat.modulo Nat.add Nat.divmod fst snd Nat.sub elt0 elt1 elt2];
    try (apply HD; tauto); try lia; try assumption.
  { intros i _. apply None03. }
  cbn in T4, L01, L02.
  destruct (InitializeAdjacents_step X D (mkArray3 n0 n1 n2) 1 old m4 m5 ltac:(lia) HA1 HX)
    as (S5 & T5 & L12 & L10); cbn;
    try (apply HD; tauto); try (rewrite (proj1 T4); lia); try assumption.
  { intros i Hi. apply (touches_None _ _ _ _ n1 i T4 Hi); [|apply None13].
    apply not_in_row. congruence. }
  cbn in T5, L12, L10.
  destruct (InitializeAdjacents_step X D (mkArray3 n0 n1 n2) 2 old m5 m6 ltac:(lia) HA2 HX)
    as (S6 & T6 & L20 & L21); cbn;
    try (apply HD; tauto); try (rewrite (proj1 T5), (proj1 T4); lia); try assumption.
  { intros i Hi. apply (touches_None _ _ _ _ n2 i T5 Hi); [apply not_in_row; congruence|].
    apply (touches_None _ _ _ _ n2 i T4 Hi); [apply not_in_row; congruence|]. apply None2. }
  cbn in T6, L20, L21.
  pose proof (neutral_RemoveVertex _ _ _ _ _ HR) as Same7.
  pose proof (neutral_TransferVertices3 _ _ _ _ _ _ HT) as Same8.
  pose proof (same_adjacency_trans _ _ _ Same7 Same8) as Same.
  pose proof (same_adjacency_surgery X D _ _ Same S6) as S8.
  destruct (erase_step X D _ _ _ HE S8) as (S9 & Dead & Slot9).
  assert (Fan : forall a i b, i < 3 -> a <> old -> slot m6 a i = Some (Some b) ->
                  slot m9 a i = Some (Some b)).
  { intros a i b Hi Ha Hs. rewrite Slot9 by exact Ha.
    rewrite (proj2 (proj2 Same)) by exact Hi. exact Hs. }
  destruct S9 as [[Hf9 Hiss9] Hsym9].
  split; [exact Hf9|]. split; [exact Hiss9|].
  apply (symmetric_except_done X D); [| |exact Hsym9].
  - intros x Hx. subst X. apply list_elem_of_singleton in Hx as ->. exact Dead.
  - intros x y Hxy. apply HD in Hxy.
    assert (K01 : slot m6 n0 0 = Some (Some n1)).
    { apply (touches_value _ _ _ _ n0 0 n1 T6); [lia|apply not_in_row; congruence|congruence|].
      apply (touches_value _ _ _ _ n0 0 n1 T5); [lia|apply not_in_row; congruence|congruence|].
      exact L01. }
    assert (K02 : slot m6 n0 1 = Some (Some n2)).
    { apply (touches_value _ _ _ _ n0 1 n2 T6); [lia|apply not_in_row; congruence|congruence|].
      apply (touches_value _ _ _ _ n0 1 n2 T5); [lia|apply not_in_row; congruence|congruence|].
      exact L02. }
    assert (K12 : slot m6 n1 0 = Some (Some n2)).
    { apply (touches_value _ _ _ _ n1 0 n2 T6); [lia|apply not_in_row; congruence|congruence|].
      exact L12. }
    assert (K10 : slot m6 n1 1 = Some (Some n0)).
    { apply (touches_value _ _ _ _ n1 1 n0 T6); [lia|apply not_in_row; congruence|congruence|].
      exact L10. }
    destruct Hxy as [[= -> ->]|[[= -> ->]|[[= -> ->]|[[= -> ->]|[[= -> ->]|[= -> ->]]]]]].
    + exists 1. split; [lia|]. apply Fan; [lia|assumption|exact K10].
    + exists 0. split; [lia|]. apply Fan; [lia|assumption|exact L20].
    + exists 1. split; [lia|]. apply Fan; [lia|assumption|exact L21].
    + exists 0. split; [lia|]. apply Fan; [lia|assumption|exact K01].
    + exists 1. split; [lia|]. apply Fan; [lia|assumption|exact K02].
    + exists 0. split; [lia|]. apply Fan; [lia|assumption|exact K12].
Qed.

(** ** Adjacency symmetry: the operations *)

(** A command that hands on a symmetric adjacency whenever it returns. *)
Definition keeps_symmetry {A} (c : Cmd A) : Prop :=
  forall m a m', mesh_ok m -> c m = Returns a m' -> mesh_ok m'.

Lemma same_adjacency_mesh_ok m m' : same_adjacency m m' -> mesh_ok m -> mesh_ok m'.
Proof.
  intros Hsame (Hf & Hiss & Hsym).
  destruct (same_adjacency_handles_ok m m' Hsame (conj Hf Hiss)) as [Hf' Hiss'].
  split; [exact Hf'|]. split; [exact Hiss'|].
  apply (symmetric_except_done [] []).
  - intros x Hx. now apply elem_of_nil in Hx.
  - intros a b Hab. now apply elem_of_nil in Hab.
  - eapply same_adjacency_symmetric_except; [exact Hsame|].
    apply symmetric_except_start, Hsym.
Qed.

Lemma keeps_neutral {A} (c : Cmd A) : neutral c -> keeps_symmetry c.
Proof. intros Hn m a m' Hm H. eapply same_adjacency_mesh_ok; [eapply Hn, H | exact Hm]. Qed.

Lemma keeps_bind {A B} (c : Cmd A) (k : A -> Cmd B) :
  keeps_symmetry c -> (forall a, keeps_symmetry (k a)) -> keeps_symmetry (bind c k).
Proof.
  intros Hc Hk m b m' Hm H. apply bind_inv in H as (a & m1 & H1 & H2).
  eapply Hk; [eapply Hc; [exact Hm | exact H1] | exact H2].
Qed.

Lemma keeps_foreach {A} (l : list A) body :
  (forall a, keeps_symmetry (body a)) -> keeps_symmetry (foreach l body).
Proof.
  intros Hb. induction l as [|a l IH]; cbn [foreach].
  - apply keeps_neutral, neutral_ret.
  - apply keeps_bind; [apply Hb | intros _; exact IH].
Qed.

Lemma keeps_InsertTriangle c0 c1 c2 : keeps_symmetry (InsertTriangle c0 c1 c2).
Proof.
  intros m n m' (Hf & Hiss & Hsym) H.
  destruct (InsertTriangle_step [] [] _ _ _ _ _ _ H) as (_ & _ & [[Hf' Hiss'] Hsym'] & _).
  { split; [split; assumption | apply symmetric_except_start, Hsym]. }
  split; [exact Hf'|]. split; [exact Hiss'|].
  apply (symmetric_except_done [] []); [| |exact Hsym'].
  - intros x Hx. now apply elem_of_nil in Hx.
  - intros a b Hab. now apply elem_of_nil in Hab.
Qed.

Lemma keeps_remove_if_IsFlagged : keeps_symmetry remove_if_IsFlagged.
Proof.
  intros m [] m' (Hf & Hiss & Hsym) [= <-].
  set (m' := mkMesh _ _ _).
  assert (Hlook : forall h t, triangles m' !! h = Some t <->
                    triangles m !! h = Some t /\ IsFlagged t = false).
  { intros h t. subst m'. cbn [triangles]. rewrite map_lookup_filter_Some. reflexivity. }
  assert (Hlive : forall h, live m' h <-> live m h).
  { intros h. split.
    - intros (t & Ht & Hfl). apply Hlook in Ht as [Ht _]. exists t. auto.
    - intros (t & Ht & Hfl). exists t. split; [apply Hlook; auto | exact Hfl]. }
  assert (Hslot : forall h i v, slot m' h i = Some v -> slot m h i = Some v).
  { intros h i v. unfold slot. destruct (triangles m' !! h) as [t|] eqn:Ht; [|discriminate].
    apply Hlook in Ht as [-> _]. auto. }
  assert (Hback : forall h i v, live m h -> slot m h i = Some v -> slot m' h i = Some v).
  { intros h i v (t & Ht & Hfl) Hs. unfold slot in *.
    rewrite (proj2 (Hlook h t) (conj Ht Hfl)). rewrite Ht in Hs. exact Hs. }
  split; [|split].
  - intros h t Ht. apply Hlook in Ht as [Ht _]. eapply Hf, Ht.
  - intros h i b Hi Hb. apply Hslot in Hb. eapply Hiss; eauto.
  - intros a b La Lb (i & Hi & Hab). apply Hlive in La, Lb. apply Hslot in Hab.
    destruct (Hsym a b La Lb) as (j & Hj & Hba); [exists i; auto|].
    exists j. split; [exact Hj|]. apply Hback; assumption.
Qed.

Lemma neutral_triangles_begin : neutral triangles_begin.
Proof.
  intros m a m'. unfold triangles_begin. destruct (map_to_list (triangles m)); [discriminate|].
  intros [= _ <-]. apply same_adjacency_refl.
Qed.

Lemma mesh_ok_empty_mesh : mesh_ok empty_mesh.
Proof.
  split; [|split].
  - intros h t Ht. cbn in Ht. rewrite lookup_empty in Ht. discriminate.
  - intros h i b _ Hb. unfold slot in Hb. cbn in Hb. rewrite lookup_empty in Hb. discriminate.
  - intros a b (t & Ht & _). cbn in Ht. rewrite lookup_empty in Ht. discriminate.
Qed.

Lemma keeps_CreateBoundaryPoints a0 a1 a2 : keeps_symmetry (CreateBoundaryPoints a0 a1 a2).
Proof.
  unfold CreateBoundaryPoints. cbv zeta.
  apply keeps_bind; [apply keeps_InsertTriangle | intros _].
  apply keeps_neutral, neutral_bind; [|intros _; apply neutral_ret].
  apply neutral_foreach. intros v. apply neutral_bind; [apply neutral_triangles_begin|].
  intros first. apply neutral_SetSurroundingTriangle.
Qed.

Lemma CreateBoundaryPoints_returns a0 a1 a2 :
  exists m',
    CreateBoundaryPoints a0 a1 a2 empty_mesh = Returns (initialBoundaryVertices a0 a1 a2) m'
    /\ size (triangles m') = 1.
Proof.
  eexists. split; [vm_compute; reflexivity|]. vm_compute. reflexivity.
Qed.

Section RepairKeepsSymmetry.
Variable Intersect : AdvancedEdge -> AdvancedEdge -> bool.

Lemma keeps_FlipEdges oldFirst oldSecond a : keeps_symmetry (FlipEdges oldFirst oldSecond a).
Proof. intros m p m' Hm H. eapply FlipEdges_mesh_ok; eauto. Qed.

Lemma keeps_InsertPoint_split vertex : keeps_symmetry (InsertPoint_split vertex).
Proof. intros m p m' Hm H. eapply InsertPoint_split_mesh_ok; eauto. Qed.

Lemma keeps_EnsureLocalDelaunayAdjacent recur triangleItr adjacentIndex :
  (forall x y, keeps_symmetry (recur x y)) ->
  keeps_symmetry (EnsureLocalDelaunayAdjacent recur triangleItr adjacentIndex).
Proof.
  intros Hr. unfold EnsureLocalDelaunayAdjacent.
  apply keeps_bind; [apply keeps_neutral, neutral_deref | intros t].
  destruct (GetAdjacentTriangle t adjacentIndex); [apply Hr | apply keeps_neutral, neutral_ret].
Qed.

Lemma keeps_ChangeEdgeSituation recur first second a :
  (forall x y, keeps_symmetry (recur x y)) ->
  keeps_symmetry (ChangeEdgeSituation recur first second a).
Proof.
  intros Hr. unfold ChangeEdgeSituation.
  apply keeps_bind; [apply keeps_FlipEdges | intros newTriangles].
  repeat (apply keeps_bind; [apply keeps_EnsureLocalDelaunayAdjacent, Hr | intros _]).
  apply keeps_neutral, neutral_ret.
Qed.

Lemma keeps_EnsureLocalDelaunay_body recur bv ce first second :
  (forall x y, keeps_symmetry (recur x y)) ->
  keeps_symmetry (EnsureLocalDelaunay_body Intersect recur bv ce first second).
Proof.
  intros Hr. unfold EnsureLocalDelaunay_body.
  assert (Hret : forall b : bool, keeps_symmetry (ret b))
    by (intros b; apply keeps_neutral, neutral_ret).
  assert (Hstop : forall e, keeps_symmetry (@stop bool e))
    by (intros e; apply keeps_neutral, neutral_stop).
  apply keeps_bind; [apply keeps_neutral, neutral_deref | intros tf].
  destruct (IsFlagged tf); [apply Hret|].
  apply keeps_bind; [apply keeps_neutral, neutral_deref | intros ts].
  destruct (IsFlagged ts); [apply Hret|].
  destruct (ArrangeCorners tf ts) as [a|]; [|apply Hstop]. cbv zeta.
  destruct (_ && negb _); [apply Hret|].
  destruct (_ && negb _).
  - destruct (quadrilateral_refused tf ts a); [apply Hret|].
    apply keeps_bind; [apply keeps_ChangeEdgeSituation, Hr | intros _; apply Hret].
  - destruct (ComputeCircumcircle tf); [|apply Hstop].
    destruct (ComputeCircumcircle ts); [|apply Hstop].
    destruct (_ && _); [|apply Hret].
    apply keeps_bind; [apply keeps_ChangeEdgeSituation, Hr | intros _; apply Hret].
Qed.

Lemma keeps_EnsureLocalDelaunay fuel bv ce first second :
  keeps_symmetry (EnsureLocalDelaunay Intersect fuel bv ce first second).
Proof.
  revert first second. induction fuel as [|fuel IH]; intros first second; cbn.
  - apply keeps_neutral, neutral_stop.
  - apply keeps_EnsureLocalDelaunay_body, IH.
Qed.

Lemma keeps_InsertPoint fuel vertex bv ce :
  keeps_symmetry (InsertPoint Intersect fuel vertex bv ce).
Proof.
  unfold InsertPoint.
  apply keeps_bind; [apply keeps_InsertPoint_split | intros newTriangles].
  apply keeps_bind; [|intros _; apply keeps_remove_if_IsFlagged].
  apply keeps_foreach. intros i.
  apply keeps_bind; [apply keeps_neutral, neutral_deref | intros t].
  destruct (GetAdjacentTriangle t 2).
  - apply keeps_bind; [apply keeps_EnsureLocalDelaunay|].
    intros _. apply keeps_neutral, neutral_ret.
  - apply keeps_neutral, neutral_ret.
Qed.

End RepairKeepsSymmetry.

(** ** Adjacency symmetry: the invariant *)

(** C5.  Adjacency symmetry is an invariant of the mesh operations.  [mesh_ok]
    states that the adjacency is symmetric (if an adjacency slot of a live
    triangle A holds a handle to a live triangle B, some adjacency slot of B
    holds a handle back to A) and that the handles in use were issued by the
    list.  From a mesh that satisfies it, each of the bootstrap
    [CreateBoundaryPoints], the three-way split of [InsertPoint], [FlipEdges],
    the recursive repair [EnsureLocalDelaunay] and the whole of [InsertPoint]
    returns a mesh that satisfies it again. *)
Theorem adjacency_symmetry_preserved
    (Intersect : AdvancedEdge -> AdvancedEdge -> bool) (m : Mesh) :
  mesh_ok m ->
  (forall a0 a1 a2 boundaryVertices m',
      CreateBoundaryPoints a0 a1 a2 m = Returns boundaryVertices m' ->
      adjacency_symmetric m' /\ mesh_ok m')
  /\ (forall vertex newTriangles m',
        InsertPoint_split vertex m = Returns newTriangles m' ->
        adjacency_symmetric m' /\ mesh_ok m')
  /\ (forall oldFirst oldSecond a newTriangles m',
        FlipEdges oldFirst oldSecond a m = Returns newTriangles m' ->
        adjacency_symmetric m' /\ mesh_ok m')
  /\ (forall fuel boundaryVertices constrainedEdges first second flipped m',
        EnsureLocalDelaunay Intersect fuel boundaryVertices constrainedEdges first second m
        = Returns flipped m' ->
        adjacency_symmetric m' /\ mesh_ok m')
  /\ (forall fuel vertex boundaryVertices constrainedEdges m',
        InsertPoint Intersect fuel vertex boundaryVertices constrainedEdges m = Returns tt m' ->
        adjacency_symmetric m' /\ mesh_ok m').
Proof.
  intros Hm.
  assert (Hsplit : forall m', mesh_ok m' -> adjacency_symmetric m' /\ mesh_ok m').
  { intros m' Hm'. split; [apply Hm' | exact Hm']. }
  split; [|split; [|split; [|split]]]; intros; apply Hsplit.
  - eapply keeps_CreateBoundaryPoints; eauto.
  - eapply keeps_InsertPoint_split; eauto.
  - eapply keeps_FlipEdges; eauto.
  - eapply keeps_EnsureLocalDelaunay; eauto.
  - eapply keeps_InsertPoint; eauto.
Qed.

(** Two triangles that refer to each other in their third slots. *)
Lemma mesh_ok_pair t0 t1 s :
  mAdjacentTriangles t0 = mkArray3 None None (Some 1) ->
  mAdjacentTriangles t1 = mkArray3 None None (Some 0) ->
  mesh_ok (mkMesh (<[1 := t1]> (<[0 := t0]> ∅)) 2 s).
Proof.
  intros H0 H1.
  assert (Hin : forall h t, (<[1 := t1]> (<[0 := t0]> (∅ : gmap nat AdvancedTriangle))) !! h
                            = Some t -> (h = 0 /\ t = t0) \/ (h = 1 /\ t = t1)).
  { intros h t Ht. apply lookup_insert_Some in Ht as [[<- <-]|[? Ht]]; [now right|].
    apply lookup_insert_Some in Ht as [[<- <-]|[? Ht]]; [now left|].
    rewrite lookup_empty in Ht. discriminate. }
  assert (Hs0 : forall i, i < 3 -> slot (mkMesh (<[1 := t1]> (<[0 := t0]> ∅)) 2 s) 0 i
                          = Some (if decide (i = 2) then Some 1 else None)).
  { intros i Hi. unfold slot. cbn [triangles].
    rewrite lookup_insert_ne, lookup_insert_eq by lia. cbn. unfold GetAdjacentTriangle.
    rewrite H0. destruct i as [|[|[|i]]]; try lia; reflexivity. }
  assert (Hs1 : forall i, i < 3 -> slot (mkMesh (<[1 := t1]> (<[0 := t0]> ∅)) 2 s) 1 i
                          = Some (if decide (i = 2) then Some 0 else None)).
  { intros i Hi. unfold slot. cbn [triangles].
    rewrite lookup_insert_eq. cbn. unfold GetAdjacentTriangle.
    rewrite H1. destruct i as [|[|[|i]]]; try lia; reflexivity. }
  split; [|split].
  - intros h t Ht. cbn [triangles nextIterator] in *.
    apply Hin in Ht as [[-> _]|[-> _]]; lia.
  - intros h i b Hi Hb. cbn [nextIterator].
    destruct (triangles (mkMesh (<[1 := t1]> (<[0 := t0]> ∅)) 2 s) !! h) as [t|] eqn:Ht.
    + cbn [triangles] in Ht. apply Hin in Ht as [[-> _]|[-> _]].
      * rewrite Hs0 in Hb by exact Hi. destruct (decide (i = 2)); [|discriminate].
        injection Hb as <-. lia.
      * rewrite Hs1 in Hb by exact Hi. destruct (decide (i = 2)); [|discriminate].
        injection Hb as <-. lia.
    + unfold slot in Hb. rewrite Ht in Hb. discriminate.
  - intros a b (ta & Hta & _) _ (i & Hi & Hab). cbn [triangles] in Hta.
    apply Hin in Hta as [[-> _]|[-> _]].
    + rewrite Hs0 in Hab by exact Hi. destruct (decide (i = 2)); [|discriminate].
      injection Hab as <-. exists 2. split; [lia|]. rewrite Hs1 by lia. reflexivity.
    + rewrite Hs1 in Hab by exact Hi. destruct (decide (i = 2)); [|discriminate].
      injection Hab as <-. exists 2. split; [lia|]. rewrite Hs0 by lia. reflexivity.
Defined.

(** A vertex that is left to insert into the first triangle of [kite]. *)
Definition kite_vertex : Vertex := Vertex_at 14 (-1 # 4) 0.

Definition kite_first_pending : AdvancedTriangle :=
  mkAdvancedTriangle (mCorners kite_first) [kite_vertex] (mAdjacentTriangles kite_first) false.

Definition kite_pending : Mesh :=
  mkMesh (<[1 := kite_second]> (<[0 := kite_first_pending]> ∅)) 2 (<[14 := 0]> ∅).

Lemma adjacency_symmetry_preserved_witness :
  (exists m', CreateBoundaryPoints 0 1 2 empty_mesh = Returns (initialBoundaryVertices 0 1 2) m'
              /\ adjacency_symmetric m' /\ mesh_ok m')
  /\ (exists m', InsertPoint_split kite_vertex kite_pending = Returns (mkArray3 2 3 4) m'
                 /\ adjacency_symmetric m' /\ mesh_ok m')
  /\ (exists m', FlipEdges 0 1 kite_arrangement kite = Returns (2, 3) m'
                 /\ adjacency_symmetric m' /\ mesh_ok m')
  /\ (exists m', EnsureLocalDelaunay no_intersection 3 [] [] 0 1 kite = Returns true m'
                 /\ adjacency_symmetric m' /\ mesh_ok m')
  /\ (exists m', InsertPoint no_intersection 5 kite_vertex [] [] kite_pending = Returns tt m'
                 /\ adjacency_symmetric m' /\ mesh_ok m').
Proof.
  pose proof (adjacency_symmetry_preserved no_intersection empty_mesh mesh_ok_empty_mesh)
    as (Hboot & _).
  pose proof (adjacency_symmetry_preserved no_intersection kite_pending
                (mesh_ok_pair kite_first_pending kite_second _ eq_refl eq_refl))
    as (_ & Hsplit & _ & _ & Hinsert).
  pose proof (adjacency_symmetry_preserved no_intersection kite
                (mesh_ok_pair kite_first kite_second _ eq_refl eq_refl))
    as (_ & _ & Hflip & Hrepair & _).
  split; [|split; [|split; [|split]]]; eexists; (split; [vm_compute; reflexivity|]).
  - apply (Hboot 0 1 2 (initialBoundaryVertices 0 1 2)). vm_compute. reflexivity.
  - apply (Hsplit kite_vertex (mkArray3 2 3 4)). vm_compute. reflexivity.
  - apply (Hflip 0 1 kite_arrangement (2, 3)). vm_compute. reflexivity.
  - apply (Hrepair 3 [] [] 0 1 true). vm_compute. reflexivity.
  - apply (Hinsert 5 kite_vertex [] []). vm_compute. reflexivity.
Defined.

(** * Further properties of the code *)

(** ** The comparators of the sets *)

(** X1.  [CompareVertexPtrs], the order of the sets of remaining vertices, is
    a strict weak ordering over exact coordinates: it is irreflexive and
    transitive, and two vertices are equivalent (neither is less than the
    other) exactly when they have the same position. *)
Theorem CompareVertexPtrs_strict_weak_order :
  (forall a, CompareVertexPtrs a a = false)
  /\ (forall a b c,
        CompareVertexPtrs a b = true -> CompareVertexPtrs b c = true ->
        CompareVertexPtrs a c = true)
  /\ (forall a b,
        CompareVertexPtrs a b = false /\ CompareVertexPtrs b a = false
        <-> same_position (GetPosition a) (GetPosition b)).
Proof.
  split; [|split].
  - intros a. apply CompareVertexPtrs_false. right. split; [reflexivity | apply Qle_refl].
  - intros a b c. rewrite !CompareVertexPtrs_true.
    intros [H1|[H1 H1']] [H2|[H2 H2']]; try (left; lra). right. split; lra.
  - intros a b. rewrite <- equivalent_same_position, andb_true_iff, !negb_true_iff.
    reflexivity.
Qed.

Lemma CompareEdges_true a b :
  CompareEdges a b = true <->
  (CompareRawVertexPtrs (edge0 a) (edge0 b) = true
   \/ (same_position (GetPosition (edge0 a)) (GetPosition (edge0 b))
       /\ CompareRawVertexPtrs (edge1 a) (edge1 b) = true)).
Proof.
  unfold CompareEdges, edge_key. unfold pair_lt at 1. cbn [fst snd].
  fold (CompareRawVertexPtrs (edge0 a) (edge0 b)).
  fold (CompareRawVertexPtrs (edge0 b) (edge0 a)).
  fold (CompareRawVertexPtrs (edge1 a) (edge1 b)).
  change CompareRawVertexPtrs with CompareVertexPtrs.
  rewrite orb_true_iff, andb_true_iff, negb_true_iff.
  split.
  - intros [H|[H1 H2]]; [now left|].
    destruct (CompareVertexPtrs (edge0 a) (edge0 b)) eqn:E; [now left|].
    right. split; [|exact H2].
    apply equivalent_same_position. rewrite E, H1. reflexivity.
  - intros [H|[H1 H2]]; [now left|]. right. split; [|exact H2].
    apply same_position_sym, equivalent_same_position in H1.
    apply andb_true_iff in H1 as [H1 _]. apply negb_true_iff in H1. exact H1.
Qed.

(** X2.  [CompareEdges], the order of the set of constrained edges, is a
    strict weak ordering over exact coordinates, and two edges are equivalent
    exactly when their first end points have the same position and their
    second end points have the same position. *)
Theorem CompareEdges_strict_weak_order :
  (forall a, CompareEdges a a = false)
  /\ (forall a b c,
        CompareEdges a b = true -> CompareEdges b c = true -> CompareEdges a c = true)
  /\ (forall a b,
        CompareEdges a b = false /\ CompareEdges b a = false
        <-> same_position (GetPosition (edge0 a)) (GetPosition (edge0 b))
            /\ same_position (GetPosition (edge1 a)) (GetPosition (edge1 b))).
Proof.
  assert (Hirr : forall v, CompareVertexPtrs v v = false).
  { intros v. apply CompareVertexPtrs_false. right. split; [reflexivity | apply Qle_refl]. }
  assert (Hlt : forall u v w, same_position (GetPosition u) (GetPosition v) ->
                  CompareVertexPtrs v w = true -> CompareVertexPtrs u w = true).
  { intros u v w [Hx Hy]. rewrite !CompareVertexPtrs_true.
    intros [H|[H1 H2]]; [left; lra | right; split; lra]. }
  assert (Hgt : forall u v w, same_position (GetPosition v) (GetPosition w) ->
                  CompareVertexPtrs u v = true -> CompareVertexPtrs u w = true).
  { intros u v w [Hx Hy]. rewrite !CompareVertexPtrs_true.
    intros [H|[H1 H2]]; [left; lra | right; split; lra]. }
  assert (Htr : forall u v w, CompareVertexPtrs u v = true -> CompareVertexPtrs v w = true ->
                  CompareVertexPtrs u w = true).
  { intros u v w. rewrite !CompareVertexPtrs_true.
    intros [H1|[H1 H1']] [H2|[H2 H2']]; try (left; lra). right. split; lra. }
  split; [|split].
  - intros a. apply not_true_iff_false. rewrite CompareEdges_true.
    change CompareRawVertexPtrs with CompareVertexPtrs. rewrite !Hirr.
    intros [H|[_ H]]; discriminate.
  - intros a b c. rewrite !CompareEdges_true.
    change CompareRawVertexPtrs with CompareVertexPtrs.
    intros [H1|[H1 H1']] [H2|[H2 H2']].
    + left. eapply Htr; eauto.
    + left. eapply Hgt; eauto.
    + left. eapply Hlt; eauto.
    + right. split; [eapply same_position_trans; eauto | eapply Htr; eauto].
  - intros a b. split.
    + intros [H1 H2].
      destruct (edges_equivalent_positions a b) as [E0 E1].
      { unfold edges_equivalent. rewrite H1, H2. reflexivity. }
      apply veq_iff in E0, E1. split; assumption.
    + intros [H0 H1].
      assert (E0 : CompareVertexPtrs (edge0 a) (edge0 b) = false
                   /\ CompareVertexPtrs (edge0 b) (edge0 a) = false).
      { apply equivalent_same_position in H0. apply andb_true_iff in H0 as [Ha Hb].
        apply negb_true_iff in Ha, Hb. auto. }
      assert (E1 : CompareVertexPtrs (edge1 a) (edge1 b) = false
                   /\ CompareVertexPtrs (edge1 b) (edge1 a) = false).
      { apply equivalent_same_position in H1. apply andb_true_iff in H1 as [Ha Hb].
        apply negb_true_iff in Ha, Hb. auto. }
      destruct E0 as [E0 E0'], E1 as [E1 E1'].
      split; apply not_true_iff_false; rewrite CompareEdges_true;
        change CompareRawVertexPtrs with CompareVertexPtrs;
        rewrite ?E0, ?E0', ?E1, ?E1'; intros [H|[_ H]]; discriminate.
Qed.

(** ** Edges *)


(** ** Constrained edges *)

(** The two edges agree in the positions of their end points, first with
    first and second with second. *)
Definition same_end_points (a b : AdvancedEdge) : bool :=
  veq (GetPosition (edge0 a)) (GetPosition (edge0 b))
  && veq (GetPosition (edge1 a)) (GetPosition (edge1 b)).

Lemma edges_equivalent_same_end_points a b :
  edges_equivalent a b = same_end_points a b.
Proof.
  apply eq_true_iff_eq. split.
  - intros H. apply edges_equivalent_positions in H as [H0 H1].
    unfold same_end_points. rewrite H0, H1. reflexivity.
  - unfold same_end_points. rewrite andb_true_iff, !veq_iff. intros [H0 H1].
    assert (Hv : forall u v, same_position (GetPosition u) (GetPosition v) ->
                   CompareRawVertexPtrs u v = false).
    { intros u v H. apply equivalent_same_position in H.
      apply andb_true_iff in H as [H _]. apply negb_true_iff in H. exact H. }
    unfold edges_equivalent, CompareEdges, edge_key. unfold pair_lt at 1 4. cbn [fst snd].
    fold (CompareRawVertexPtrs (edge0 a) (edge0 b)).
    fold (CompareRawVertexPtrs (edge0 b) (edge0 a)).
    fold (CompareRawVertexPtrs (edge1 a) (edge1 b)).
    fold (CompareRawVertexPtrs (edge1 b) (edge1 a)).
    rewrite (Hv _ _ H0), (Hv _ _ H1).
    rewrite (Hv _ _ (same_position_sym _ _ H0)), (Hv _ _ (same_position_sym _ _ H1)).
    reflexivity.
Qed.

Lemma EdgeSet_find_same_end_points (constrainedEdges : EdgeSet) adv :
  EdgeSet_find constrainedEdges adv = List.find (same_end_points adv) constrainedEdges.
Proof.
  unfold EdgeSet_find. induction constrainedEdges as [|e l IH]; [reflexivity|].
  cbn [List.find]. rewrite edges_equivalent_same_end_points, IH. reflexivity.
Qed.

(** X4.  [IsEdgeConstrained] never fails its assertion, and it returns true
    exactly when the set holds an edge whose end points have the positions of
    the end points of the edge built from the two given points, first with
    first and second with second. *)
Theorem IsEdgeConstrained_is_membership
    (constrainedEdges : EdgeSet) (startPoint endPoint : Vertex) :
  IsEdgeConstrained constrainedEdges startPoint endPoint
  = Some (existsb (same_end_points (newAdvancedEdge startPoint endPoint)) constrainedEdges).
Proof.
  unfold IsEdgeConstrained. cbv zeta. rewrite EdgeSet_find_same_end_points.
  set (adv := newAdvancedEdge startPoint endPoint).
  induction constrainedEdges as [|e l IH]; [reflexivity|].
  cbn [List.find existsb].
  destruct (same_end_points adv e) eqn:E.
  - unfold same_end_points in E. rewrite E. reflexivity.
  - cbn [orb]. exact IH.
Qed.



(** ** The sets of remaining vertices *)

Lemma CompareVertexPtrs_trans a b c :
  CompareVertexPtrs a b = true -> CompareVertexPtrs b c = true -> CompareVertexPtrs a c = true.
Proof.
  rewrite !CompareVertexPtrs_true.
  intros [H1|[H1 H1']] [H2|[H2 H2']]; try (left; lra). right. split; lra.
Qed.

Lemma CompareVertexPtrs_same_position_r a b c :
  CompareVertexPtrs a b = true -> same_position (GetPosition b) (GetPosition c) ->
  CompareVertexPtrs a c = true.
Proof.
  rewrite !CompareVertexPtrs_true. intros [H|[H1 H2]] [Hx Hy]; [left; lra | right; split; lra].
Qed.

Lemma not_equivalent_cases a b :
  ~ same_position (GetPosition a) (GetPosition b) ->
  CompareVertexPtrs a b = true \/ CompareVertexPtrs b a = true.
Proof.
  intros Hne. destruct (CompareVertexPtrs a b) eqn:E1; [now left|].
  destruct (CompareVertexPtrs b a) eqn:E2; [now right|].
  exfalso. apply Hne, equivalent_same_position. rewrite E1, E2. reflexivity.
Qed.

Lemma set_insert_sorted v s : vertex_set s -> vertex_set (set_insert v s).
Proof.
  induction 1 as [|x s Hs IH Hall]; cbn [set_insert].
  - repeat constructor.
  - destruct (CompareVertexPtrs v x) eqn:E1.
    + constructor; [constructor; assumption|].
      constructor; [exact E1|].
      eapply List.Forall_impl; [|exact Hall]. intros y. apply CompareVertexPtrs_trans, E1.
    + destruct (CompareVertexPtrs x v) eqn:E2.
      * constructor; [exact IH|].
        apply List.Forall_forall. intros y Hy. apply set_insert_In in Hy as [->|Hy]; [exact E2|].
        rewrite List.Forall_forall in Hall. apply Hall, Hy.
      * constructor; assumption.
Qed.

Lemma set_insert_equivalent v s :
  vertex_set s ->
  (exists u, In u s /\ same_position (GetPosition u) (GetPosition v)) ->
  set_insert v s = s.
Proof.
  induction 1 as [|x s Hs IH Hall]; intros (u & Hu & Hsame); [destruct Hu|].
  rewrite List.Forall_forall in Hall. cbn [set_insert].
  destruct (CompareVertexPtrs v x) eqn:E1.
  - exfalso. destruct Hu as [->|Hu].
    + apply (CompareVertexPtrs_apart _ _ E1). apply same_position_sym, Hsame.
    + pose proof (CompareVertexPtrs_trans _ _ _ E1 (Hall u Hu)) as Hvu.
      apply (CompareVertexPtrs_apart _ _ Hvu). apply same_position_sym, Hsame.
  - destruct (CompareVertexPtrs x v) eqn:E2; [|reflexivity].
    f_equal. apply IH. destruct Hu as [->|Hu].
    + exfalso. exact (CompareVertexPtrs_apart _ _ E2 Hsame).
    + exists u. auto.
Qed.

Lemma set_insert_new v s :
  (forall u, In u s -> ~ same_position (GetPosition u) (GetPosition v)) ->
  length (set_insert v s) = S (length s).
Proof.
  induction s as [|x s IH]; intros Hne; [reflexivity|]. cbn [set_insert].
  destruct (CompareVertexPtrs v x) eqn:E1; [reflexivity|].
  destruct (CompareVertexPtrs x v) eqn:E2.
  - cbn [length]. rewrite IH; [reflexivity|]. intros u Hu. apply Hne. now right.
  - exfalso. apply (Hne x (or_introl eq_refl)), equivalent_same_position.
    rewrite E1, E2. reflexivity.
Qed.

Lemma set_erase_key_missing v s :
  (forall u, In u s -> ~ same_position (GetPosition u) (GetPosition v)) ->
  set_erase_key v s = (0, s).
Proof.
  induction s as [|x s IH]; intros Hne; [reflexivity|]. cbn [set_erase_key].
  destruct (negb (CompareVertexPtrs v x) && negb (CompareVertexPtrs x v)) eqn:E.
  - exfalso. apply (Hne x (or_introl eq_refl)).
    apply same_position_sym, equivalent_same_position, E.
  - rewrite IH; [reflexivity|]. intros u Hu. apply Hne. now right.
Qed.

Lemma set_erase_key_found v s :
  (exists u, In u s /\ same_position (GetPosition u) (GetPosition v)) ->
  exists r, set_erase_key v s = (1, r) /\ length s = S (length r).
Proof.
  induction s as [|x s IH]; intros (u & Hu & Hsame); [destruct Hu|]. cbn [set_erase_key].
  destruct (negb (CompareVertexPtrs v x) && negb (CompareVertexPtrs x v)) eqn:E.
  - exists s. split; reflexivity.
  - destruct Hu as [->|Hu].
    + exfalso. apply not_true_iff_false in E. apply E.
      apply equivalent_same_position, same_position_sym, Hsame.
    + destruct IH as (r & Hr & Hlen); [exists u; auto|]. rewrite Hr.
      exists (x :: r). split; [reflexivity|]. cbn [length]. rewrite Hlen. reflexivity.
Qed.

Lemma set_erase_key_set_insert v s :
  vertex_set s ->
  (forall u, In u s -> ~ same_position (GetPosition u) (GetPosition v)) ->
  set_erase_key v (set_insert v s) = (1, s).
Proof.
  assert (Hself : negb (CompareVertexPtrs v v) && negb (CompareVertexPtrs v v) = true).
  { apply equivalent_same_position. split; reflexivity. }
  induction 1 as [|x s Hs IH Hall]; intros Hne; cbn [set_insert].
  - cbn [set_erase_key]. rewrite Hself. reflexivity.
  - destruct (CompareVertexPtrs v x) eqn:E1.
    + cbn [set_erase_key]. rewrite Hself. reflexivity.
    + destruct (CompareVertexPtrs x v) eqn:E2.
      * cbn [set_erase_key]. rewrite E1, E2. cbn [negb andb].
        rewrite IH; [reflexivity|]. intros u Hu. apply Hne. now right.
      * exfalso. apply (Hne x (or_introl eq_refl)), equivalent_same_position.
        rewrite E1, E2. reflexivity.
Qed.

Lemma update_own itr m t :
  triangles m !! itr = Some t ->
  mkMesh (<[itr := t]> (triangles m)) (nextIterator m) (surrounding m) = m.
Proof. intros Ht. rewrite insert_id by exact Ht. destruct m. reflexivity. Qed.

(** X6.  [AddVertex] keeps the set of remaining vertices of the triangle in
    the order of [CompareVertexPtrs].  A vertex whose position is the position
    of a member is not added: the set, and the whole mesh, stay as they are.
    A vertex at a position of its own is added, and the members stay. *)
Theorem AddVertex_keeps_one_vertex_per_position
    (m : Mesh) (itr : TriangleIterator) (t : AdvancedTriangle) (vertexRef : Vertex) :
  triangles m !! itr = Some t ->
  vertex_set (mRemainingVertices t) ->
  exists s,
    AddVertex itr vertexRef m
    = Returns tt (mkMesh (<[itr := with_remaining s t]> (triangles m))
                    (nextIterator m) (surrounding m))
    /\ vertex_set s
    /\ ((exists u, In u (mRemainingVertices t)
                   /\ same_position (GetPosition u) (GetPosition vertexRef)) ->
        s = mRemainingVertices t /\ AddVertex itr vertexRef m = Returns tt m)
    /\ ((forall u, In u (mRemainingVertices t) ->
                   ~ same_position (GetPosition u) (GetPosition vertexRef)) ->
        In vertexRef s /\ length s = S (length (mRemainingVertices t))
        /\ forall u, In u (mRemainingVertices t) -> In u s).
Proof.
  intros Ht Hset. exists (set_insert vertexRef (mRemainingVertices t)).
  assert (Hrun : AddVertex itr vertexRef m
                 = Returns tt (mkMesh (<[itr := with_remaining
                                                  (set_insert vertexRef (mRemainingVertices t)) t]>
                                         (triangles m)) (nextIterator m) (surrounding m))).
  { unfold AddVertex, update. rewrite Ht. reflexivity. }
  split; [exact Hrun|]. split; [apply set_insert_sorted, Hset|]. split.
  - intros Hdup. pose proof (set_insert_equivalent _ _ Hset Hdup) as E.
    split; [exact E|]. rewrite Hrun, E, with_remaining_own, (update_own _ _ _ Ht). reflexivity.
  - intros Hnew. split; [apply set_insert_adds, Hnew|]. split; [apply set_insert_new, Hnew|].
    intros u. apply set_insert_keeps.
Qed.

(** A triangle with two remaining vertices. *)
Definition pending_pair : AdvancedTriangle :=
  mkAdvancedTriangle
    (mkArray3 (Vertex_at 0 0 4) (Vertex_at 1 4 (-4)) (Vertex_at 2 (-4) (-4)))
    [Vertex_at 11 (-1) (-1); Vertex_at 12 1 0]
    (mkArray3 None None None) false.

Definition pending_mesh : Mesh := mkMesh (<[0 := pending_pair]> ∅) 1 ∅.

Lemma vertex_set_pending_pair : vertex_set (mRemainingVertices pending_pair).
Proof. repeat constructor. Defined.

Lemma AddVertex_keeps_one_vertex_per_position_witness :
  exists s,
    AddVertex 0 (Vertex_at 13 1 0) pending_mesh
    = Returns tt (mkMesh (<[0 := with_remaining s pending_pair]> (triangles pending_mesh))
                    (nextIterator pending_mesh) (surrounding pending_mesh))
    /\ vertex_set s
    /\ ((exists u, In u (mRemainingVertices pending_pair)
                   /\ same_position (GetPosition u) (GetPosition (Vertex_at 13 1 0))) ->
        s = mRemainingVertices pending_pair
        /\ AddVertex 0 (Vertex_at 13 1 0) pending_mesh = Returns tt pending_mesh)
    /\ ((forall u, In u (mRemainingVertices pending_pair) ->
                   ~ same_position (GetPosition u) (GetPosition (Vertex_at 13 1 0))) ->
        In (Vertex_at 13 1 0) s /\ length s = S (length (mRemainingVertices pending_pair))
        /\ forall u, In u (mRemainingVertices pending_pair) -> In u s).
Proof.
  apply (AddVertex_keeps_one_vertex_per_position pending_mesh 0 pending_pair (Vertex_at 13 1 0)).
  - reflexivity.
  - exact vertex_set_pending_pair.
Defined.

(** X7.  [RemoveVertex] erases by position: it returns exactly when a member
    of the set of remaining vertices has the position of the given vertex, and
    the set is one member shorter then.  When no member has that position, the
    assertion on the number of erased members fails and the mesh is as
    before. *)
Theorem RemoveVertex_returns_iff_position_present
    (m : Mesh) (itr : TriangleIterator) (t : AdvancedTriangle) (vertexRef : Vertex) :
  triangles m !! itr = Some t ->
  ((exists u, In u (mRemainingVertices t)
              /\ same_position (GetPosition u) (GetPosition vertexRef)) ->
   exists s,
     RemoveVertex itr vertexRef m
     = Returns tt (mkMesh (<[itr := with_remaining s t]> (triangles m))
                     (nextIterator m) (surrounding m))
     /\ length (mRemainingVertices t) = S (length s)
     /\ forall u, In u s -> In u (mRemainingVertices t))
  /\ ((forall u, In u (mRemainingVertices t) ->
                 ~ same_position (GetPosition u) (GetPosition vertexRef)) ->
      RemoveVertex itr vertexRef m = Stops AssertionFailed m).
Proof.
  intros Ht. split.
  - intros Hfound. destruct (set_erase_key_found _ _ Hfound) as (r & Hr & Hlen).
    exists r. split; [|split; [exact Hlen|]].
    + unfold RemoveVertex. rewrite (bind_deref _ _ _ _ Ht), Hr.
      unfold bind, update. rewrite Ht. reflexivity.
    + intros u. eapply set_erase_key_subset, Hr.
  - intros Hmissing. unfold RemoveVertex.
    rewrite (bind_deref _ _ _ _ Ht), (set_erase_key_missing _ _ Hmissing).
    unfold bind, update. rewrite Ht, with_remaining_own, (update_own _ _ _ Ht). reflexivity.
Qed.

Lemma RemoveVertex_returns_iff_position_present_witness :
  ((exists u, In u (mRemainingVertices pending_pair)
              /\ same_position (GetPosition u) (GetPosition (Vertex_at 13 1 0))) ->
   exists s,
     RemoveVertex 0 (Vertex_at 13 1 0) pending_mesh
     = Returns tt (mkMesh (<[0 := with_remaining s pending_pair]> (triangles pending_mesh))
                     (nextIterator pending_mesh) (surrounding pending_mesh))
     /\ length (mRemainingVertices pending_pair) = S (length s)
     /\ forall u, In u s -> In u (mRemainingVertices pending_pair))
  /\ ((forall u, In u (mRemainingVertices pending_pair) ->
                 ~ same_position (GetPosition u) (GetPosition (Vertex_at 13 1 0))) ->
      RemoveVertex 0 (Vertex_at 13 1 0) pending_mesh = Stops AssertionFailed pending_mesh).
Proof.
  apply (RemoveVertex_returns_iff_position_present pending_mesh 0 pending_pair
           (Vertex_at 13 1 0)).
  reflexivity.
Defined.

(** X8.  Adding a vertex at a position of its own to the set of remaining
    vertices of a triangle and removing it again gives back the mesh. *)
Theorem AddVertex_RemoveVertex_round_trip
    (m : Mesh) (itr : TriangleIterator) (t : AdvancedTriangle) (vertexRef : Vertex) :
  triangles m !! itr = Some t ->
  vertex_set (mRemainingVertices t) ->
  (forall u, In u (mRemainingVertices t) ->
             ~ same_position (GetPosition u) (GetPosition vertexRef)) ->
  (AddVertex itr vertexRef ;;; RemoveVertex itr vertexRef) m = Returns tt m.
Proof.
  intros Ht Hset Hnew.
  unfold bind at 1. unfold AddVertex, update. rewrite Ht.
  unfold RemoveVertex, bind, deref, update. cbn [triangles nextIterator surrounding].
  rewrite lookup_insert_eq. cbn [with_remaining mRemainingVertices].
  rewrite (set_erase_key_set_insert _ _ Hset Hnew).
  cbn [triangles nextIterator surrounding]. rewrite lookup_insert_eq.
  cbn [Nat.eqb assert]. rewrite insert_insert_eq.
  replace (with_remaining (mRemainingVertices t)
             (with_remaining (set_insert vertexRef (mRemainingVertices t)) t))
    with t by (destruct t; reflexivity).
  rewrite (update_own _ _ _ Ht). reflexivity.
Qed.

Lemma AddVertex_RemoveVertex_round_trip_witness :
  (AddVertex 0 (Vertex_at 13 1 1) ;;; RemoveVertex 0 (Vertex_at 13 1 1)) pending_mesh
  = Returns tt pending_mesh.
Proof.
  apply (AddVertex_RemoveVertex_round_trip pending_mesh 0 pending_pair (Vertex_at 13 1 1)).
  - reflexivity.
  - exact vertex_set_pending_pair.
  - intros u [<-|[<-|[]]] [Hx Hy]; vm_compute in Hx, Hy; discriminate.
Defined.

(** ** Back-references *)

(** X9.  [UpdateAdjacentBackReferences] does nothing when [other] is invalid.
    Otherwise it replaces the first adjacent of [other] that refers to
    [oldTriangle] by [newTriangle] and leaves every other adjacent, and every
    other triangle, as it is; the assertion fails, with the mesh as before,
    when no adjacent of [other] refers to [oldTriangle]. *)
Theorem UpdateAdjacentBackReferences_replaces_first
    (oldTriangle : TriangleIterator) (newTriangle : OptTriangleIterator) (m : Mesh) :
  UpdateAdjacentBackReferences oldTriangle newTriangle None m = Returns tt m
  /\ (forall target t,
        triangles m !! target = Some t ->
        (forall i, i < 3 -> GetAdjacentTriangle t i <> Some oldTriangle) ->
        UpdateAdjacentBackReferences oldTriangle newTriangle (Some target) m
        = Stops AssertionFailed m)
  /\ (forall target t i,
        triangles m !! target = Some t ->
        i < 3 ->
        GetAdjacentTriangle t i = Some oldTriangle ->
        (forall j, j < i -> GetAdjacentTriangle t j <> Some oldTriangle) ->
        UpdateAdjacentBackReferences oldTriangle newTriangle (Some target) m
        = Returns tt (mkMesh (<[target := with_adjacent i newTriangle t]> (triangles m))
                        (nextIterator m) (surrounding m))).
Proof.
  assert (Htest : forall (t : AdvancedTriangle) i,
            (match GetAdjacentTriangle t i with
             | Some target => Nat.eqb target oldTriangle
             | None => false
             end) = true <-> GetAdjacentTriangle t i = Some oldTriangle).
  { intros t i. destruct (GetAdjacentTriangle t i) as [b|]; [|split; discriminate].
    rewrite Nat.eqb_eq. split; congruence. }
  split; [reflexivity|]. split.
  - intros target t Ht Hnone. unfold UpdateAdjacentBackReferences.
    rewrite (bind_deref _ _ _ _ Ht).
    destruct (find_back_reference t oldTriangle) as [i|] eqn:E; [|reflexivity].
    apply List.find_some in E as [Hin E]. apply Htest in E.
    exfalso. apply (Hnone i); [|exact E].
    cbn in Hin. destruct Hin as [<-|[<-|[<-|[]]]]; lia.
  - intros target t i Ht Hi Hadj Hfirst. unfold UpdateAdjacentBackReferences.
    rewrite (bind_deref _ _ _ _ Ht).
    assert (E : find_back_reference t oldTriangle = Some i).
    { unfold find_back_reference.
      assert (Hno : forall j, j < i ->
                (match GetAdjacentTriangle t j with
                 | Some target => Nat.eqb target oldTriangle
                 | None => false
                 end) = false).
      { intros j Hj. apply not_true_iff_false. rewrite Htest. apply Hfirst, Hj. }
      apply Htest in Hadj.
      destruct i as [|[|[|i]]]; [| | |lia]; cbn [List.find].
      - rewrite Hadj. reflexivity.
      - rewrite (Hno 0), Hadj by lia. reflexivity.
      - rewrite (Hno 0), (Hno 1), Hadj by lia. reflexivity. }
    rewrite E. unfold SetAdjacentTriangle, update. rewrite Ht. reflexivity.
Qed.

(** ** The arrangement of the corners *)

(** What [ArrangeCorners] promises about its output parameters: the indices
    of each triangle are the three subscripts [0], [1], [2]; the two shared
    corners are the same vertex object, at the same position, in both
    triangles; the disjoint corners are two different objects at different
    positions; and the first triangle lists first shared corner, second shared
    corner, disjoint corner in clockwise order. *)
Definition arrangement_contract (first second : AdvancedTriangle) (a : Arrangement) : Prop :=
  let sc1 := sharedCornerIndices1 a in
  let sc2 := sharedCornerIndices2 a in
  let dc := disjointCornerIndices a in
  (fst sc1 < 3 /\ fst sc2 < 3 /\ fst dc < 3
   /\ fst sc1 <> fst sc2 /\ fst sc1 <> fst dc /\ fst sc2 <> fst dc)
  /\ (snd sc1 < 3 /\ snd sc2 < 3 /\ snd dc < 3
      /\ snd sc1 <> snd sc2 /\ snd sc1 <> snd dc /\ snd sc2 <> snd dc)
  /\ (same_object (corner first (fst sc1)) (corner second (snd sc1)) = true
      /\ veq (At first (fst sc1)) (At second (snd sc1)) = true)
  /\ (same_object (corner first (fst sc2)) (corner second (snd sc2)) = true
      /\ veq (At first (fst sc2)) (At second (snd sc2)) = true)
  /\ (same_object (corner first (fst dc)) (corner second (snd dc)) = false
      /\ veq (At first (fst dc)) (At second (snd dc)) = false)
  /\ ClockwiseOrientation (At first (fst sc1)) (At first (fst sc2)) (At first (fst dc)) = true.

Lemma ClockwiseOrientation_swap p q r :
  ClockwiseOrientation p q r = false -> ClockwiseOrientation q p r = true.
Proof.
  rewrite ClockwiseOrientation_false, ClockwiseOrientation_true, !turn_unfold.
  destruct p, q, r. cbn [sf.x sf.y]. intros H. lra.
Qed.

Lemma fill_corner_contract tf ts j a0 n :
  j < 3 ->
  Nat.eqb (accumulate (map (corner_match tf ts j) [0; 1; 2])) 2 = true ->
  fold_left (fill_corner tf ts j) [0; 1; 2]
    (Some (mkArrangement (0, 0) (0, 0) (0, 0), 0)) = Some (a0, n) ->
  arrangement_contract tf ts (orient_shared tf a0).
Proof.
  intros Hj Hacc Hfill.
  destruct j as [|[|[|j]]]; [| | |lia];
    cbn [map accumulate fold_left] in Hacc, Hfill;
    unfold fill_corner in Hacc, Hfill;
    cbn [Nat.modulo Nat.add Nat.sub Nat.eqb Nat.divmod fst snd] in Hacc, Hfill;
    repeat match type of Hfill with
      | context [if corner_match ?a ?b ?c ?d then _ else _] =>
          destruct (corner_match a b c d) eqn:?
      | context [if same_object ?a ?b then _ else _] =>
          destruct (same_object a b) eqn:?
      end;
    cbn [Nat.eqb sharedCornerIndices1 sharedCornerIndices2 disjointCornerIndices] in Hfill;
    try discriminate; cbn in Hacc; try discriminate;
    injection Hfill as <- <-;
    unfold corner_match in *;
    cbn [Nat.modulo Nat.add Nat.sub Nat.divmod fst snd] in *;
    unfold arrangement_contract, orient_shared;
    cbn [sharedCornerIndices1 sharedCornerIndices2 disjointCornerIndices fst snd];
    match goal with |- context [if ?b then _ else _] => destruct b eqn:Hcw end;
    cbn [sharedCornerIndices1 sharedCornerIndices2 disjointCornerIndices fst snd];
    try apply ClockwiseOrientation_swap in Hcw;
    repeat split; try lia; assumption.
Qed.

Lemma ArrangeCorners_from_contract tf ts js a :
  Forall (fun j => j < 3) js ->
  ArrangeCorners_from tf ts js = Some a ->
  arrangement_contract tf ts a.
Proof.
  intros Hjs Ha. induction Hjs as [|j js Hj Hjs IH]; [discriminate|].
  cbn [ArrangeCorners_from] in Ha.
  destruct (Nat.eqb (accumulate _) 2) eqn:Hacc; [|apply IH, Ha].
  destruct (fold_left _ _ _) as [[a0 n]|] eqn:Hfill; [|discriminate].
  injection Ha as <-. eapply fill_corner_contract; eauto.
Qed.



Lemma veq_refl p : veq p p = true.
Proof. apply veq_iff. split; reflexivity. Qed.

Lemma veq_sym p q : veq p q = veq q p.
Proof.
  apply eq_true_iff_eq. rewrite !veq_iff. split; intros [Hx Hy]; split; symmetry; assumption.
Qed.

Lemma ArrangeCorners_self t : ArrangeCorners t t = None.
Proof.
  unfold ArrangeCorners. cbn [ArrangeCorners_from map].
  unfold corner_match. cbn [Nat.modulo Nat.add Nat.sub Nat.divmod fst snd].
  rewrite !veq_refl.
  rewrite (veq_sym (At t 2) (At t 0)), (veq_sym (At t 2) (At t 1)),
    (veq_sym (At t 1) (At t 0)).
  destruct (veq (At t 0) (At t 2)), (veq (At t 1) (At t 2)), (veq (At t 0) (At t 1));
    reflexivity.
Qed.

(** X11.  [ArrangeCorners] fails its last assertion on two triangles that have
    no corner position in common, and on any triangle taken twice: a triangle
    is never arranged with itself, whatever its corners are. *)
Theorem ArrangeCorners_rejects_non_adjacent :
  (forall t, ArrangeCorners t t = None)
  /\ (forall first second,
        (forall i k, i < 3 -> k < 3 -> veq (At first i) (At second k) = false) ->
        ArrangeCorners first second = None).
Proof.
  split; [exact ArrangeCorners_self|].
  intros first second Hno. unfold ArrangeCorners. cbn [ArrangeCorners_from map].
  unfold corner_match. cbn [Nat.modulo Nat.add Nat.sub Nat.divmod fst snd].
  rewrite !Hno by lia. reflexivity.
Qed.

(** ** The two circumcircle tests of the repair *)

(** The test on the circumcircle of the one triangle and the test on the
    circumcircle of the other look at the same determinant. *)
Lemma incircle_symmetric (ax ay bx by_ cx cy dx dy mx my r nx ny s : Q) :
  ((ax - mx) * (ax - mx) + (ay - my) * (ay - my) == r)%Q ->
  ((bx - mx) * (bx - mx) + (by_ - my) * (by_ - my) == r)%Q ->
  ((cx - mx) * (cx - mx) + (cy - my) * (cy - my) == r)%Q ->
  ((ax - nx) * (ax - nx) + (ay - ny) * (ay - ny) == s)%Q ->
  ((bx - nx) * (bx - nx) + (by_ - ny) * (by_ - ny) == s)%Q ->
  ((dx - nx) * (dx - nx) + (dy - ny) * (dy - ny) == s)%Q ->
  ((bx - ax) * (cy - ay) - (by_ - ay) * (cx - ax) < 0)%Q ->
  ((ax - bx) * (dy - by_) - (ay - by_) * (dx - bx) < 0)%Q ->
  ((dx - mx) * (dx - mx) + (dy - my) * (dy - my) < r
   <-> (cx - nx) * (cx - nx) + (cy - ny) * (cy - ny) < s)%Q.
Proof.
  intros A1 B1 C1 A2 B2 D2 T1 T2.
  set (tABC := ((bx - ax) * (cy - ay) - (by_ - ay) * (cx - ax))%Q) in *.
  set (tBAD := ((ax - bx) * (dy - by_) - (ay - by_) * (dx - bx))%Q) in *.
  set (tDBC := ((bx - dx) * (cy - dy) - (by_ - dy) * (cx - dx))%Q).
  set (tADC := ((dx - ax) * (cy - ay) - (dy - ay) * (cx - ax))%Q).
  set (X := ((dx - mx) * (dx - mx) + (dy - my) * (dy - my) - r)%Q).
  set (Y := ((cx - nx) * (cx - nx) + (cy - ny) * (cy - ny) - s)%Q).
  set (Det := (tABC * (dx * dx + dy * dy) - tDBC * (ax * ax + ay * ay)
             - tADC * (bx * bx + by_ * by_) + tBAD * (cx * cx + cy * cy))%Q).
  assert (ZA1 : ((ax - mx) * (ax - mx) + (ay - my) * (ay - my) - r == 0)%Q) by lra.
  assert (ZB1 : ((bx - mx) * (bx - mx) + (by_ - my) * (by_ - my) - r == 0)%Q) by lra.
  assert (ZC1 : ((cx - mx) * (cx - mx) + (cy - my) * (cy - my) - r == 0)%Q) by lra.
  assert (ZA2 : ((ax - nx) * (ax - nx) + (ay - ny) * (ay - ny) - s == 0)%Q) by lra.
  assert (ZB2 : ((bx - nx) * (bx - nx) + (by_ - ny) * (by_ - ny) - s == 0)%Q) by lra.
  assert (ZD2 : ((dx - nx) * (dx - nx) + (dy - ny) * (dy - ny) - s == 0)%Q) by lra.
  assert (E1 : (tABC * X == Det)%Q).
  { transitivity
      (Det + tDBC * ((ax - mx) * (ax - mx) + (ay - my) * (ay - my) - r)
         + tADC * ((bx - mx) * (bx - mx) + (by_ - my) * (by_ - my) - r)
         - tBAD * ((cx - mx) * (cx - mx) + (cy - my) * (cy - my) - r))%Q.
    - subst X Det tABC tBAD tDBC tADC. ring.
    - rewrite ZA1, ZB1, ZC1. ring. }
  assert (E2 : (tBAD * Y == Det)%Q).
  { transitivity
      (Det + tDBC * ((ax - nx) * (ax - nx) + (ay - ny) * (ay - ny) - s)
         + tADC * ((bx - nx) * (bx - nx) + (by_ - ny) * (by_ - ny) - s)
         - tABC * ((dx - nx) * (dx - nx) + (dy - ny) * (dy - ny) - s))%Q.
    - subst Y Det tABC tBAD tDBC tADC. ring.
    - rewrite ZA2, ZB2, ZD2. ring. }
  assert (HX : ((dx - mx) * (dx - mx) + (dy - my) * (dy - my) < r <-> X < 0)%Q)
    by (subst X; split; intros; lra).
  assert (HY : ((cx - nx) * (cx - nx) + (cy - ny) * (cy - ny) < s <-> Y < 0)%Q)
    by (subst Y; split; intros; lra).
  rewrite HX, HY. clearbody X Y Det tABC tBAD. clear - T1 T2 E1 E2.
  assert (Hsign : forall t z i : Q, (t < 0)%Q -> (t * z == i)%Q -> (z < 0 <-> 0 < i)%Q).
  { intros t z i Ht E. split; intros H.
    - assert (Hpos : (0 < (- t) * (- z))%Q) by (apply Qmult_lt_0_compat; lra).
      assert (Heq : ((- t) * (- z) == t * z)%Q) by ring.
      rewrite <- E, <- Heq. exact Hpos.
    - destruct (Qlt_le_dec z 0) as [|Hz]; [assumption|]. exfalso.
      assert (Hnn : (0 <= (- t) * z)%Q) by (apply Qmult_le_0_compat; lra).
      assert (Heq : ((- t) * z == - (t * z))%Q) by ring.
      rewrite Heq, E in Hnn. lra. }
  rewrite (Hsign _ _ _ T1 E1), (Hsign _ _ _ T2 E2). reflexivity.
Qed.

Lemma circle_through_any_corner t mid r i :
  circle_through_corners t mid r -> i < 3 -> (SquaredLength (At t i - mid) == r)%Q.
Proof.
  intros (H0 & H1 & H2) Hi. destruct i as [|[|[|i]]]; [assumption..|lia].
Qed.

Lemma SquaredLength_unfold p mid :
  SquaredLength (p - mid)
  = ((sf.x p - sf.x mid) * (sf.x p - sf.x mid) + (sf.y p - sf.y mid) * (sf.y p - sf.y mid))%Q.
Proof. reflexivity. Qed.



(** ** The triangle of the dummy vertices *)


(** ** Corners at the boundary *)

Lemma same_object_sym a b : same_object a b = same_object b a.
Proof. apply Nat.eqb_sym. Qed.

(** X14.  [Has1Of3Corners] tells whether one of the corners of the triangle is
    one of the first three vertices of the container, as objects: it is the
    disjunction of [ContainsVertex], the test that [SharedBoundary] and
    [DisjointBoundary] use, over the three corners, and vertices of the
    container beyond the third play no part. *)
Theorem Has1Of3Corners_is_ContainsVertex
    (triangle : AdvancedTriangle) (c0 c1 c2 : Vertex) (others : list Vertex) :
  Has1Of3Corners triangle (c0 :: c1 :: c2 :: others)
  = Some (ContainsVertex [c0; c1; c2] (corner triangle 0)
          || ContainsVertex [c0; c1; c2] (corner triangle 1)
          || ContainsVertex [c0; c1; c2] (corner triangle 2))
  /\ (Has1Of3Corners triangle (c0 :: c1 :: c2 :: others) = Some true <->
      exists i c, i < 3 /\ In c [c0; c1; c2] /\ addr (corner triangle i) = addr c).
Proof.
  assert (Hbool : HasCorner triangle c0 || HasCorner triangle c1 || HasCorner triangle c2
                  = ContainsVertex [c0; c1; c2] (corner triangle 0)
                    || ContainsVertex [c0; c1; c2] (corner triangle 1)
                    || ContainsVertex [c0; c1; c2] (corner triangle 2)).
  { unfold HasCorner, ContainsVertex. cbn [existsb].
    rewrite !(same_object_sym c0), !(same_object_sym c1), !(same_object_sym c2).
    destruct (same_object (corner triangle 0) c0), (same_object (corner triangle 0) c1),
      (same_object (corner triangle 0) c2), (same_object (corner triangle 1) c0),
      (same_object (corner triangle 1) c1), (same_object (corner triangle 1) c2),
      (same_object (corner triangle 2) c0), (same_object (corner triangle 2) c1),
      (same_object (corner triangle 2) c2); reflexivity. }
  cbn [Has1Of3Corners]. split; [rewrite Hbool; reflexivity|].
  split.
  - intros [= H]. unfold HasCorner in H. rewrite !orb_true_iff in H.
    unfold same_object in H. rewrite !Nat.eqb_eq in H.
    repeat (destruct H as [H|H]);
      first [ exists 0, c0; split; [lia|]; split; [cbn; tauto | exact H]
            | exists 1, c0; split; [lia|]; split; [cbn; tauto | exact H]
            | exists 2, c0; split; [lia|]; split; [cbn; tauto | exact H]
            | exists 0, c1; split; [lia|]; split; [cbn; tauto | exact H]
            | exists 1, c1; split; [lia|]; split; [cbn; tauto | exact H]
            | exists 2, c1; split; [lia|]; split; [cbn; tauto | exact H]
            | exists 0, c2; split; [lia|]; split; [cbn; tauto | exact H]
            | exists 1, c2; split; [lia|]; split; [cbn; tauto | exact H]
            | exists 2, c2; split; [lia|]; split; [cbn; tauto | exact H] ].
  - intros (i & c & Hi & Hc & E). f_equal. unfold HasCorner, same_object.
    rewrite !orb_true_iff, !Nat.eqb_eq.
    destruct Hc as [<-|[<-|[<-|[]]]]; destruct i as [|[|[|i]]]; try lia; tauto.
Qed.

(** ** Corners and flags of the triangles of the list *)

(** What a triangle keeps while its adjacents and its remaining vertices
    change: its corners and its flag. *)
Definition shape (t : AdvancedTriangle) : array3 Vertex * bool := (mCorners t, mFlagged t).

(** The two meshes hold the same handles, with the same corners and flags. *)
Definition same_shape (m m' : Mesh) : Prop :=
  nextIterator m' = nextIterator m
  /\ forall h, shape <$> triangles m' !! h = shape <$> triangles m !! h.

(** A command that neither inserts nor erases nor flags a triangle, whatever
    its outcome. *)
Definition quiet {A} (c : Cmd A) : Prop := forall m, same_shape m (mesh_of (c m)).

Lemma same_shape_refl m : same_shape m m.
Proof. split; reflexivity. Qed.

Lemma same_shape_trans m1 m2 m3 : same_shape m1 m2 -> same_shape m2 m3 -> same_shape m1 m3.
Proof.
  intros [N12 S12] [N23 S23]. split; [congruence|]. intros h. rewrite S23. apply S12.
Qed.

Lemma quiet_ret {A} (a : A) : quiet (ret a).
Proof. intros m. apply same_shape_refl. Qed.

Lemma quiet_stop {A} e : quiet (@stop A e).
Proof. intros m. apply same_shape_refl. Qed.

Lemma quiet_bind {A B} (c : Cmd A) (k : A -> Cmd B) :
  quiet c -> (forall a, quiet (k a)) -> quiet (bind c k).
Proof.
  intros Hc Hk m. unfold bind. specialize (Hc m).
  destruct (c m) as [a m1|e m1]; cbn in Hc.
  - eapply same_shape_trans; [exact Hc | apply Hk].
  - exact Hc.
Qed.

Lemma quiet_assert b : quiet (assert b).
Proof. destruct b; [apply quiet_ret | apply quiet_stop]. Qed.

Lemma quiet_asserted o : quiet (asserted o).
Proof. destruct o; [apply quiet_ret | apply quiet_stop]. Qed.

Lemma quiet_deref itr : quiet (deref itr).
Proof. intros m. unfold deref. destruct (_ !! _); apply same_shape_refl. Qed.

Lemma quiet_update itr f :
  (forall t, shape (f t) = shape t) -> quiet (update itr f).
Proof.
  intros Hf m. unfold update. destruct (triangles m !! itr) as [t|] eqn:E;
    [|apply same_shape_refl].
  split; [reflexivity|]. intros h. cbn [mesh_of triangles].
  destruct (decide (itr = h)) as [<-|Hne].
  - rewrite lookup_insert_eq, E. cbn. rewrite Hf. reflexivity.
  - rewrite lookup_insert_ne by exact Hne. reflexivity.
Qed.

Lemma quiet_SetSurroundingTriangle v target : quiet (SetSurroundingTriangle v target).
Proof. intros m. split; reflexivity. Qed.

Lemma quiet_GetSurroundingTriangle v : quiet (GetSurroundingTriangle v).
Proof.
  intros m. unfold GetSurroundingTriangle. destruct (_ !! _); apply same_shape_refl.
Qed.

Lemma quiet_foreach {A} (l : list A) body :
  (forall a, quiet (body a)) -> quiet (foreach l body).
Proof.
  intros Hb. induction l as [|a l IH]; cbn.
  - apply quiet_ret.
  - apply quiet_bind; [apply Hb | intros _; exact IH].
Qed.

Lemma quiet_SetAdjacentTriangle itr index adj : quiet (SetAdjacentTriangle itr index adj).
Proof. apply quiet_update. reflexivity. Qed.

Lemma quiet_AddVertex itr v : quiet (AddVertex itr v).
Proof. apply quiet_update. reflexivity. Qed.

Lemma quiet_with_remaining itr s : quiet (update itr (with_remaining s)).
Proof. apply quiet_update. reflexivity. Qed.

Create HintDb quiet.
#[local] Hint Resolve quiet_ret quiet_stop quiet_assert quiet_asserted quiet_deref
  quiet_SetSurroundingTriangle quiet_GetSurroundingTriangle quiet_SetAdjacentTriangle
  quiet_AddVertex quiet_with_remaining : quiet.

Ltac hush :=
  repeat first
    [ solve [auto with quiet]
    | apply quiet_bind; [|intros ?]
    | apply quiet_foreach; intros ?
    | match goal with
      | |- quiet (if ?b then _ else _) => destruct b
      | |- quiet (match ?x with _ => _ end) => destruct x
      | |- quiet (let '(_, _) := ?x in _) => destruct x
      end ].

Lemma quiet_RemoveVertexItr itr v : quiet (RemoveVertexItr itr v).
Proof. unfold RemoveVertexItr. hush. Qed.

Lemma quiet_RemoveVertex itr v : quiet (RemoveVertex itr v).
Proof. unfold RemoveVertex. hush. Qed.

#[local] Hint Resolve quiet_RemoveVertexItr quiet_RemoveVertex : quiet.

Lemma quiet_TransferVertex source v dest : quiet (TransferVertex source v dest).
Proof. unfold TransferVertex. hush. Qed.

Lemma quiet_UpdateAdjacentBackReferences old new other :
  quiet (UpdateAdjacentBackReferences old new other).
Proof. unfold UpdateAdjacentBackReferences. hush. Qed.

#[local] Hint Resolve quiet_TransferVertex quiet_UpdateAdjacentBackReferences : quiet.

Lemma quiet_UpdateAdjacentRelation old oldIndex new newIndex :
  quiet (UpdateAdjacentRelation old oldIndex new newIndex).
Proof. unfold UpdateAdjacentRelation. hush. Qed.

Lemma quiet_InitializeAdjacents newTriangles index old :
  quiet (InitializeAdjacents newTriangles index old).
Proof. unfold InitializeAdjacents. hush. Qed.

Lemma quiet_TransferVertices2 oldFirst oldSecond newFirst newSecond dc :
  quiet (TransferVertices2 oldFirst oldSecond newFirst newSecond dc).
Proof. unfold TransferVertices2, TransferVertices2Impl. hush. Qed.

Lemma quiet_TransferVertices3 oldItr newTriangles v :
  quiet (TransferVertices3 oldItr newTriangles v).
Proof. unfold TransferVertices3, TransferVertices3_body. hush. Qed.

#[local] Hint Resolve quiet_UpdateAdjacentRelation quiet_InitializeAdjacents
  quiet_TransferVertices2 quiet_TransferVertices3 : quiet.

(** The list as the repair leaves it: nothing is erased, no corner moves, no
    flag is cleared, and the new triangles have new handles. *)
Definition evolves (m m' : Mesh) : Prop :=
  handles_fresh m ->
  handles_fresh m'
  /\ nextIterator m <= nextIterator m'
  /\ (forall h t, triangles m !! h = Some t ->
        exists t', triangles m' !! h = Some t'
                   /\ mCorners t' = mCorners t
                   /\ (IsFlagged t = true -> IsFlagged t' = true))
  /\ (forall h, h < nextIterator m -> is_Some (triangles m' !! h) ->
        is_Some (triangles m !! h)).

Definition steady {A} (c : Cmd A) : Prop := forall m, evolves m (mesh_of (c m)).

Lemma same_shape_lookup m m' h t :
  same_shape m m' -> triangles m !! h = Some t ->
  exists t', triangles m' !! h = Some t' /\ shape t' = shape t.
Proof.
  intros [_ S] Ht. specialize (S h). rewrite Ht in S.
  destruct (triangles m' !! h) as [t'|]; [|discriminate].
  exists t'. split; [reflexivity|]. cbn in S. congruence.
Qed.

Lemma same_shape_sym m m' : same_shape m m' -> same_shape m' m.
Proof. intros [N S]. split; [congruence|]. intros h. symmetry. apply S. Qed.

Lemma same_shape_evolves m m' : same_shape m m' -> evolves m m'.
Proof.
  intros Hs Hf. pose proof Hs as [N S]. split; [|split; [|split]].
  - intros h t' Ht'.
    destruct (same_shape_lookup m' m h t' (same_shape_sym _ _ Hs) Ht') as (t & Ht & _).
    rewrite N. eapply Hf, Ht.
  - lia.
  - intros h t Ht. destruct (same_shape_lookup m m' h t Hs Ht) as (t' & Ht' & E).
    exists t'. split; [exact Ht'|]. unfold shape in E. injection E as E1 E2.
    split; [exact E1|]. unfold IsFlagged. congruence.
  - intros h _ [t' Ht'].
    destruct (same_shape_lookup m' m h t' (same_shape_sym _ _ Hs) Ht') as (t & Ht & _).
    eauto.
Qed.

Lemma evolves_refl m : evolves m m.
Proof. apply same_shape_evolves, same_shape_refl. Qed.

Lemma evolves_trans m1 m2 m3 : evolves m1 m2 -> evolves m2 m3 -> evolves m1 m3.
Proof.
  intros H12 H23 H1. destruct (H12 H1) as (H2 & N12 & K12 & B12).
  destruct (H23 H2) as (H3 & N23 & K23 & B23).
  split; [exact H3|]. split; [lia|]. split.
  - intros h t Ht. destruct (K12 h t Ht) as (t2 & Ht2 & C2 & F2).
    destruct (K23 h t2 Ht2) as (t3 & Ht3 & C3 & F3).
    exists t3. split; [exact Ht3|]. split; [congruence | auto].
  - intros h Hh H3h. apply B12; [exact Hh|]. apply B23; [lia | exact H3h].
Qed.

Lemma steady_quiet {A} (c : Cmd A) : quiet c -> steady c.
Proof. intros Hq m. apply same_shape_evolves, Hq. Qed.

Lemma steady_bind {A B} (c : Cmd A) (k : A -> Cmd B) :
  steady c -> (forall a, steady (k a)) -> steady (bind c k).
Proof.
  intros Hc Hk m. unfold bind. specialize (Hc m).
  destruct (c m) as [a m1|e m1]; cbn in Hc.
  - eapply evolves_trans; [exact Hc | apply Hk].
  - exact Hc.
Qed.

Lemma steady_InsertTriangle c0 c1 c2 : steady (InsertTriangle c0 c1 c2).
Proof.
  intros m Hf. cbn [mesh_of InsertTriangle triangles nextIterator].
  split; [|split; [lia|split]].
  - intros h t Hh. cbn [triangles nextIterator] in *.
    destruct (decide (nextIterator m = h)) as [<-|Hne]; [lia|].
    rewrite lookup_insert_ne in Hh by exact Hne. apply Hf in Hh. lia.
  - intros h t Ht. exists t. pose proof (Hf h t Ht) as Hlt.
    rewrite lookup_insert_ne by lia. auto.
  - intros h Hh. rewrite lookup_insert_ne by lia. trivial.
Qed.

Lemma steady_Flag itr : steady (Flag itr).
Proof.
  intros m. unfold Flag, update. destruct (triangles m !! itr) as [t|] eqn:E;
    [|apply evolves_refl].
  intros Hf. cbn [mesh_of triangles nextIterator]. split; [|split; [lia|split]].
  - intros h t' Hh. cbn [triangles nextIterator] in *.
    destruct (decide (itr = h)) as [<-|Hne]; [eapply Hf, E|].
    rewrite lookup_insert_ne in Hh by exact Hne. eapply Hf, Hh.
  - intros h t0 Ht0. destruct (decide (itr = h)) as [<-|Hne].
    + rewrite lookup_insert_eq. eexists. split; [reflexivity|].
      rewrite E in Ht0. injection Ht0 as <-. split; reflexivity.
    + rewrite lookup_insert_ne by exact Hne. exists t0. auto.
  - intros h _. destruct (decide (itr = h)) as [<-|Hne]; [rewrite E; eauto|].
    rewrite lookup_insert_ne by exact Hne. trivial.
Qed.

Lemma steady_FlipEdges oldFirst oldSecond a : steady (FlipEdges oldFirst oldSecond a).
Proof.
  unfold FlipEdges. cbv zeta.
  apply steady_bind; [apply steady_quiet, quiet_deref | intros tf].
  apply steady_bind; [apply steady_quiet, quiet_deref | intros ts].
  apply steady_bind; [apply steady_InsertTriangle | intros newFirst].
  apply steady_bind; [apply steady_InsertTriangle | intros newSecond].
  do 7 (apply steady_bind; [apply steady_quiet; auto with quiet | intros _]).
  apply steady_bind; [apply steady_Flag | intros _].
  apply steady_bind; [apply steady_Flag | intros _].
  apply steady_quiet, quiet_ret.
Qed.

Section RepairIsSteady.
Variable Intersect : AdvancedEdge -> AdvancedEdge -> bool.

Lemma steady_EnsureLocalDelaunayAdjacent recur triangleItr adjacentIndex :
  (forall x y, steady (recur x y)) ->
  steady (EnsureLocalDelaunayAdjacent recur triangleItr adjacentIndex).
Proof.
  intros Hr. unfold EnsureLocalDelaunayAdjacent.
  apply steady_bind; [apply steady_quiet, quiet_deref | intros t].
  destruct (GetAdjacentTriangle t adjacentIndex); [apply Hr | apply steady_quiet, quiet_ret].
Qed.

Lemma steady_ChangeEdgeSituation recur first second a :
  (forall x y, steady (recur x y)) ->
  steady (ChangeEdgeSituation recur first second a).
Proof.
  intros Hr. unfold ChangeEdgeSituation.
  apply steady_bind; [apply steady_FlipEdges | intros newTriangles].
  repeat (apply steady_bind; [apply steady_EnsureLocalDelaunayAdjacent, Hr | intros _]).
  apply steady_quiet, quiet_ret.
Qed.

Lemma steady_EnsureLocalDelaunay_body recur bv ce first second :
  (forall x y, steady (recur x y)) ->
  steady (EnsureLocalDelaunay_body Intersect recur bv ce first second).
Proof.
  intros Hr. unfold EnsureLocalDelaunay_body.
  assert (Hret : forall b : bool, steady (ret b))
    by (intros b; apply steady_quiet, quiet_ret).
  assert (Hstop : forall e, steady (@stop bool e))
    by (intros e; apply steady_quiet, quiet_stop).
  apply steady_bind; [apply steady_quiet, quiet_deref | intros tf].
  destruct (IsFlagged tf); [apply Hret|].
  apply steady_bind; [apply steady_quiet, quiet_deref | intros ts].
  destruct (IsFlagged ts); [apply Hret|].
  destruct (ArrangeCorners tf ts) as [a|]; [|apply Hstop]. cbv zeta.
  destruct (_ && negb _); [apply Hret|].
  destruct (_ && negb _).
  - destruct (quadrilateral_refused tf ts a); [apply Hret|].
    apply steady_bind; [apply steady_ChangeEdgeSituation, Hr | intros _; apply Hret].
  - destruct (ComputeCircumcircle tf); [|apply Hstop].
    destruct (ComputeCircumcircle ts); [|apply Hstop].
    destruct (_ && _); [|apply Hret].
    apply steady_bind; [apply steady_ChangeEdgeSituation, Hr | intros _; apply Hret].
Qed.

Lemma steady_EnsureLocalDelaunay fuel bv ce first second :
  steady (EnsureLocalDelaunay Intersect fuel bv ce first second).
Proof.
  revert first second. induction fuel as [|fuel IH]; intros first second; cbn.
  - apply steady_quiet, quiet_stop.
  - apply steady_EnsureLocalDelaunay_body, IH.
Qed.

End RepairIsSteady.

(** X15.  [EnsureLocalDelaunay] invalidates no iterator: whatever its outcome,
    every triangle of the list is still in the list under its handle, with
    the corners it had, and a triangle that was flagged is still flagged.  The
    flipped triangles are flagged, not erased; the triangles that are added
    have handles that were not in use. *)
Theorem EnsureLocalDelaunay_keeps_iterators_valid
    (Intersect : AdvancedEdge -> AdvancedEdge -> bool) (fuel : nat)
    (boundaryVertices : list Vertex) (constrainedEdges : EdgeSet)
    (first second : TriangleIterator) (m : Mesh) :
  handles_fresh m ->
  let m' := mesh_of (EnsureLocalDelaunay Intersect fuel boundaryVertices constrainedEdges
                       first second m) in
  (forall h t, triangles m !! h = Some t ->
     exists t', triangles m' !! h = Some t'
                /\ mCorners t' = mCorners t
                /\ (IsFlagged t = true -> IsFlagged t' = true))
  /\ (forall h, is_Some (triangles m' !! h) ->
        is_Some (triangles m !! h) \/ nextIterator m <= h).
Proof.
  intros Hf m'.
  destruct (steady_EnsureLocalDelaunay Intersect fuel boundaryVertices constrainedEdges
              first second m Hf) as (_ & _ & Hkeep & Hback).
  split; [exact Hkeep|].
  intros h Hh. destruct (Nat.lt_ge_cases h (nextIterator m)) as [Hlt|Hge]; [|now right].
  left. apply Hback; assumption.
Qed.

Lemma EnsureLocalDelaunay_keeps_iterators_valid_witness :
  let m' := mesh_of (EnsureLocalDelaunay no_intersection 3 [] [] 0 1 kite) in
  (forall h t, triangles kite !! h = Some t ->
     exists t', triangles m' !! h = Some t'
                /\ mCorners t' = mCorners t
                /\ (IsFlagged t = true -> IsFlagged t' = true))
  /\ (forall h, is_Some (triangles m' !! h) ->
        is_Some (triangles kite !! h) \/ nextIterator kite <= h).
Proof.
  apply (EnsureLocalDelaunay_keeps_iterators_valid no_intersection 3 [] [] 0 1 kite).
  exact handles_fresh_kite.
Defined.

(** ** Counting the triangles *)

Lemma quiet_Returns {A} (c : Cmd A) m a m' :
  quiet c -> c m = Returns a m' -> same_shape m m'.
Proof. intros Hq H. specialize (Hq m). rewrite H in Hq. exact Hq. Qed.

Lemma same_shape_maps m m' :
  same_shape m m' -> shape <$> triangles m' = shape <$> triangles m.
Proof. intros [_ S]. apply map_eq. intros h. rewrite !lookup_fmap. apply S. Qed.

Lemma same_shape_size m m' : same_shape m m' -> size (triangles m') = size (triangles m).
Proof.
  intros Hs. rewrite <- (map_size_fmap shape (triangles m')), (same_shape_maps _ _ Hs).
  apply map_size_fmap.
Qed.

Lemma unflagged_count_shape m :
  unflagged_count m
  = size (filter (fun ks : nat * (array3 Vertex * bool) => snd (snd ks) = false)
            (shape <$> triangles m)).
Proof.
  unfold unflagged_count. rewrite map_filter_fmap, map_size_fmap.
  apply (f_equal size). apply map_filter_ext. intros i x _. reflexivity.
Qed.

Lemma same_shape_unflagged_count m m' :
  same_shape m m' -> unflagged_count m' = unflagged_count m.
Proof.
  intros Hs. rewrite !unflagged_count_shape, (same_shape_maps _ _ Hs). reflexivity.
Qed.

Lemma handles_fresh_next m : handles_fresh m -> triangles m !! nextIterator m = None.
Proof.
  intros Hf. destruct (triangles m !! nextIterator m) as [t|] eqn:E; [|reflexivity].
  apply Hf in E. lia.
Qed.

Lemma InsertTriangle_run c0 c1 c2 m n m' :
  handles_fresh m ->
  InsertTriangle c0 c1 c2 m = Returns n m' ->
  n = nextIterator m
  /\ nextIterator m' = S (nextIterator m)
  /\ handles_fresh m'
  /\ (forall h, triangles m' !! h
                = if decide (h = nextIterator m) then Some (newAdvancedTriangle c0 c1 c2)
                  else triangles m !! h)
  /\ size (triangles m') = S (size (triangles m))
  /\ unflagged_count m' = S (unflagged_count m).
Proof.
  intros Hf [= <- <-]. cbn [nextIterator triangles].
  pose proof (handles_fresh_next m Hf) as Hnone.
  split; [reflexivity|]. split; [reflexivity|]. split; [|split; [|split]].
  - intros h t Hh. cbn [triangles nextIterator] in *.
    destruct (decide (nextIterator m = h)) as [<-|Hne]; [lia|].
    rewrite lookup_insert_ne in Hh by exact Hne. apply Hf in Hh. lia.
  - intros h. destruct (decide (h = nextIterator m)) as [->|Hne].
    + apply lookup_insert_eq.
    + apply lookup_insert_ne. congruence.
  - apply size_insert_None, Hnone.
  - unfold unflagged_count. cbn [triangles].
    rewrite map_filter_insert_True by reflexivity.
    apply size_insert_None. apply map_lookup_filter_None. left. exact Hnone.
Qed.

Lemma update_run itr f m m' :
  update itr f m = Returns tt m' ->
  nextIterator m' = nextIterator m
  /\ (exists t, triangles m !! itr = Some t
                /\ m' = mkMesh (<[itr := f t]> (triangles m)) (nextIterator m) (surrounding m))
  /\ (forall h, triangles m' !! h
                = if decide (h = itr) then f <$> triangles m !! h else triangles m !! h)
  /\ size (triangles m') = size (triangles m).
Proof.
  intros H. apply update_inv in H as (t & Ht & ->). cbn [nextIterator triangles].
  split; [reflexivity|]. split; [eauto|]. split.
  - intros h. destruct (decide (h = itr)) as [->|Hne].
    + rewrite lookup_insert_eq, Ht. reflexivity.
    + apply lookup_insert_ne. congruence.
  - eapply size_insert_Some, Ht.
Qed.

(** What [FlipEdges] leaves when it returns. *)
Lemma FlipEdges_run oldFirst oldSecond a m p m' tf ts :
  handles_fresh m ->
  triangles m !! oldFirst = Some tf ->
  triangles m !! oldSecond = Some ts ->
  FlipEdges oldFirst oldSecond a m = Returns p m' ->
  p = (nextIterator m, S (nextIterator m))
  /\ nextIterator m' = S (S (nextIterator m))
  /\ handles_fresh m'
  /\ (exists t1, triangles m' !! nextIterator m = Some t1
        /\ shape t1 = (mkArray3 (corner tf (fst (sharedCornerIndices1 a)))
                                (corner ts (snd (disjointCornerIndices a)))
                                (corner tf (fst (disjointCornerIndices a))), false)
        /\ GetAdjacentTriangle t1 0 = Some (S (nextIterator m)))
  /\ (exists t2, triangles m' !! S (nextIterator m) = Some t2
        /\ shape t2 = (mkArray3 (corner ts (snd (sharedCornerIndices2 a)))
                                (corner tf (fst (disjointCornerIndices a)))
                                (corner ts (snd (disjointCornerIndices a))), false)
        /\ GetAdjacentTriangle t2 0 = Some (nextIterator m))
  /\ (forall h, h = oldFirst \/ h = oldSecond ->
        exists t t', triangles m !! h = Some t /\ triangles m' !! h = Some t'
                     /\ mCorners t' = mCorners t /\ IsFlagged t' = true)
  /\ (forall h, h <> oldFirst -> h <> oldSecond -> h < nextIterator m ->
        shape <$> triangles m' !! h = shape <$> triangles m !! h)
  /\ size (triangles m') = S (S (size (triangles m)))
  /\ (IsFlagged tf = false -> IsFlagged ts = false -> oldFirst <> oldSecond ->
      unflagged_count m' = unflagged_count m).
Proof.
  intros Hf Htf Hts H.
  pose proof (steady_FlipEdges oldFirst oldSecond a m Hf) as (Hf' & _). rewrite H in Hf'.
  cbn [mesh_of] in Hf'.
  unfold FlipEdges in H. cbv zeta in H.
  rewrite (bind_deref _ _ _ _ Htf), (bind_deref _ _ _ _ Hts) in H.
  apply bind_inv in H as (nF & m1 & HI1 & H).
  apply bind_inv in H as (nS & m2 & HI2 & H).
  apply bind_inv in H as ([] & m3 & HT & H).
  apply bind_inv in H as ([] & m4 & HU1 & H).
  apply bind_inv in H as ([] & m5 & HU2 & H).
  apply bind_inv in H as ([] & m6 & HU3 & H).
  apply bind_inv in H as ([] & m7 & HU4 & H).
  apply bind_inv in H as ([] & m8 & HW1 & H).
  apply bind_inv in H as ([] & m9 & HW2 & H).
  apply bind_inv in H as ([] & m10 & HF1 & H).
  apply bind_inv in H as ([] & m11 & HF2 & H).
  injection H as <- <-.
  destruct (InsertTriangle_run _ _ _ _ _ _ Hf HI1) as (-> & N1 & Hf1 & L1 & Z1 & C1).
  destruct (InsertTriangle_run _ _ _ _ _ _ Hf1 HI2) as (-> & N2 & Hf2 & L2 & Z2 & C2).
  rewrite N1 in *.
  set (n := nextIterator m) in *.
  assert (Q27 : same_shape m2 m7).
  { eapply same_shape_trans; [eapply quiet_Returns, HT; auto with quiet|].
    eapply same_shape_trans; [eapply quiet_Returns, HU1; auto with quiet|].
    eapply same_shape_trans; [eapply quiet_Returns, HU2; auto with quiet|].
    eapply same_shape_trans; [eapply quiet_Returns, HU3; auto with quiet|].
    eapply quiet_Returns, HU4; auto with quiet. }
  assert (Q79 : same_shape m7 m9).
  { eapply same_shape_trans; [eapply quiet_Returns, HW1; auto with quiet|].
    eapply quiet_Returns, HW2; auto with quiet. }
  pose proof (same_shape_trans _ _ _ Q27 Q79) as Q29.
  destruct (update_run _ _ _ _ HW1) as (_ & _ & L8 & _).
  destruct (update_run _ _ _ _ HW2) as (_ & _ & L9 & _).
  destruct (update_run _ _ _ _ HF1) as (N10 & (t9 & Ht9 & E10) & L10 & Z10).
  destruct (update_run _ _ _ _ HF2) as (N11 & (t10 & Ht10 & E11) & L11 & Z11).
  assert (HoF : oldFirst < n) by (eapply Hf, Htf).
  assert (HoS : oldSecond < n) by (eapply Hf, Hts).
  assert (Hold : forall h, h < n -> triangles m2 !! h = triangles m !! h).
  { intros h Hh. rewrite L2, L1. rewrite !decide_False by lia. reflexivity. }
  assert (Hnew1 : triangles m2 !! n = Some (newAdvancedTriangle
                    (corner tf (fst (sharedCornerIndices1 a)))
                    (corner ts (snd (disjointCornerIndices a)))
                    (corner tf (fst (disjointCornerIndices a))))).
  { rewrite L2, L1. rewrite decide_False by lia. rewrite decide_True by reflexivity.
    reflexivity. }
  assert (Hnew2 : triangles m2 !! S n = Some (newAdvancedTriangle
                    (corner ts (snd (sharedCornerIndices2 a)))
                    (corner tf (fst (disjointCornerIndices a)))
                    (corner ts (snd (disjointCornerIndices a))))).
  { rewrite L2. rewrite decide_True by reflexivity. reflexivity. }
  assert (Hend : forall h, h <> oldFirst -> h <> oldSecond ->
                   triangles m11 !! h = triangles m9 !! h).
  { intros h H1 H2. rewrite L11, L10. rewrite !decide_False by assumption. reflexivity. }
  split; [reflexivity|]. split; [rewrite N11, N10, (proj1 Q29); exact N2|].
  split; [exact Hf'|]. split; [|split; [|split; [|split; [|split]]]].
  - destruct (same_shape_lookup _ _ _ _ Q27 Hnew1) as (t7 & Ht7 & S7).
    exists (with_adjacent 0 (Some (S n)) t7). split; [|split; [exact S7 | reflexivity]].
    rewrite Hend by lia. rewrite L9, decide_False by lia.
    rewrite L8, decide_True by reflexivity. rewrite Ht7. reflexivity.
  - destruct (same_shape_lookup _ _ _ _ Q27 Hnew2) as (t7 & Ht7 & S7).
    assert (Ht8 : triangles m8 !! S n = Some t7).
    { rewrite L8, decide_False by lia. exact Ht7. }
    exists (with_adjacent 0 (Some n) t7). split; [|split; [exact S7 | reflexivity]].
    rewrite Hend by lia. rewrite L9, decide_True by reflexivity. rewrite Ht8. reflexivity.
  - intros h Hh.
    assert (Hhn : h < n) by (destruct Hh as [->| ->]; assumption).
    assert (Hht : exists t, triangles m !! h = Some t) by (destruct Hh as [->| ->]; eauto).
    destruct Hht as (t & Ht).
    assert (Ht2 : triangles m2 !! h = Some t) by (rewrite Hold by exact Hhn; exact Ht).
    destruct (same_shape_lookup _ _ _ _ Q29 Ht2) as (t' & Ht' & S').
    injection S' as Sc Sf.
    exists t. destruct (decide (h = oldSecond)) as [->|Hne2].
    + rewrite L11, decide_True by reflexivity.
      rewrite L10. destruct (decide (oldSecond = oldFirst)) as [E|Hne1].
      * rewrite Ht'. eexists. split; [exact Ht|]. split; [reflexivity|].
        split; [exact Sc | reflexivity].
      * rewrite Ht'. eexists. split; [exact Ht|]. split; [reflexivity|].
        split; [exact Sc | reflexivity].
    + destruct Hh as [->|Hh]; [|contradiction].
      rewrite L11, decide_False by exact Hne2. rewrite L10, decide_True by reflexivity.
      rewrite Ht'. eexists. split; [exact Ht|]. split; [reflexivity|].
      split; [exact Sc | reflexivity].
  - intros h H1 H2 Hh. rewrite Hend by assumption.
    rewrite (proj2 Q29). rewrite Hold by exact Hh. reflexivity.
  - rewrite Z11, Z10, (same_shape_size _ _ Q29), Z2, Z1. reflexivity.
  - intros Ff Fs Hne.
    assert (Ht9m : triangles m2 !! oldFirst = Some tf) by (rewrite Hold by exact HoF; exact Htf).
    destruct (same_shape_lookup _ _ _ _ Q29 Ht9m) as (t9' & Ht9' & S9).
    rewrite Ht9 in Ht9'. injection Ht9' as <-. injection S9 as _ S9.
    assert (Ht10m : triangles m2 !! oldSecond = Some ts)
      by (rewrite Hold by exact HoS; exact Hts).
    destruct (same_shape_lookup _ _ _ _ Q29 Ht10m) as (t10' & Ht10' & S10).
    assert (Ht10'' : triangles m10 !! oldSecond = Some t10').
    { rewrite L10, decide_False by congruence. exact Ht10'. }
    rewrite Ht10 in Ht10''. injection Ht10'' as <-. injection S10 as _ S10.
    pose proof (unflagged_count_Flag m9 oldFirst t9 Ht9) as K1.
    rewrite <- E10 in K1.
    pose proof (unflagged_count_Flag m10 oldSecond t10 Ht10) as K2.
    rewrite <- E11 in K2.
    specialize (K1 ltac:(unfold IsFlagged in *; congruence)).
    specialize (K2 ltac:(unfold IsFlagged in *; congruence)).
    rewrite (same_shape_unflagged_count _ _ Q29), C2, C1 in K1. lia.
Qed.

(** X16.  When [FlipEdges] returns, the list holds two more triangles, under
    the two handles it returns, which were not in use: the first with the
    corners first shared corner, disjoint corner of the second triangle,
    disjoint corner of the first triangle, the second with the corners second
    shared corner, disjoint corner of the first triangle, disjoint corner of
    the second triangle; both are not flagged and each has the other as its
    adjacent number 0.  The two old triangles are still in the list, flagged,
    with their corners; every other triangle has the corners and the flag it
    had. *)
Theorem FlipEdges_replaces_two_triangles
    (oldFirst oldSecond : TriangleIterator) (a : Arrangement) (m : Mesh)
    (newTriangles : TriangleIterator * TriangleIterator) (m' : Mesh)
    (tf ts : AdvancedTriangle) :
  handles_fresh m ->
  triangles m !! oldFirst = Some tf ->
  triangles m !! oldSecond = Some ts ->
  FlipEdges oldFirst oldSecond a m = Returns newTriangles m' ->
  (triangles m !! fst newTriangles = None /\ triangles m !! snd newTriangles = None
   /\ fst newTriangles <> snd newTriangles)
  /\ (exists t1 t2,
        triangles m' !! fst newTriangles = Some t1
        /\ triangles m' !! snd newTriangles = Some t2
        /\ mCorners t1 = mkArray3 (corner tf (fst (sharedCornerIndices1 a)))
                                  (corner ts (snd (disjointCornerIndices a)))
                                  (corner tf (fst (disjointCornerIndices a)))
        /\ mCorners t2 = mkArray3 (corner ts (snd (sharedCornerIndices2 a)))
                                  (corner tf (fst (disjointCornerIndices a)))
                                  (corner ts (snd (disjointCornerIndices a)))
        /\ IsFlagged t1 = false /\ IsFlagged t2 = false
        /\ GetAdjacentTriangle t1 0 = Some (snd newTriangles)
        /\ GetAdjacentTriangle t2 0 = Some (fst newTriangles))
  /\ (exists tf' ts',
        triangles m' !! oldFirst = Some tf' /\ triangles m' !! oldSecond = Some ts'
        /\ mCorners tf' = mCorners tf /\ mCorners ts' = mCorners ts
        /\ IsFlagged tf' = true /\ IsFlagged ts' = true)
  /\ (forall h t, triangles m !! h = Some t -> h <> oldFirst -> h <> oldSecond ->
        exists t', triangles m' !! h = Some t'
                   /\ mCorners t' = mCorners t /\ IsFlagged t' = IsFlagged t)
  /\ size (triangles m') = S (S (size (triangles m))).
Proof.
  intros Hf Htf Hts H.
  destruct (FlipEdges_run _ _ _ _ _ _ _ _ Hf Htf Hts H)
    as (-> & _ & _ & (t1 & Ht1 & S1 & A1) & (t2 & Ht2 & S2 & A2) & Hold & Hother & Hsize & _).
  cbn [fst snd]. injection S1 as C1 F1. injection S2 as C2 F2.
  split; [|split; [|split; [|split]]].
  - split; [apply handles_fresh_next, Hf|]. split; [|lia].
    destruct (triangles m !! S (nextIterator m)) as [t|] eqn:E; [|reflexivity].
    apply Hf in E. lia.
  - exists t1, t2. repeat split; assumption.
  - destruct (Hold oldFirst (or_introl eq_refl)) as (t & tf' & Ht & Htf' & Cf & Ff).
    destruct (Hold oldSecond (or_intror eq_refl)) as (t' & ts' & Ht' & Hts' & Cs & Fs).
    rewrite Htf in Ht. injection Ht as <-. rewrite Hts in Ht'. injection Ht' as <-.
    exists tf', ts'. repeat split; assumption.
  - intros h t Ht H1 H2. pose proof (Hf h t Ht) as Hlt.
    specialize (Hother h H1 H2 Hlt). rewrite Ht in Hother.
    destruct (triangles m' !! h) as [t'|]; [|discriminate].
    injection Hother as Hc Hfl. exists t'. repeat split; assumption.
  - exact Hsize.
Qed.

Lemma FlipEdges_replaces_two_triangles_witness :
  exists m',
    FlipEdges 0 1 kite_arrangement kite = Returns (2, 3) m'
    /\ (exists t1 t2,
          triangles m' !! 2 = Some t1 /\ triangles m' !! 3 = Some t2
          /\ mCorners t1 = mkArray3 (Vertex_at 10 0 1) (Vertex_at 13 (1 # 2) 0)
                             (Vertex_at 12 (-1) 0)
          /\ mCorners t2 = mkArray3 (Vertex_at 11 0 (-1)) (Vertex_at 12 (-1) 0)
                             (Vertex_at 13 (1 # 2) 0)
          /\ IsFlagged t1 = false /\ IsFlagged t2 = false
          /\ GetAdjacentTriangle t1 0 = Some 3 /\ GetAdjacentTriangle t2 0 = Some 2)
    /\ size (triangles m') = S (S (size (triangles kite))).
Proof.
  eexists. split; [vm_compute; reflexivity|].
  match goal with |- context [triangles ?m' !! 2] => set (mk := m') end.
  destruct (FlipEdges_replaces_two_triangles 0 1 kite_arrangement kite (2, 3) mk
              kite_first kite_second handles_fresh_kite eq_refl eq_refl)
    as (_ & Hnew & _ & _ & Hsize).
  { vm_compute. reflexivity. }
  split; [exact Hnew | exact Hsize].
Defined.

(** A command that, when it returns, leaves as many triangles without flag
    as it found. *)
Definition balanced {A} (c : Cmd A) : Prop :=
  forall m a m', handles_fresh m -> c m = Returns a m' ->
                 handles_fresh m' /\ unflagged_count m' = unflagged_count m.

Lemma balanced_quiet {A} (c : Cmd A) : quiet c -> balanced c.
Proof.
  intros Hq m a m' Hf H. pose proof (quiet_Returns c m a m' Hq H) as Hs. split.
  - apply (same_shape_evolves _ _ Hs Hf).
  - apply same_shape_unflagged_count, Hs.
Qed.

Lemma balanced_bind {A B} (c : Cmd A) (k : A -> Cmd B) :
  balanced c -> (forall a, balanced (k a)) -> balanced (bind c k).
Proof.
  intros Hc Hk m b m' Hf H. apply bind_inv in H as (a & m1 & H1 & H2).
  destruct (Hc m a m1 Hf H1) as [Hf1 C1].
  destruct (Hk a m1 b m' Hf1 H2) as [Hf2 C2]. split; [exact Hf2 | congruence].
Qed.

Lemma balanced_foreach {A} (l : list A) body :
  (forall a, balanced (body a)) -> balanced (foreach l body).
Proof.
  intros Hb. induction l as [|a l IH]; cbn [foreach].
  - apply balanced_quiet, quiet_ret.
  - apply balanced_bind; [apply Hb | intros _; exact IH].
Qed.

Section RepairIsBalanced.
Variable Intersect : AdvancedEdge -> AdvancedEdge -> bool.

Lemma balanced_EnsureLocalDelaunayAdjacent recur triangleItr adjacentIndex :
  (forall x y, balanced (recur x y)) ->
  balanced (EnsureLocalDelaunayAdjacent recur triangleItr adjacentIndex).
Proof.
  intros Hr. unfold EnsureLocalDelaunayAdjacent.
  apply balanced_bind; [apply balanced_quiet, quiet_deref | intros t].
  destruct (GetAdjacentTriangle t adjacentIndex); [apply Hr | apply balanced_quiet, quiet_ret].
Qed.

Lemma balanced_ChangeEdgeSituation recur first second a m tf ts u m' :
  (forall x y, balanced (recur x y)) ->
  handles_fresh m ->
  triangles m !! first = Some tf -> IsFlagged tf = false ->
  triangles m !! second = Some ts -> IsFlagged ts = false ->
  first <> second ->
  ChangeEdgeSituation recur first second a m = Returns u m' ->
  handles_fresh m' /\ unflagged_count m' = unflagged_count m.
Proof.
  intros Hr Hf Htf Ff Hts Fs Hne H. unfold ChangeEdgeSituation in H.
  apply bind_inv in H as (p & m1 & HF & H).
  destruct (FlipEdges_run _ _ _ _ _ _ _ _ Hf Htf Hts HF)
    as (_ & _ & Hf1 & _ & _ & _ & _ & _ & Hcount).
  specialize (Hcount Ff Fs Hne). rewrite <- Hcount.
  assert (Hrest : balanced
            (EnsureLocalDelaunayAdjacent recur (fst p) 1 ;;;
             EnsureLocalDelaunayAdjacent recur (fst p) 2 ;;;
             EnsureLocalDelaunayAdjacent recur (snd p) 1 ;;;
             EnsureLocalDelaunayAdjacent recur (snd p) 2 ;;;
             ret tt)).
  { repeat (apply balanced_bind; [apply balanced_EnsureLocalDelaunayAdjacent, Hr | intros _]).
    apply balanced_quiet, quiet_ret. }
  exact (Hrest m1 u m' Hf1 H).
Qed.

Lemma balanced_EnsureLocalDelaunay_body recur bv ce first second :
  (forall x y, balanced (recur x y)) ->
  balanced (EnsureLocalDelaunay_body Intersect recur bv ce first second).
Proof.
  intros Hr m b m' Hf H. unfold EnsureLocalDelaunay_body in H.
  assert (Hsame : forall (x : bool) (m0 m1 : Mesh), handles_fresh m0 ->
            ret x m0 = Returns b m1 ->
            handles_fresh m1 /\ unflagged_count m1 = unflagged_count m0).
  { intros x m0 m1 Hf0 [= _ <-]. auto. }
  apply bind_inv in H as (tf & ? & Hd & H). apply deref_inv in Hd as [-> Htf].
  destruct (IsFlagged tf) eqn:Ff; [eapply Hsame; eauto|].
  apply bind_inv in H as (ts & ? & Hd & H). apply deref_inv in Hd as [-> Hts].
  destruct (IsFlagged ts) eqn:Fs; [eapply Hsame; eauto|].
  destruct (ArrangeCorners tf ts) as [a|] eqn:Ha; [|discriminate]. cbv zeta in H.
  assert (Hne : first <> second).
  { intros ->. rewrite Htf in Hts. injection Hts as <-.
    rewrite ArrangeCorners_self in Ha. discriminate. }
  assert (Hflip : forall (m0 : Mesh),
            (ChangeEdgeSituation recur first second a ;;; ret true) m = Returns b m0 ->
            handles_fresh m0 /\ unflagged_count m0 = unflagged_count m).
  { intros m0 H0. apply bind_inv in H0 as (u & m1 & HC & [= _ <-]).
    exact (balanced_ChangeEdgeSituation recur first second a m tf ts u m1
             Hr Hf Htf Ff Hts Fs Hne HC). }
  destruct (_ && negb _); [eapply Hsame; eauto|].
  destruct (_ && negb _).
  - destruct (quadrilateral_refused tf ts a); [eapply Hsame; eauto|]. apply Hflip, H.
  - destruct (ComputeCircumcircle tf); [|discriminate].
    destruct (ComputeCircumcircle ts); [|discriminate].
    destruct (_ && _); [apply Hflip, H | eapply Hsame; eauto].
Qed.

Lemma balanced_EnsureLocalDelaunay fuel bv ce first second :
  balanced (EnsureLocalDelaunay Intersect fuel bv ce first second).
Proof.
  revert first second. induction fuel as [|fuel IH]; intros first second; cbn.
  - apply balanced_quiet, quiet_stop.
  - apply balanced_EnsureLocalDelaunay_body, IH.
Qed.

End RepairIsBalanced.

Lemma erase_run itr m m' :
  erase itr m = Returns tt m' ->
  exists t, triangles m !! itr = Some t
            /\ m' = mkMesh (delete itr (triangles m)) (nextIterator m) (surrounding m).
Proof.
  unfold erase. destruct (triangles m !! itr) as [t|]; [|discriminate].
  intros [= <-]. eauto.
Qed.

Lemma unflagged_count_delete m itr t :
  triangles m !! itr = Some t -> IsFlagged t = false ->
  S (unflagged_count (mkMesh (delete itr (triangles m)) (nextIterator m) (surrounding m)))
  = unflagged_count m.
Proof.
  intros Ht Hfl. unfold unflagged_count. cbn [triangles]. rewrite map_filter_delete.
  assert (Hin : filter (fun kt : nat * AdvancedTriangle => IsFlagged (snd kt) = false)
                  (triangles m) !! itr = Some t).
  { apply map_lookup_filter_Some. split; [exact Ht | exact Hfl]. }
  rewrite map_size_delete, Hin.
  assert (size (filter (fun kt : nat * AdvancedTriangle => IsFlagged (snd kt) = false)
                  (triangles m)) <> 0).
  { apply map_size_ne_0_lookup_2 with itr. eexists. exact Hin. }
  cbn. set (n := size _) in *. clearbody n. destruct n; [congruence | reflexivity].
Qed.

Lemma no_flags_unflagged_count m : no_flags m -> unflagged_count m = size (triangles m).
Proof.
  intros Hno. unfold unflagged_count. rewrite map_filter_id; [reflexivity|].
  intros i x Hx. cbn. eapply Hno, Hx.
Qed.

(** What the split of [InsertPoint] leaves when it returns. *)
Lemma InsertPoint_split_run vertex m newTriangles m' :
  handles_fresh m ->
  InsertPoint_split vertex m = Returns newTriangles m' ->
  exists old t,
    surrounding m !! addr vertex = Some old
    /\ triangles m !! old = Some t
    /\ ClockwiseOrientation (At t 0) (At t 1) (At t 2) = true
    /\ newTriangles = mkArray3 (nextIterator m) (S (nextIterator m)) (S (S (nextIterator m)))
    /\ nextIterator m' = S (S (S (nextIterator m)))
    /\ handles_fresh m'
    /\ shape <$> triangles m' !! nextIterator m
       = Some (mkArray3 (corner t 0) (corner t 1) vertex, false)
    /\ shape <$> triangles m' !! S (nextIterator m)
       = Some (mkArray3 (corner t 1) (corner t 2) vertex, false)
    /\ shape <$> triangles m' !! S (S (nextIterator m))
       = Some (mkArray3 (corner t 2) (corner t 0) vertex, false)
    /\ triangles m' !! old = None
    /\ (forall h, h <> old -> h < nextIterator m ->
          shape <$> triangles m' !! h = shape <$> triangles m !! h)
    /\ (IsFlagged t = false -> unflagged_count m' = S (S (unflagged_count m)))
    /\ size (triangles m') = S (S (size (triangles m))).
Proof.
  intros Hf H. unfold InsertPoint_split in H. cbv zeta in H.
  apply bind_inv in H as (old & ? & Hg & H).
  pose proof Hg as Hsur. apply GetSurroundingTriangle_inv in Hg as ->.
  unfold GetSurroundingTriangle in Hsur.
  destruct (surrounding m !! addr vertex) as [old'|] eqn:Es; [|discriminate].
  injection Hsur as ->.
  apply bind_inv in H as (t & ? & Hd & H). apply deref_inv in Hd as [-> Ht].
  apply bind_inv in H as ([] & ? & Ha & H).
  pose proof Ha as Hcw. apply assert_inv in Ha as ->.
  unfold assert in Hcw.
  destruct (ClockwiseOrientation (At t 0) (At t 1) (At t 2)) eqn:Ecw; [|discriminate].
  clear Hcw.
  apply bind_inv in H as (n0 & m1 & HI0 & H).
  apply bind_inv in H as (n1 & m2 & HI1 & H).
  apply bind_inv in H as (n2 & m3 & HI2 & H).
  apply bind_inv in H as ([] & m6 & HA & H).
  apply bind_inv in H as ([] & m7 & HR & H).
  apply bind_inv in H as ([] & m8 & HT & H).
  apply bind_inv in H as ([] & m9 & HE & H).
  injection H as <- <-.
  destruct (InsertTriangle_run _ _ _ _ _ _ Hf HI0) as (-> & N1 & Hf1 & L1 & Z1 & C1).
  destruct (InsertTriangle_run _ _ _ _ _ _ Hf1 HI1) as (-> & N2 & Hf2 & L2 & Z2 & C2).
  destruct (InsertTriangle_run _ _ _ _ _ _ Hf2 HI2) as (-> & N3 & Hf3 & L3 & Z3 & C3).
  rewrite N1 in *. rewrite N2 in *.
  set (n := nextIterator m) in *.
  assert (Q38 : same_shape m3 m8).
  { eapply same_shape_trans;
      [eapply (quiet_Returns _ _ _ _ (quiet_foreach _ _ (fun i => quiet_InitializeAdjacents _ i _))),
         HA|].
    eapply same_shape_trans; [eapply quiet_Returns, HR; auto with quiet|].
    eapply quiet_Returns, HT; auto with quiet. }
  apply erase_run in HE as (t8 & Ht8 & ->).
  cbn [triangles nextIterator].
  assert (Hold : old < n) by (eapply Hf, Ht).
  assert (H3 : forall h, h < n -> triangles m3 !! h = triangles m !! h).
  { intros h Hh. rewrite L3, L2, L1. rewrite !decide_False by lia. reflexivity. }
  assert (Hf8 : handles_fresh m8) by apply (same_shape_evolves _ _ Q38 Hf3).
  exists old, t. split; [reflexivity|]. split; [exact Ht|]. split; [exact Ecw|].
  split; [reflexivity|]. split; [rewrite (proj1 Q38); exact N3|].
  split; [|split; [|split; [|split; [|split; [|split; [|split]]]]]].
  - intros h x Hx. cbn [triangles nextIterator] in *.
    apply lookup_delete_Some in Hx as [_ Hx]. eapply Hf8, Hx.
  - rewrite lookup_delete_ne by lia. rewrite (proj2 Q38), L3, L2, L1.
    rewrite decide_False by lia. rewrite decide_False by lia.
    rewrite decide_True by reflexivity. reflexivity.
  - rewrite lookup_delete_ne by lia. rewrite (proj2 Q38), L3, L2.
    rewrite decide_False by lia. rewrite decide_True by reflexivity. reflexivity.
  - rewrite lookup_delete_ne by lia. rewrite (proj2 Q38), L3.
    rewrite decide_True by reflexivity. reflexivity.
  - apply lookup_delete_eq.
  - intros h Hne Hh. rewrite lookup_delete_ne by congruence.
    rewrite (proj2 Q38), H3 by exact Hh. reflexivity.
  - intros Hfl.
    assert (Ht3 : triangles m3 !! old = Some t) by (rewrite H3 by exact Hold; exact Ht).
    destruct (same_shape_lookup _ _ _ _ Q38 Ht3) as (t8' & Ht8' & S8).
    rewrite Ht8 in Ht8'. injection Ht8' as <-. injection S8 as _ S8.
    pose proof (unflagged_count_delete m8 old t8 Ht8) as K.
    specialize (K ltac:(unfold IsFlagged in *; congruence)).
    rewrite (same_shape_unflagged_count _ _ Q38), C3, C2, C1 in K. lia.
  - rewrite map_size_delete, Ht8. cbn.
    rewrite (same_shape_size _ _ Q38), Z3, Z2, Z1. reflexivity.
Qed.

Section InsertPointCount.
Variable Intersect : AdvancedEdge -> AdvancedEdge -> bool.

(** X17.  When [InsertPoint] returns on a list in which no triangle is
    flagged, the list holds exactly two triangles more than before, however
    many edges were flipped: the surrounding triangle is replaced by three,
    and every flip exchanges two triangles for two. *)
Theorem InsertPoint_adds_two_triangles
    (fuel : nat) (vertex : Vertex) (boundaryVertices : list Vertex)
    (constrainedEdges : EdgeSet) (m m' : Mesh) :
  handles_fresh m ->
  no_flags m ->
  InsertPoint Intersect fuel vertex boundaryVertices constrainedEdges m = Returns tt m' ->
  size (triangles m') = S (S (size (triangles m))).
Proof using Type.
  intros Hf Hno H. unfold InsertPoint in H.
  apply bind_inv in H as (newTriangles & m1 & Hsplit & H).
  apply bind_inv in H as ([] & m2 & Hloop & Hrem).
  destruct (InsertPoint_split_run _ _ _ _ Hf Hsplit)
    as (old & t & _ & Ht & _ & _ & _ & Hf1 & _ & _ & _ & _ & _ & Hcount & _).
  specialize (Hcount (Hno old t Ht)).
  assert (Hbal : balanced
            (foreach [0; 1; 2] (fun i =>
               t <- deref (get3 newTriangles i) ;;
               match GetAdjacentTriangle t 2 with
               | Some target =>
                   EnsureLocalDelaunay Intersect fuel boundaryVertices constrainedEdges
                     (get3 newTriangles i) target ;;;
                   ret tt
               | None => ret tt
               end))).
  { apply balanced_foreach. intros i.
    apply balanced_bind; [apply balanced_quiet, quiet_deref | intros x].
    destruct (GetAdjacentTriangle x 2); [|apply balanced_quiet, quiet_ret].
    apply balanced_bind; [apply balanced_EnsureLocalDelaunay|].
    intros _. apply balanced_quiet, quiet_ret. }
  destruct (Hbal m1 tt m2 Hf1 Hloop) as [_ Hcount2].
  injection Hrem as <-. cbn [triangles].
  change (unflagged_count m2 = S (S (size (triangles m)))).
  rewrite Hcount2, Hcount, (no_flags_unflagged_count m Hno). reflexivity.
Qed.

End InsertPointCount.

Lemma handles_fresh_kite_pending : handles_fresh kite_pending.
Proof.
  change (map_Forall (fun h _ => h < 2) (triangles kite_pending)).
  refine (bool_decide_unpack _ _). vm_compute. exact I.
Defined.

Lemma no_flags_kite_pending : no_flags kite_pending.
Proof.
  change (map_Forall (fun _ t => IsFlagged t = false) (triangles kite_pending)).
  refine (bool_decide_unpack _ _). vm_compute. exact I.
Defined.

Lemma InsertPoint_adds_two_triangles_witness :
  exists m',
    InsertPoint no_intersection 5 kite_vertex [] [] kite_pending = Returns tt m'
    /\ size (triangles m') = S (S (size (triangles kite_pending))).
Proof.
  eexists. split; [vm_compute; reflexivity|].
  apply (InsertPoint_adds_two_triangles no_intersection 5 kite_vertex [] [] kite_pending).
  - exact handles_fresh_kite_pending.
  - exact no_flags_kite_pending.
  - vm_compute. reflexivity.
Defined.

(** ** The three triangles of the split *)

Lemma InitializeAdjacents_slots newT index old m m' lim :
  index < 3 ->
  InitializeAdjacents newT index old m = Returns tt m' ->
  lim <= get3 newT index -> old < lim ->
  (forall b, slot m old ((index + 2) mod 3) = Some (Some b) -> b < lim /\ b <> old) ->
  nextIterator m' = nextIterator m
  /\ slot m' (get3 newT index) 0 = Some (Some (get3 newT ((index + 1) mod 3)))
  /\ slot m' (get3 newT index) 1 = Some (Some (get3 newT ((index + 2) mod 3)))
  /\ slot m' (get3 newT index) 2 = slot m old ((index + 2) mod 3)
  /\ (forall h i, i < 3 -> h <> get3 newT index -> lim <= h \/ h = old ->
        slot m' h i = slot m h i).
Proof.
  intros Hindex H Hlim Hold Hother.
  unfold InitializeAdjacents in H. cbv zeta in H.
  set (n := get3 newT index) in *.
  apply bind_inv in H as (t & ? & Hd & H). apply deref_inv in Hd as [-> Ht].
  rewrite (slot_of_triangle _ _ _ _ Ht) in *.
  apply bind_inv in H as ([] & ma & W0 & H).
  apply bind_inv in H as ([] & mb & W1 & H).
  apply bind_inv in H as ([] & mc & W2 & H).
  apply (SetAdjacentTriangle_writes _ 0 _ _ _ ltac:(lia)) in W0.
  apply (SetAdjacentTriangle_writes _ 1 _ _ _ ltac:(lia)) in W1.
  apply (SetAdjacentTriangle_writes _ 2 _ _ _ ltac:(lia)) in W2.
  assert (S0 : slot mc n 0 = Some (Some (get3 newT ((index + 1) mod 3)))).
  { rewrite (writes_elsewhere _ _ _ _ _ n 0 W2) by (lia || intros [_ ?]; lia).
    rewrite (writes_elsewhere _ _ _ _ _ n 0 W1) by (lia || intros [_ ?]; lia).
    apply (writes_there _ _ _ _ _ W0). lia. }
  assert (S1 : slot mc n 1 = Some (Some (get3 newT ((index + 2) mod 3)))).
  { rewrite (writes_elsewhere _ _ _ _ _ n 1 W2) by (lia || intros [_ ?]; lia).
    apply (writes_there _ _ _ _ _ W1). lia. }
  assert (S2 : slot mc n 2 = Some (GetAdjacentTriangle t ((index + 2) mod 3))).
  { apply (writes_there _ _ _ _ _ W2). lia. }
  assert (Sc : forall h i, i < 3 -> h <> n -> slot mc h i = slot m h i).
  { intros h i Hi Hne.
    rewrite (writes_elsewhere _ _ _ _ _ h i W2) by (lia || intros [? _]; congruence).
    rewrite (writes_elsewhere _ _ _ _ _ h i W1) by (lia || intros [? _]; congruence).
    apply (writes_elsewhere _ _ _ _ _ h i W0); [lia | intros [? _]; congruence]. }
  assert (Nc : nextIterator mc = nextIterator m)
    by (rewrite (proj1 W2), (proj1 W1); exact (proj1 W0)).
  apply UpdateAdjacentBackReferences_inv in H.
  destruct (GetAdjacentTriangle t ((index + 2) mod 3)) as [o|] eqn:Eo.
  - destruct H as (j0 & Hj0 & _ & W).
    destruct (Hother o eq_refl) as [Ho Hoo].
    assert (Hon : o <> n) by lia.
    split; [rewrite (proj1 W); exact Nc|].
    split; [rewrite (writes_elsewhere _ _ _ _ _ n 0 W) by (lia || intros [? _]; congruence);
            exact S0|].
    split; [rewrite (writes_elsewhere _ _ _ _ _ n 1 W) by (lia || intros [? _]; congruence);
            exact S1|].
    split; [rewrite (writes_elsewhere _ _ _ _ _ n 2 W) by (lia || intros [? _]; congruence);
            exact S2|].
    intros h i Hi Hne Hh.
    rewrite (writes_elsewhere _ _ _ _ _ h i W); [apply Sc; assumption | exact Hi |].
    intros [-> _]. destruct Hh as [Hh|Hh]; [lia | congruence].
  - subst m'. split; [exact Nc|]. split; [exact S0|]. split; [exact S1|].
    split; [exact S2|]. intros h i Hi Hne _. apply Sc; assumption.
Qed.

Lemma InsertTriangle_slots c0 c1 c2 m n m' :
  InsertTriangle c0 c1 c2 m = Returns n m' ->
  forall h i, h <> nextIterator m -> slot m' h i = slot m h i.
Proof.
  intros [= <- <-] h i Hne. unfold slot. cbn [triangles].
  rewrite lookup_insert_ne by congruence. reflexivity.
Qed.

(** The adjacents of the three new triangles after the split. *)
Lemma InsertPoint_split_fan vertex m newTriangles m' old t :
  handles_fresh m ->
  surrounding m !! addr vertex = Some old ->
  triangles m !! old = Some t ->
  (forall i b, i < 3 -> GetAdjacentTriangle t i = Some b -> b < nextIterator m /\ b <> old) ->
  InsertPoint_split vertex m = Returns newTriangles m' ->
  forall i, i < 3 ->
    slot m' (get3 newTriangles i) 0 = Some (Some (get3 newTriangles ((i + 1) mod 3)))
    /\ slot m' (get3 newTriangles i) 1 = Some (Some (get3 newTriangles ((i + 2) mod 3)))
    /\ slot m' (get3 newTriangles i) 2 = Some (GetAdjacentTriangle t ((i + 2) mod 3)).
Proof.
  intros Hf Hsur Ht Hadj H. unfold InsertPoint_split in H. cbv zeta in H.
  apply bind_inv in H as (old' & ? & Hg & H).
  pose proof Hg as Hg'. apply GetSurroundingTriangle_inv in Hg as ->.
  unfold GetSurroundingTriangle in Hg'. rewrite Hsur in Hg'. injection Hg' as <-.
  apply bind_inv in H as (t' & ? & Hd & H). apply deref_inv in Hd as [-> Ht'].
  rewrite Ht in Ht'. injection Ht' as <-.
  apply bind_inv in H as ([] & ? & Ha & H). apply assert_inv in Ha as ->.
  apply bind_inv in H as (n0 & m1 & HI0 & H).
  apply bind_inv in H as (n1 & m2 & HI1 & H).
  apply bind_inv in H as (n2 & m3 & HI2 & H).
  apply bind_inv in H as ([] & m6 & HA & H).
  apply bind_inv in H as ([] & m7 & HR & H).
  apply bind_inv in H as ([] & m8 & HT & H).
  apply bind_inv in H as ([] & m9 & HE & H).
  injection H as <- <-.
  cbn [foreach] in HA.
  apply bind_inv in HA as ([] & m4 & HA0 & HA).
  apply bind_inv in HA as ([] & m5 & HA1 & HA).
  apply bind_inv in HA as ([] & ? & HA2 & HA).
  injection HA as ->.
  pose proof (InsertTriangle_slots _ _ _ _ _ _ HI0) as K1.
  pose proof (InsertTriangle_slots _ _ _ _ _ _ HI1) as K2.
  pose proof (InsertTriangle_slots _ _ _ _ _ _ HI2) as K3.
  destruct (InsertTriangle_run _ _ _ _ _ _ Hf HI0) as (-> & N1 & Hf1 & _).
  destruct (InsertTriangle_run _ _ _ _ _ _ Hf1 HI1) as (-> & N2 & Hf2 & _).
  destruct (InsertTriangle_run _ _ _ _ _ _ Hf2 HI2) as (-> & N3 & Hf3 & _).
  rewrite N1 in *. rewrite N2 in *.
  set (n := nextIterator m) in *.
  assert (Hold : old < n) by (eapply Hf, Ht).
  assert (O3 : forall i, slot m3 old i = Some (GetAdjacentTriangle t i)).
  { intros i. rewrite K3, K2, K1 by lia. apply slot_of_triangle, Ht. }
  assert (Hpre : forall mx idx, idx < 3 ->
            (forall i, i < 3 -> slot mx old i = slot m3 old i) ->
            forall b, slot mx old idx = Some (Some b) -> b < n /\ b <> old).
  { intros mx idx Hidx Hsame b Hb. rewrite Hsame, O3 in Hb by exact Hidx.
    injection Hb as Hb. eapply Hadj; [|exact Hb]. exact Hidx. }
  destruct (InitializeAdjacents_slots (mkArray3 n (S n) (S (S n))) 0 old m3 m4 n
              ltac:(lia) HA0) as (_ & A00 & A01 & A02 & F4);
    [cbn; lia | exact Hold | apply Hpre; [cbn; lia | reflexivity] |].
  destruct (InitializeAdjacents_slots (mkArray3 n (S n) (S (S n))) 1 old m4 m5 n
              ltac:(lia) HA1) as (_ & A10 & A11 & A12 & F5);
    [cbn; lia | exact Hold | |].
  { apply Hpre; [cbn; lia|]. intros i Hi. apply F4; [exact Hi | cbn; lia | now right]. }
  destruct (InitializeAdjacents_slots (mkArray3 n (S n) (S (S n))) 2 old m5 m6 n
              ltac:(lia) HA2) as (_ & A20 & A21 & A22 & F6);
    [cbn; lia | exact Hold | |].
  { apply Hpre; [cbn; lia|]. intros i Hi.
    rewrite F5 by (exact Hi || cbn; lia || now right).
    apply F4; [exact Hi | cbn; lia | now right]. }
  cbn [get3 elt0 elt1 elt2 Nat.modulo Nat.add Nat.divmod fst snd Nat.sub] in *.
  pose proof (neutral_RemoveVertex _ _ _ _ _ HR) as Same7.
  pose proof (neutral_TransferVertices3 _ _ _ _ _ _ HT) as Same8.
  pose proof (same_adjacency_trans _ _ _ Same7 Same8) as (_ & _ & Same).
  apply erase_run in HE as (t8 & Ht8 & ->).
  assert (Fin : forall h i, i < 3 -> h <> old ->
            slot (mkMesh (delete old (triangles m8)) (nextIterator m8) (surrounding m8)) h i
            = slot m6 h i).
  { intros h i Hi Hne. rewrite <- (Same h i Hi). unfold slot. cbn [triangles].
    rewrite lookup_delete_ne by congruence. reflexivity. }
  assert (O4 : forall i, i < 3 -> slot m4 old i = Some (GetAdjacentTriangle t i)).
  { intros i Hi. rewrite F4 by (exact Hi || lia || now right). apply O3. }
  assert (O5 : forall i, i < 3 -> slot m5 old i = Some (GetAdjacentTriangle t i)).
  { intros i Hi. rewrite F5 by (exact Hi || lia || now right). apply O4, Hi. }
  intros [|[|[|i]]] Hi; [| | |lia];
    cbn [get3 elt0 elt1 elt2 Nat.modulo Nat.add Nat.divmod fst snd Nat.sub];
    rewrite !Fin by lia.
  - rewrite !F6 by lia. rewrite !F5 by lia. rewrite A00, A01, A02, O3. auto.
  - rewrite !F6 by lia. rewrite A10, A11, A12, O4 by lia. auto.
  - rewrite A20, A21, A22, O5 by lia. auto.
Qed.

(** X18.  When the split of [InsertPoint] returns, the triangle that
    surrounded the vertex is no longer in the list, and the list holds three
    new triangles instead, under three handles that were not in use: the
    triangle number [i] has the corners [i] and [i + 1] of the old triangle
    and the vertex, in this order, and is not flagged.  Every other triangle
    has the corners and the flag it had.  If the adjacents of the old
    triangle are handles issued before and none is the old triangle itself,
    the new triangle number [i] has the next new triangle as adjacent 0, the
    one before as adjacent 1, and as adjacent 2 the adjacent of the old
    triangle across the edge that it keeps. *)
Theorem InsertPoint_split_result
    (vertex : Vertex) (m : Mesh) (newTriangles : array3 nat) (m' : Mesh) :
  handles_fresh m ->
  InsertPoint_split vertex m = Returns newTriangles m' ->
  exists oldTriangleItr oldTriangle,
    surrounding m !! addr vertex = Some oldTriangleItr
    /\ triangles m !! oldTriangleItr = Some oldTriangle
    /\ triangles m' !! oldTriangleItr = None
    /\ (forall i, i < 3 ->
          triangles m !! get3 newTriangles i = None
          /\ exists t, triangles m' !! get3 newTriangles i = Some t
                       /\ mCorners t = mkArray3 (corner oldTriangle i)
                                         (corner oldTriangle ((i + 1) mod 3)) vertex
                       /\ IsFlagged t = false)
    /\ (forall h t, triangles m !! h = Some t -> h <> oldTriangleItr ->
          exists t', triangles m' !! h = Some t'
                     /\ mCorners t' = mCorners t /\ IsFlagged t' = IsFlagged t)
    /\ size (triangles m') = S (S (size (triangles m)))
    /\ ((forall i b, i < 3 -> GetAdjacentTriangle oldTriangle i = Some b ->
                     b < nextIterator m /\ b <> oldTriangleItr) ->
        forall i, i < 3 ->
          slot m' (get3 newTriangles i) 0 = Some (Some (get3 newTriangles ((i + 1) mod 3)))
          /\ slot m' (get3 newTriangles i) 1
             = Some (Some (get3 newTriangles ((i + 2) mod 3)))
          /\ slot m' (get3 newTriangles i) 2
             = Some (GetAdjacentTriangle oldTriangle ((i + 2) mod 3))).
Proof.
  intros Hf H.
  destruct (InsertPoint_split_run _ _ _ _ Hf H)
    as (old & t & Hsur & Ht & _ & E & _ & _ & S0 & S1 & S2 & Hgone & Hother & _ & Hsize).
  exists old, t. split; [exact Hsur|]. split; [exact Ht|]. split; [exact Hgone|].
  assert (Hnone : forall h, nextIterator m <= h -> triangles m !! h = None).
  { intros h Hh. destruct (triangles m !! h) as [x|] eqn:Ex; [|reflexivity].
    apply Hf in Ex. lia. }
  assert (Hshape : forall h c, shape <$> triangles m' !! h = Some (c, false) ->
            exists x, triangles m' !! h = Some x /\ mCorners x = c /\ IsFlagged x = false).
  { intros h c Hs. destruct (triangles m' !! h) as [x|]; [|discriminate].
    injection Hs as Hc Hfl. exists x. auto. }
  split; [|split; [|split]].
  - subst newTriangles.
    intros [|[|[|i]]] Hi; [| | |lia];
      cbn [get3 elt0 elt1 elt2 Nat.modulo Nat.add Nat.divmod fst snd Nat.sub];
      (split; [apply Hnone; lia | apply Hshape; assumption]).
  - intros h x Hx Hne. pose proof (Hf h x Hx) as Hlt.
    specialize (Hother h Hne Hlt). rewrite Hx in Hother.
    destruct (triangles m' !! h) as [x'|]; [|discriminate].
    injection Hother as Hc Hfl. exists x'. auto.
  - exact Hsize.
  - intros Hadj. exact (InsertPoint_split_fan _ _ _ _ _ _ Hf Hsur Ht Hadj H).
Qed.

Lemma InsertPoint_split_result_witness :
  exists m' oldTriangleItr oldTriangle,
    InsertPoint_split kite_vertex kite_pending = Returns (mkArray3 2 3 4) m'
    /\ surrounding kite_pending !! addr kite_vertex = Some oldTriangleItr
    /\ triangles kite_pending !! oldTriangleItr = Some oldTriangle
    /\ triangles m' !! oldTriangleItr = None
    /\ size (triangles m') = S (S (size (triangles kite_pending))).
Proof.
  eexists.
  match goal with |- context [Returns _ ?m'] => set (mk := m') end.
  destruct (InsertPoint_split_result kite_vertex kite_pending (mkArray3 2 3 4) mk
              handles_fresh_kite_pending)
    as (old & t & Hsur & Ht & Hgone & _ & _ & Hsize & _).
  { vm_compute. reflexivity. }
  exists old, t. split; [vm_compute; reflexivity|]. auto.
Defined.

(** ** Flags between the operations *)

Lemma remove_if_IsFlagged_run m u m' :
  remove_if_IsFlagged m = Returns u m' ->
  no_flags m'
  /\ nextIterator m' = nextIterator m
  /\ (forall h t, triangles m' !! h = Some t <->
                  triangles m !! h = Some t /\ IsFlagged t = false).
Proof.
  intros [= _ <-]. cbn [triangles nextIterator].
  assert (Hlook : forall h t,
            filter (fun kt : nat * AdvancedTriangle => IsFlagged (snd kt) = false)
              (triangles m) !! h = Some t
            <-> triangles m !! h = Some t /\ IsFlagged t = false).
  { intros h t. rewrite map_lookup_filter_Some. reflexivity. }
  split; [|split; [reflexivity | exact Hlook]].
  intros h t Ht. cbn [triangles] in Ht. apply Hlook in Ht. tauto.
Qed.

(** X19.  [InsertPoint] leaves no flagged triangle behind.  When it returns on
    a list whose handles were all issued by the list, no triangle of the
    list is flagged, however many triangles the edge flips flagged on the
    way, and the handles in use are again handles that the list issued, so
    that the next insertion finds the list as it expects it. *)
Theorem flagged_triangles_are_removed
    (Intersect : AdvancedEdge -> AdvancedEdge -> bool) (fuel : nat) (vertex : Vertex)
    (boundaryVertices : list Vertex) (constrainedEdges : EdgeSet) (m m' : Mesh) :
  handles_fresh m ->
  InsertPoint Intersect fuel vertex boundaryVertices constrainedEdges m = Returns tt m' ->
  no_flags m' /\ handles_fresh m'.
Proof.
  intros Hf H. unfold InsertPoint in H.
  apply bind_inv in H as (newTriangles & m1 & Hsplit & H).
  apply bind_inv in H as ([] & m2 & Hloop & Hrem).
  destruct (remove_if_IsFlagged_run _ _ _ Hrem) as (Hno & Hnext & Hlook).
  split; [exact Hno|].
  destruct (InsertPoint_split_run _ _ _ _ Hf Hsplit)
    as (_ & _ & _ & _ & _ & _ & _ & Hf1 & _).
  assert (Hsteady : steady
            (foreach [0; 1; 2] (fun i =>
               t <- deref (get3 newTriangles i) ;;
               match GetAdjacentTriangle t 2 with
               | Some target =>
                   EnsureLocalDelaunay Intersect fuel boundaryVertices constrainedEdges
                     (get3 newTriangles i) target ;;;
                   ret tt
               | None => ret tt
               end))).
  { assert (Hfor : forall A (l : list A) body,
              (forall a, steady (body a)) -> steady (foreach l body)).
    { intros A l body Hb. induction l as [|a l IH]; cbn [foreach].
      - apply steady_quiet, quiet_ret.
      - apply steady_bind; [apply Hb | intros _; exact IH]. }
    apply Hfor. intros i.
    apply steady_bind; [apply steady_quiet, quiet_deref | intros x].
    destruct (GetAdjacentTriangle x 2); [|apply steady_quiet, quiet_ret].
    apply steady_bind; [apply steady_EnsureLocalDelaunay|].
    intros _. apply steady_quiet, quiet_ret. }
  specialize (Hsteady m1 Hf1). rewrite Hloop in Hsteady. destruct Hsteady as (Hf2 & _).
  cbn [mesh_of] in Hf2.
  intros h t Ht. rewrite Hnext. apply Hlook in Ht as [Ht _]. eapply Hf2, Ht.
Qed.

Lemma flagged_triangles_are_removed_witness :
  exists m',
    InsertPoint no_intersection 5 kite_vertex [] [] kite_pending = Returns tt m'
    /\ no_flags m' /\ handles_fresh m'.
Proof.
  eexists. split; [vm_compute; reflexivity|].
  apply (flagged_triangles_are_removed no_intersection 5 kite_vertex [] [] kite_pending).
  - exact handles_fresh_kite_pending.
  - vm_compute. reflexivity.
Defined.

(** ** A flip flags both triangles *)

Section RepairFlags.
Variable Intersect : AdvancedEdge -> AdvancedEdge -> bool.

(** X20.  When [EnsureLocalDelaunay] returns true, the two triangles it was
    called with are different triangles, both were not flagged before, and
    both are flagged afterwards: their iterators are still valid, but the
    triangles wait for removal, with the corners they had. *)
Theorem EnsureLocalDelaunay_true_flags_both
    (fuel : nat) (boundaryVertices : list Vertex) (constrainedEdges : EdgeSet)
    (first second : TriangleIterator) (m m' : Mesh) :
  handles_fresh m ->
  EnsureLocalDelaunay Intersect fuel boundaryVertices constrainedEdges first second m
  = Returns true m' ->
  first <> second
  /\ exists tf ts tf' ts',
       triangles m !! first = Some tf /\ triangles m !! second = Some ts
       /\ IsFlagged tf = false /\ IsFlagged ts = false
       /\ triangles m' !! first = Some tf' /\ triangles m' !! second = Some ts'
       /\ mCorners tf' = mCorners tf /\ mCorners ts' = mCorners ts
       /\ IsFlagged tf' = true /\ IsFlagged ts' = true.
Proof using Type.
  intros Hf H. destruct fuel as [|fuel]; [discriminate|].
  cbn [EnsureLocalDelaunay] in H. unfold EnsureLocalDelaunay_body in H.
  set (recur := EnsureLocalDelaunay Intersect fuel boundaryVertices constrainedEdges) in *.
  apply bind_inv in H as (tf & ? & Hd & H). apply deref_inv in Hd as [-> Htf].
  destruct (IsFlagged tf) eqn:Ff; [discriminate|].
  apply bind_inv in H as (ts & ? & Hd & H). apply deref_inv in Hd as [-> Hts].
  destruct (IsFlagged ts) eqn:Fs; [discriminate|].
  destruct (ArrangeCorners tf ts) as [a|] eqn:Ha; [|discriminate]. cbv zeta in H.
  assert (Hne : first <> second).
  { intros ->. rewrite Htf in Hts. injection Hts as <-.
    rewrite ArrangeCorners_self in Ha. discriminate. }
  assert (Hflip : (ChangeEdgeSituation recur first second a ;;; ret true) m = Returns true m').
  { destruct (_ && negb _); [discriminate|].
    destruct (_ && negb _).
    - destruct (quadrilateral_refused tf ts a); [discriminate | exact H].
    - destruct (ComputeCircumcircle tf); [|discriminate].
      destruct (ComputeCircumcircle ts); [|discriminate].
      destruct (_ && _); [exact H | discriminate]. }
  clear H. apply bind_inv in Hflip as (u & m1 & HC & [= <-]).
  unfold ChangeEdgeSituation in HC.
  apply bind_inv in HC as (p & mF & HF & Hrest).
  destruct (FlipEdges_run _ _ _ _ _ _ _ _ Hf Htf Hts HF)
    as (_ & _ & HfF & _ & _ & Hold & _).
  assert (Hsteady : steady
            (EnsureLocalDelaunayAdjacent recur (fst p) 1 ;;;
             EnsureLocalDelaunayAdjacent recur (fst p) 2 ;;;
             EnsureLocalDelaunayAdjacent recur (snd p) 1 ;;;
             EnsureLocalDelaunayAdjacent recur (snd p) 2 ;;;
             ret tt)).
  { repeat (apply steady_bind;
              [apply steady_EnsureLocalDelaunayAdjacent; intros x y;
               apply steady_EnsureLocalDelaunay | intros _]).
    apply steady_quiet, quiet_ret. }
  specialize (Hsteady mF HfF). rewrite Hrest in Hsteady. cbn [mesh_of] in Hsteady.
  destruct Hsteady as (_ & _ & Hkeep & _).
  destruct (Hold first (or_introl eq_refl)) as (t0 & tF & Ht0 & HtF & CF & FF).
  destruct (Hold second (or_intror eq_refl)) as (t1 & tS & Ht1 & HtS & CS & FS).
  rewrite Htf in Ht0. injection Ht0 as <-. rewrite Hts in Ht1. injection Ht1 as <-.
  destruct (Hkeep first tF HtF) as (tf' & Htf' & Cf' & Ff').
  destruct (Hkeep second tS HtS) as (ts' & Hts' & Cs' & Fs').
  split; [exact Hne|].
  exists tf, ts, tf', ts'. repeat split; try assumption; try congruence; auto.
Qed.

End RepairFlags.

Lemma EnsureLocalDelaunay_true_flags_both_witness :
  exists m',
    EnsureLocalDelaunay no_intersection 3 [] [] 0 1 kite = Returns true m'
    /\ 0 <> 1
    /\ exists tf ts tf' ts',
         triangles kite !! 0 = Some tf /\ triangles kite !! 1 = Some ts
         /\ IsFlagged tf = false /\ IsFlagged ts = false
         /\ triangles m' !! 0 = Some tf' /\ triangles m' !! 1 = Some ts'
         /\ mCorners tf' = mCorners tf /\ mCorners ts' = mCorners ts
         /\ IsFlagged tf' = true /\ IsFlagged ts' = true.
Proof.
  eexists. split; [vm_compute; reflexivity|].
  apply (EnsureLocalDelaunay_true_flags_both no_intersection 3 [] [] 0 1 kite).
  - exact handles_fresh_kite.
  - vm_compute. reflexivity.
Defined.

(** ** The first element of the list *)

Lemma foldr_min_spec (k0 : nat) (ks : list nat) :
  In (fold_right Nat.min k0 ks) (k0 :: ks)
  /\ forall k, In k (k0 :: ks) -> fold_right Nat.min k0 ks <= k.
Proof.
  induction ks as [|k1 ks [IHin IHle]]; cbn [fold_right].
  - split; [now left|]. intros k [<-|[]]. lia.
  - split.
    + destruct (Nat.min_spec k1 (fold_right Nat.min k0 ks)) as [[_ ->]|[_ ->]].
      * right. now left.
      * destruct IHin as [E|Hin]; [now left | right; now right].
    + intros k [<-|[<-|Hk]].
      * etransitivity; [apply Nat.le_min_r | apply IHle; now left].
      * apply Nat.le_min_l.
      * etransitivity; [apply Nat.le_min_r | apply IHle; now right].
Qed.

Lemma triangles_begin_run m h m' :
  triangles_begin m = Returns h m' ->
  m' = m
  /\ is_Some (triangles m !! h)
  /\ forall k, is_Some (triangles m !! k) -> h <= k.
Proof.
  unfold triangles_begin.
  destruct (map_to_list (triangles m)) as [|kt l] eqn:E; [discriminate|].
  intros [= <- <-]. split; [reflexivity|].
  destruct (foldr_min_spec (fst kt) (map fst l)) as [Hin Hle].
  assert (Hkeys : forall k, In k (fst kt :: map fst l) <-> is_Some (triangles m !! k)).
  { intros k. change (fst kt :: map fst l) with (map fst (kt :: l)). rewrite <- E.
    rewrite in_map_iff. split.
    - intros ([k' x] & <- & Hx). apply list_elem_of_In, elem_of_map_to_list in Hx. eauto.
    - intros [x Hx]. exists (k, x). split; [reflexivity|].
      apply list_elem_of_In, elem_of_map_to_list, Hx. }
  split; [apply Hkeys, Hin|]. intros k Hk. apply Hle, Hkeys, Hk.
Qed.

(** X21.  [CreateBoundaryPoints] lets the three dummy vertices point to
    [triangles.begin()], the first triangle of the list, not to the triangle
    it has just pushed: the surrounding triangle of the dummy vertices is the
    new triangle exactly when the list was empty before. *)
Theorem CreateBoundaryPoints_surrounding_is_begin
    (a0 a1 a2 : nat) (m : Mesh) (boundaryVertices : list Vertex) (m' : Mesh) :
  handles_fresh m ->
  CreateBoundaryPoints a0 a1 a2 m = Returns boundaryVertices m' ->
  exists first,
    surrounding m' !! a0 = Some first
    /\ surrounding m' !! a1 = Some first
    /\ surrounding m' !! a2 = Some first
    /\ is_Some (triangles m' !! first)
    /\ (forall k, is_Some (triangles m' !! k) -> first <= k)
    /\ triangles m' !! nextIterator m
       = Some (newAdvancedTriangle (Vertex_at a0 (-1) 0) (Vertex_at a1 0 1) (Vertex_at a2 1 0))
    /\ (first = nextIterator m <-> triangles m = ∅).
Proof.
  intros Hf H. unfold CreateBoundaryPoints in H. cbv zeta in H.
  apply bind_inv in H as (n & m1 & HI & H).
  apply bind_inv in H as ([] & m4 & Hloop & [= _ <-]).
  destruct (InsertTriangle_run _ _ _ _ _ _ Hf HI) as (-> & _ & _ & L1 & _).
  cbn [foreach] in Hloop.
  apply bind_inv in Hloop as ([] & m2 & H0 & Hloop).
  apply bind_inv in Hloop as ([] & m3 & H1 & Hloop).
  apply bind_inv in Hloop as ([] & ? & H2 & [= ->]).
  apply bind_inv in H0 as (f0 & ? & B0 & [= <-]).
  apply triangles_begin_run in B0 as (-> & P0 & M0).
  apply bind_inv in H1 as (f1 & ? & B1 & [= <-]).
  apply triangles_begin_run in B1 as (-> & P1 & M1).
  apply bind_inv in H2 as (f2 & ? & B2 & [= <-]).
  apply triangles_begin_run in B2 as (-> & P2 & M2).
  cbn [triangles surrounding Vertex_at addr] in *.
  assert (E1 : f1 = f0) by (apply Nat.le_antisymm; auto).
  assert (E2 : f2 = f0) by (apply Nat.le_antisymm; auto).
  subst f1 f2. exists f0.
  assert (Hnew : triangles m1 !! nextIterator m
                 = Some (newAdvancedTriangle (Vertex_at a0 (-1) 0) (Vertex_at a1 0 1)
                           (Vertex_at a2 1 0))).
  { rewrite L1, decide_True by reflexivity. reflexivity. }
  split; [|split; [|split; [|split; [|split; [|split]]]]]; try assumption.
  - destruct (decide (a2 = a0)) as [->|N20]; [apply lookup_insert_eq|].
    rewrite lookup_insert_ne by exact N20.
    destruct (decide (a1 = a0)) as [->|N10]; [apply lookup_insert_eq|].
    rewrite lookup_insert_ne by exact N10. apply lookup_insert_eq.
  - destruct (decide (a2 = a1)) as [->|N21]; [apply lookup_insert_eq|].
    rewrite lookup_insert_ne by exact N21. apply lookup_insert_eq.
  - apply lookup_insert_eq.
  - split.
    + intros ->. apply map_empty. intros k.
      destruct (triangles m !! k) as [t|] eqn:Ek; [|reflexivity]. exfalso.
      pose proof (Hf k t Ek) as Hlt.
      assert (Hk1 : is_Some (triangles m1 !! k)).
      { rewrite L1, decide_False by lia. rewrite Ek. eauto. }
      apply M0 in Hk1. lia.
    + intros Hempty. destruct P0 as [t Ht]. rewrite L1 in Ht.
      destruct (decide (f0 = nextIterator m)) as [E|_]; [exact E|].
      rewrite Hempty, lookup_empty in Ht. discriminate.
Qed.

Lemma handles_fresh_empty_mesh : handles_fresh empty_mesh.
Proof. intros h t Ht. cbn in Ht. rewrite lookup_empty in Ht. discriminate. Defined.

Lemma CreateBoundaryPoints_surrounding_is_begin_witness :
  exists m' first,
    CreateBoundaryPoints 0 1 2 empty_mesh = Returns (initialBoundaryVertices 0 1 2) m'
    /\ surrounding m' !! 0 = Some first
    /\ surrounding m' !! 1 = Some first
    /\ surrounding m' !! 2 = Some first
    /\ (first = nextIterator empty_mesh <-> triangles empty_mesh = ∅).
Proof.
  eexists.
  match goal with |- context [Returns _ ?m'] => set (mk := m') end.
  destruct (CreateBoundaryPoints_surrounding_is_begin 0 1 2 empty_mesh
              (initialBoundaryVertices 0 1 2) mk handles_fresh_empty_mesh)
    as (first & S0 & S1 & S2 & _ & _ & _ & Hiff).
  { vm_compute. reflexivity. }
  exists first. split; [vm_compute; reflexivity|]. auto.
Defined.

(** The dummy vertices of a second bootstrap on the same list point to the
    triangle of the first one. *)
Example CreateBoundaryPoints_twice :
  exists bv m1 bv' m2,
    CreateBoundaryPoints 0 1 2 empty_mesh = Returns bv m1
    /\ CreateBoundaryPoints 3 4 5 m1 = Returns bv' m2
    /\ surrounding m2 !! 3 = Some 0
    /\ is_Some (triangles m2 !! 1).
Proof.
  eexists _, _, _, _. split; [vm_compute; reflexivity|].
  split; [vm_compute; reflexivity|]. split; [vm_compute; reflexivity|].
  eexists. vm_compute. reflexivity.
Qed.

(** ** The transfer of the remaining vertices in an edge flip *)

Lemma foreach_ext {A} (l : list A) body body' m :
  (forall a m0, body a m0 = body' a m0) -> foreach l body m = foreach l body' m.
Proof.
  intros Hext. revert m. induction l as [|a l IH]; intros m; [reflexivity|].
  cbn [foreach]. unfold bind. rewrite Hext. destruct (body' a m); [apply IH | reflexivity].
Qed.

(** The two tests of [TransferVertices2Impl] look at the same cross product
    with opposite signs. *)
Lemma IsVertexInSection2_opposite u p q :
  (sf.z (CrossProduct (p - q) (GetPosition u - q))
   == - sf.z (CrossProduct (q - p) (GetPosition u - p)))%Q.
Proof.
  destruct p as [px py], q as [qx qy], (GetPosition u) as [ux uy].
  cbn [CrossProduct vsub sf.x sf.y sf.z]. ring.
Qed.

Lemma IsVertexInSection2_complement u p q :
  IsVertexInSection2 u p q = false -> IsVertexInSection2 u q p = true.
Proof.
  unfold IsVertexInSection2. rewrite fle_false, fle_iff, (IsVertexInSection2_opposite u p q).
  intros H. lra.
Qed.

(** The remaining vertices that the transfer adds to the new triangle on the
    side [b] of the new edge. *)
Definition collect_side (side : Vertex -> bool) (b : bool) (q r : list Vertex) : list Vertex :=
  fold_left (fun r u => if Bool.eqb (side u) b then set_insert u r else r) q r.

Lemma collect_side_keeps side b q : forall r u, In u r -> In u (collect_side side b q r).
Proof.
  induction q as [|w q IH]; intros r u Hu; cbn; [exact Hu|].
  apply IH. destruct (Bool.eqb _ _); [apply set_insert_keeps|]; exact Hu.
Qed.

Lemma collect_side_In side b q : forall r u,
  In u (collect_side side b q r) -> In u r \/ (In u q /\ side u = b).
Proof.
  induction q as [|w q IH]; intros r u Hu; cbn in Hu; [now left|].
  apply IH in Hu as [Hu|[Hu Hk]]; [|right; split; [now right | exact Hk]].
  destruct (Bool.eqb (side w) b) eqn:E; [|now left].
  apply set_insert_In in Hu as [->|Hu]; [|now left].
  right. split; [now left | apply Bool.eqb_prop, E].
Qed.

Lemma collect_side_adds side b q : forall r u,
  ForallOrdPairs (fun x y => ~ same_position (GetPosition x) (GetPosition y)) q ->
  (forall x w, In x r -> In w q -> ~ same_position (GetPosition x) (GetPosition w)) ->
  In u q -> side u = b -> In u (collect_side side b q r).
Proof.
  induction q as [|w q IH]; intros r u Hq Hr Hu Hk; [destruct Hu|].
  inversion_clear Hq as [|w' q' Hw Hq']. cbn.
  destruct Hu as [->|Hu].
  - rewrite Hk, Bool.eqb_reflx. apply collect_side_keeps, set_insert_adds.
    intros x Hx. apply Hr; [exact Hx | now left].
  - apply IH; try assumption.
    intros x y Hx Hy.
    destruct (Bool.eqb _ _).
    + apply set_insert_In in Hx as [->|Hx].
      * rewrite List.Forall_forall in Hw. apply Hw, Hy.
      * apply Hr; [exact Hx | now right].
    + apply Hr; [exact Hx | now right].
Qed.

Definition recorded_side (dest : Vertex -> nat) (q : list Vertex) (sm : gmap nat nat)
    : gmap nat nat :=
  fold_left (fun sm u => <[addr u := dest u]> sm) q sm.

Lemma recorded_side_lookup dest q : forall sm u,
  NoDup (map addr q) -> In u q -> recorded_side dest q sm !! addr u = Some (dest u).
Proof.
  induction q as [|w q IH]; intros sm u Hnd Hu; [destruct Hu|].
  cbn in Hnd. apply NoDup_cons in Hnd as [Hw Hnd]. cbn.
  destruct Hu as [->|Hu]; [|apply IH; assumption].
  clear IH Hnd. revert sm. induction q as [|x q IH]; intros sm; cbn.
  - apply lookup_insert_eq.
  - cbn in Hw. apply not_elem_of_cons in Hw as [Hux Hw].
    rewrite insert_insert_ne by congruence. apply IH, Hw.
Qed.

Lemma recorded_side_other dest q : forall sm a,
  ~ In a (map addr q) -> recorded_side dest q sm !! a = sm !! a.
Proof.
  induction q as [|w q IH]; intros sm a Ha; [reflexivity|].
  change (recorded_side dest q (<[addr w := dest w]> sm) !! a = sm !! a).
  rewrite IH by (intros Hin; apply Ha; now right).
  apply lookup_insert_ne. intros E. apply Ha. now left.
Qed.

Lemma ForallOrdPairs_app_inv {A} (R : A -> A -> Prop) (l1 l2 : list A) :
  ForallOrdPairs R (l1 ++ l2) ->
  ForallOrdPairs R l1 /\ ForallOrdPairs R l2
  /\ forall x y, In x l1 -> In y l2 -> R x y.
Proof.
  induction l1 as [|a l1 IH]; cbn [app]; intros H.
  - split; [constructor|]. split; [exact H|]. intros x y [].
  - inversion_clear H as [|a' l' Ha Hl]. destruct (IH Hl) as (H1 & H2 & H12).
    rewrite List.Forall_forall in Ha.
    split; [|split; [exact H2|]].
    + constructor; [|exact H1]. apply List.Forall_forall. intros x Hx.
      apply Ha, in_or_app. now left.
    + intros x y [<-|Hx] Hy; [|apply H12; assumption].
      apply Ha, in_or_app. now right.
Qed.

Section Transfer2.
Variable side : Vertex -> bool.
Variables old newFirst newSecond : nat.
Variable old0 : AdvancedTriangle.
Hypothesis HoF : old <> newFirst.
Hypothesis HoS : old <> newSecond.
Hypothesis HFS : newFirst <> newSecond.

Lemma TransferVertices2_loop (q : list Vertex) :
  forall (m : Mesh) (rF rS : list Vertex) (cF cS : AdvancedTriangle),
  triangles m !! old = Some (with_remaining q old0) ->
  triangles m !! newFirst = Some (with_remaining rF cF) ->
  triangles m !! newSecond = Some (with_remaining rS cS) ->
  exists m',
    foreach q (fun u => TransferVertex old u (if side u then newFirst else newSecond)) m
    = Returns tt m'
    /\ triangles m' !! old = Some (with_remaining [] old0)
    /\ triangles m' !! newFirst = Some (with_remaining (collect_side side true q rF) cF)
    /\ triangles m' !! newSecond = Some (with_remaining (collect_side side false q rS) cS)
    /\ (forall h, h <> old -> h <> newFirst -> h <> newSecond ->
          triangles m' !! h = triangles m !! h)
    /\ nextIterator m' = nextIterator m
    /\ surrounding m'
       = recorded_side (fun u => if side u then newFirst else newSecond) q (surrounding m).
Proof using HoF HoS HFS.
  induction q as [|u q IH]; intros m rF rS cF cS Hold HF HS.
  - exists m. cbn. repeat split; auto.
  - cbn [foreach]. unfold bind at 1.
    destruct (side u) eqn:Eu.
    + rewrite (TransferVertex_run m old u newFirst _ _ q HoF Hold eq_refl HF).
      cbn [mRemainingVertices with_remaining].
      match goal with |- context [foreach q _ ?m1] => set (m1' := m1) end.
      destruct (IH m1' (set_insert u rF) rS cF cS)
        as (m' & Hrun & Ho & Hn1 & Hn2 & Hother & Hnext & Hsur).
      * subst m1'. cbn. rewrite lookup_insert_eq. reflexivity.
      * subst m1'. cbn. rewrite lookup_insert_ne by congruence.
        rewrite lookup_insert_eq. reflexivity.
      * subst m1'. cbn. rewrite lookup_insert_ne by congruence.
        rewrite lookup_insert_ne by congruence. exact HS.
      * exists m'. split; [exact Hrun|]. split; [exact Ho|].
        split; [|split; [|split; [|split]]].
        -- rewrite Hn1. unfold collect_side. cbn [fold_left]. rewrite Eu. reflexivity.
        -- rewrite Hn2. unfold collect_side. cbn [fold_left]. rewrite Eu. reflexivity.
        -- intros h H1 H2 H3. rewrite (Hother h H1 H2 H3). subst m1'. cbn.
           rewrite !lookup_insert_ne by congruence. reflexivity.
        -- exact Hnext.
        -- rewrite Hsur. unfold recorded_side. cbn [fold_left]. rewrite Eu. reflexivity.
    + rewrite (TransferVertex_run m old u newSecond _ _ q HoS Hold eq_refl HS).
      cbn [mRemainingVertices with_remaining].
      match goal with |- context [foreach q _ ?m1] => set (m1' := m1) end.
      destruct (IH m1' rF (set_insert u rS) cF cS)
        as (m' & Hrun & Ho & Hn1 & Hn2 & Hother & Hnext & Hsur).
      * subst m1'. cbn. rewrite lookup_insert_eq. reflexivity.
      * subst m1'. cbn. rewrite lookup_insert_ne by congruence.
        rewrite lookup_insert_ne by congruence. exact HF.
      * subst m1'. cbn. rewrite lookup_insert_ne by congruence.
        rewrite lookup_insert_eq. reflexivity.
      * exists m'. split; [exact Hrun|]. split; [exact Ho|].
        split; [|split; [|split; [|split]]].
        -- rewrite Hn1. unfold collect_side. cbn [fold_left]. rewrite Eu. reflexivity.
        -- rewrite Hn2. unfold collect_side. cbn [fold_left]. rewrite Eu. reflexivity.
        -- intros h H1 H2 H3. rewrite (Hother h H1 H2 H3). subst m1'. cbn.
           rewrite !lookup_insert_ne by congruence. reflexivity.
        -- exact Hnext.
        -- rewrite Hsur. unfold recorded_side. cbn [fold_left]. rewrite Eu. reflexivity.
Qed.

End Transfer2.

(** The loop of [TransferVertices2Impl] moves each vertex to the new triangle
    on its side of the new edge; its assertion does not fail. *)
Lemma TransferVertices2Impl_body u p q old newFirst newSecond m :
  (if IsVertexInSection2 u p q then TransferVertex old u newFirst
   else assert (IsVertexInSection2 u q p) ;;; TransferVertex old u newSecond) m
  = TransferVertex old u (if IsVertexInSection2 u p q then newFirst else newSecond) m.
Proof.
  destruct (IsVertexInSection2 u p q) eqn:E; [reflexivity|].
  rewrite (IsVertexInSection2_complement u p q E). reflexivity.
Qed.

Lemma TransferVertices2Impl_run oldFirst oldSecond newFirst newSecond dc old m tf ts t rF rS cF cS :
  old <> newFirst -> old <> newSecond -> newFirst <> newSecond ->
  triangles m !! oldFirst = Some tf ->
  triangles m !! oldSecond = Some ts ->
  triangles m !! old = Some t ->
  triangles m !! newFirst = Some (with_remaining rF cF) ->
  triangles m !! newSecond = Some (with_remaining rS cS) ->
  let side := fun u => IsVertexInSection2 u (At tf (fst dc)) (At ts (snd dc)) in
  exists m',
    TransferVertices2Impl oldFirst oldSecond newFirst newSecond dc old m = Returns tt m'
    /\ triangles m' !! old = Some (with_remaining [] t)
    /\ triangles m' !! newFirst
       = Some (with_remaining (collect_side side true (mRemainingVertices t) rF) cF)
    /\ triangles m' !! newSecond
       = Some (with_remaining (collect_side side false (mRemainingVertices t) rS) cS)
    /\ (forall h, h <> old -> h <> newFirst -> h <> newSecond ->
          triangles m' !! h = triangles m !! h)
    /\ nextIterator m' = nextIterator m
    /\ surrounding m'
       = recorded_side (fun u => if side u then newFirst else newSecond)
           (mRemainingVertices t) (surrounding m).
Proof.
  intros H1 H2 H3 Htf Hts Ht HF HS side.
  unfold TransferVertices2Impl.
  rewrite (bind_deref _ _ _ _ Htf), (bind_deref _ _ _ _ Hts), (bind_deref _ _ _ _ Ht).
  rewrite (foreach_ext _ _
             (fun u => TransferVertex old u (if side u then newFirst else newSecond)));
    [|intros u m0; apply TransferVertices2Impl_body].
  apply (TransferVertices2_loop side old newFirst newSecond t H1 H2 H3); try assumption.
  rewrite with_remaining_own. exact Ht.
Qed.


(** The two triangles of [kite], each with one remaining vertex, and two new
    triangles as [FlipEdges] inserts them. *)
Definition flip_mesh : Mesh :=
  mkMesh
    (<[3 := newAdvancedTriangle (Vertex_at 11 0 (-1)) (Vertex_at 12 (-1) 0)
              (Vertex_at 13 (1 # 2) 0)]>
       (<[2 := newAdvancedTriangle (Vertex_at 10 0 1) (Vertex_at 13 (1 # 2) 0)
                 (Vertex_at 12 (-1) 0)]>
          (<[1 := with_remaining [Vertex_at 21 (1 # 4) (-1 # 4)] kite_second]>
             (<[0 := with_remaining [Vertex_at 20 (-1 # 4) (1 # 4)] kite_first]> ∅))))
    4 ∅.


Example flip_mesh_after_transfer :
  exists m',
    TransferVertices2 0 1 2 3 (2, 2) flip_mesh = Returns tt m'
    /\ map (fun t => map addr (mRemainingVertices t))
         (omap (fun h => triangles m' !! h) [0; 1; 2; 3])
       = [[]; []; [20]; [21]].
Proof. eexists. split; vm_compute; reflexivity. Qed.

(** ** The assertions of the split *)

(** What a triangle keeps while only its adjacents change. *)
Definition but_adjacents (t : AdvancedTriangle) : array3 Vertex * list Vertex * bool :=
  (mCorners t, mRemainingVertices t, mFlagged t).

Definition adjacency_only (m m' : Mesh) : Prop :=
  nextIterator m' = nextIterator m
  /\ surrounding m' = surrounding m
  /\ forall h, but_adjacents <$> triangles m' !! h = but_adjacents <$> triangles m !! h.

Lemma adjacency_only_refl m : adjacency_only m m.
Proof. repeat split. Qed.

Lemma adjacency_only_trans m1 m2 m3 :
  adjacency_only m1 m2 -> adjacency_only m2 m3 -> adjacency_only m1 m3.
Proof.
  intros (N12 & S12 & L12) (N23 & S23 & L23). split; [congruence|]. split; [congruence|].
  intros h. rewrite L23. apply L12.
Qed.

Lemma adjacency_only_lookup m m' h t :
  adjacency_only m m' -> triangles m !! h = Some t ->
  exists t', triangles m' !! h = Some t' /\ but_adjacents t' = but_adjacents t.
Proof.
  intros (_ & _ & L) Ht. specialize (L h). rewrite Ht in L.
  destruct (triangles m' !! h) as [t'|]; [|discriminate].
  exists t'. split; [reflexivity|]. cbn in L. congruence.
Qed.

Lemma SetAdjacentTriangle_adjacency_only itr index adj m m' :
  SetAdjacentTriangle itr index adj m = Returns tt m' -> adjacency_only m m'.
Proof.
  intros H. apply update_inv in H as (t & Ht & ->).
  split; [reflexivity|]. split; [reflexivity|]. intros h. cbn [triangles].
  destruct (decide (itr = h)) as [<-|Hne].
  - rewrite lookup_insert_eq, Ht. reflexivity.
  - rewrite lookup_insert_ne by exact Hne. reflexivity.
Qed.

Lemma UpdateAdjacentBackReferences_adjacency_only old new other m m' :
  UpdateAdjacentBackReferences old new other m = Returns tt m' -> adjacency_only m m'.
Proof.
  unfold UpdateAdjacentBackReferences.
  destruct other as [b|]; [|intros [= <-]; apply adjacency_only_refl].
  intros H. apply bind_inv in H as (t & ? & Hd & H). apply deref_inv in Hd as [-> Ht].
  destruct (find_back_reference t old); [|discriminate].
  eapply SetAdjacentTriangle_adjacency_only, H.
Qed.

Lemma InitializeAdjacents_adjacency_only newT index old m m' :
  InitializeAdjacents newT index old m = Returns tt m' -> adjacency_only m m'.
Proof.
  unfold InitializeAdjacents. cbv zeta. intros H.
  apply bind_inv in H as (t & ? & Hd & H). apply deref_inv in Hd as [-> Ht].
  apply bind_inv in H as ([] & ma & W0 & H).
  apply bind_inv in H as ([] & mb & W1 & H).
  apply bind_inv in H as ([] & mc & W2 & H).
  eapply adjacency_only_trans; [eapply SetAdjacentTriangle_adjacency_only, W0|].
  eapply adjacency_only_trans; [eapply SetAdjacentTriangle_adjacency_only, W1|].
  eapply adjacency_only_trans; [eapply SetAdjacentTriangle_adjacency_only, W2|].
  eapply UpdateAdjacentBackReferences_adjacency_only, H.
Qed.

Lemma find_back_reference_exists (t : AdvancedTriangle) old j :
  j < 3 -> GetAdjacentTriangle t j = Some old ->
  exists i, find_back_reference t old = Some i.
Proof.
  intros Hj Hadj. unfold find_back_reference.
  destruct (List.find _ [0; 1; 2]) as [i|] eqn:E; [eauto|]. exfalso.
  pose proof (List.find_none _ _ E j) as Hno. cbn beta in Hno.
  rewrite Hadj, Nat.eqb_refl in Hno.
  assert (Hin : In j [0; 1; 2]) by (destruct j as [|[|[|j]]]; cbn; try lia; tauto).
  specialize (Hno Hin). discriminate.
Qed.

Lemma update_returns itr f m :
  is_Some (triangles m !! itr) -> exists m', update itr f m = Returns tt m'.
Proof. intros [t Ht]. unfold update. rewrite Ht. eauto. Qed.

Lemma UpdateAdjacentBackReferences_returns old new other m :
  (forall b, other = Some b -> links m b old) ->
  exists m', UpdateAdjacentBackReferences old new other m = Returns tt m'.
Proof.
  intros Hlinks. unfold UpdateAdjacentBackReferences.
  destruct other as [b|]; [|eexists; reflexivity].
  destruct (Hlinks b eq_refl) as (j & Hj & Hs). unfold slot in Hs.
  destruct (triangles m !! b) as [tb|] eqn:Eb; [|discriminate].
  injection Hs as Hs. rewrite (bind_deref _ _ _ _ Eb).
  destruct (find_back_reference_exists tb old j Hj Hs) as [i ->].
  apply update_returns. rewrite Eb. eauto.
Qed.

Lemma InitializeAdjacents_frame newT index old m m' :
  index < 3 ->
  InitializeAdjacents newT index old m = Returns tt m' ->
  forall h i, i < 3 -> h <> get3 newT index ->
    (forall b, slot m old ((index + 2) mod 3) = Some (Some b) -> h <> b) ->
    slot m' h i = slot m h i.
Proof.
  intros Hindex H h i Hi Hne Hb.
  unfold InitializeAdjacents in H. cbv zeta in H.
  set (n := get3 newT index) in *.
  apply bind_inv in H as (t & ? & Hd & H). apply deref_inv in Hd as [-> Ht].
  rewrite (slot_of_triangle _ _ _ _ Ht) in Hb.
  apply bind_inv in H as ([] & ma & W0 & H).
  apply bind_inv in H as ([] & mb & W1 & H).
  apply bind_inv in H as ([] & mc & W2 & H).
  apply (SetAdjacentTriangle_writes _ 0 _ _ _ ltac:(lia)) in W0.
  apply (SetAdjacentTriangle_writes _ 1 _ _ _ ltac:(lia)) in W1.
  apply (SetAdjacentTriangle_writes _ 2 _ _ _ ltac:(lia)) in W2.
  assert (Sc : slot mc h i = slot m h i).
  { rewrite (writes_elsewhere _ _ _ _ _ h i W2) by (lia || intros [? _]; congruence).
    rewrite (writes_elsewhere _ _ _ _ _ h i W1) by (lia || intros [? _]; congruence).
    apply (writes_elsewhere _ _ _ _ _ h i W0); [lia | intros [? _]; congruence]. }
  apply UpdateAdjacentBackReferences_inv in H.
  destruct (GetAdjacentTriangle t ((index + 2) mod 3)) as [o|] eqn:Eo.
  - destruct H as (j0 & Hj0 & _ & W).
    rewrite (writes_elsewhere _ _ _ _ _ h i W); [exact Sc | exact Hi |].
    intros [-> _]. exact (Hb o eq_refl eq_refl).
  - subst m'. exact Sc.
Qed.

Lemma InitializeAdjacents_returns newT index old m told :
  index < 3 ->
  triangles m !! old = Some told ->
  is_Some (triangles m !! get3 newT index) ->
  (forall b, GetAdjacentTriangle told ((index + 2) mod 3) = Some b ->
             b <> get3 newT index /\ links m b old) ->
  exists m', InitializeAdjacents newT index old m = Returns tt m'.
Proof.
  intros Hindex Ht Hn Hb. unfold InitializeAdjacents. cbv zeta.
  set (n := get3 newT index) in *.
  rewrite (bind_deref _ _ _ _ Ht).
  destruct (update_returns n (with_adjacent 0 (Some (get3 newT ((index + 1) mod 3)))) m Hn)
    as (ma & Ha).
  destruct (update_run _ _ _ _ Ha) as (_ & _ & La & _).
  assert (Hna : is_Some (triangles ma !! n)).
  { rewrite La, decide_True by reflexivity. destruct Hn as [x ->]. eauto. }
  destruct (update_returns n (with_adjacent 1 (Some (get3 newT ((index + 2) mod 3)))) ma Hna)
    as (mb & Hb').
  destruct (update_run _ _ _ _ Hb') as (_ & _ & Lb & _).
  assert (Hnb : is_Some (triangles mb !! n)).
  { rewrite Lb, decide_True by reflexivity. destruct Hna as [x ->]. eauto. }
  destruct (update_returns n
              (with_adjacent 2 (GetAdjacentTriangle told ((index + 2) mod 3))) mb Hnb)
    as (mc & Hc).
  destruct (update_run _ _ _ _ Hc) as (_ & _ & Lc & _).
  destruct (UpdateAdjacentBackReferences_returns old (Some n)
              (GetAdjacentTriangle told ((index + 2) mod 3)) mc) as (m' & Hm').
  { intros b Eb. destruct (Hb b Eb) as [Hbn (j & Hj & Hs)].
    exists j. split; [exact Hj|]. unfold slot in *.
    rewrite Lc, Lb, La. rewrite !decide_False by exact Hbn. exact Hs. }
  exists m'. unfold SetAdjacentTriangle.
  rewrite (bind_Returns _ _ _ _ _ Ha), (bind_Returns _ _ _ _ _ Hb'),
    (bind_Returns _ _ _ _ _ Hc). exact Hm'.
Qed.

Lemma strictly_inside_clockwise c0 c1 c2 p :
  strictly_inside_triangle c0 c1 c2 p -> (turn c0 c1 c2 < 0)%Q.
Proof.
  unfold strictly_inside_triangle. rewrite !turn_unfold.
  destruct c0 as [x0 y0], c1 as [x1 y1], c2 as [x2 y2], p as [px py]. cbn [sf.x sf.y].
  intros (H0 & H1 & H2).
  assert (E : ((x1 - x0) * (y2 - y0) - (y1 - y0) * (x2 - x0)
               == ((x1 - x0) * (py - y0) - (y1 - y0) * (px - x0))
                  + ((x2 - x1) * (py - y1) - (y2 - y1) * (px - x1))
                  + ((x0 - x2) * (py - y2) - (y0 - y2) * (px - x2)))%Q) by ring.
  rewrite E. lra.
Qed.

Lemma RemoveVertex_run itr v m t r :
  triangles m !! itr = Some t ->
  set_erase_key v (mRemainingVertices t) = (1, r) ->
  RemoveVertex itr v m
  = Returns tt (mkMesh (<[itr := with_remaining r t]> (triangles m))
                  (nextIterator m) (surrounding m)).
Proof.
  intros Ht Hr. unfold RemoveVertex. rewrite (bind_deref _ _ _ _ Ht), Hr.
  unfold bind, update. rewrite Ht. reflexivity.
Qed.



(** ** The assertions of the edge flip *)

Lemma same_shape_present m m' h :
  same_shape m m' -> is_Some (triangles m !! h) -> is_Some (triangles m' !! h).
Proof.
  intros [_ S] [t Ht]. specialize (S h). rewrite Ht in S.
  destruct (triangles m' !! h); [eauto | discriminate].
Qed.

Lemma UpdateAdjacentRelation_returns old oldIdx new newIdx m told :
  triangles m !! old = Some told ->
  is_Some (triangles m !! new) ->
  (forall b, GetAdjacentTriangle told oldIdx = Some b -> b <> new /\ links m b old) ->
  exists m', UpdateAdjacentRelation old oldIdx new newIdx m = Returns tt m'.
Proof.
  intros Ht Hn Hb. unfold UpdateAdjacentRelation. cbv zeta.
  rewrite (bind_deref _ _ _ _ Ht).
  destruct (update_returns new (with_adjacent newIdx (GetAdjacentTriangle told oldIdx)) m Hn)
    as (m1 & H1).
  destruct (update_run _ _ _ _ H1) as (_ & _ & L1 & _).
  destruct (UpdateAdjacentBackReferences_returns old (Some new)
              (GetAdjacentTriangle told oldIdx) m1) as (m' & Hm').
  { intros b Eb. destruct (Hb b Eb) as [Hbn (j & Hj & Hs)].
    exists j. split; [exact Hj|]. unfold slot in *.
    rewrite L1, decide_False by exact Hbn. exact Hs. }
  exists m'. unfold SetAdjacentTriangle. rewrite (bind_Returns _ _ _ _ _ H1). exact Hm'.
Qed.

(** [UpdateAdjacentRelation] writes to the new triangle and to the triangle
    that the slot of the old one refers to, and to no other. *)
Lemma UpdateAdjacentRelation_elsewhere old oldIdx new newIdx m m' told :
  triangles m !! old = Some told ->
  UpdateAdjacentRelation old oldIdx new newIdx m = Returns tt m' ->
  forall h, h <> new -> GetAdjacentTriangle told oldIdx <> Some h ->
    triangles m' !! h = triangles m !! h.
Proof.
  intros Ht H h Hn Ho. unfold UpdateAdjacentRelation in H. cbv zeta in H.
  rewrite (bind_deref _ _ _ _ Ht) in H.
  apply bind_inv in H as ([] & m1 & H1 & H). unfold SetAdjacentTriangle in H1.
  destruct (update_run _ _ _ _ H1) as (_ & _ & L1 & _).
  unfold UpdateAdjacentBackReferences in H.
  destruct (GetAdjacentTriangle told oldIdx) as [o|].
  - apply bind_inv in H as (t & ? & Hd & H). apply deref_inv in Hd as [-> _].
    destruct (find_back_reference t old) as [j|]; [|discriminate].
    unfold SetAdjacentTriangle in H.
    destruct (update_run _ _ _ _ H) as (_ & _ & L2 & _).
    rewrite L2, decide_False by congruence. rewrite L1, decide_False by exact Hn.
    reflexivity.
  - injection H as <-. rewrite L1, decide_False by exact Hn. reflexivity.
Qed.

(** It redirects references to the old triangle only: a reference to another
    triangle, in a triangle other than the new one, stays. *)
Lemma UpdateAdjacentRelation_foreign old oldIdx new newIdx m m' :
  newIdx < 3 ->
  UpdateAdjacentRelation old oldIdx new newIdx m = Returns tt m' ->
  forall h c, h <> new -> c <> old -> links m h c -> links m' h c.
Proof.
  intros Hidx H h c Hn Hc (i & Hi & Hs). exists i. split; [exact Hi|].
  unfold UpdateAdjacentRelation in H. cbv zeta in H.
  apply bind_inv in H as (t & ? & Hd & H). apply deref_inv in Hd as [-> _].
  apply bind_inv in H as ([] & m1 & H1 & H).
  apply (SetAdjacentTriangle_writes _ _ _ _ _ Hidx) in H1.
  assert (S1 : slot m1 h i = Some (Some c)).
  { rewrite (writes_elsewhere _ _ _ _ _ h i H1 Hi); [exact Hs|]. intros [? _]. congruence. }
  apply UpdateAdjacentBackReferences_inv in H.
  destruct (GetAdjacentTriangle t oldIdx) as [o|].
  - destruct H as (j0 & Hj0 & Hback & W).
    rewrite (writes_elsewhere _ _ _ _ _ h i W Hi); [exact S1|].
    intros [-> ->]. congruence.
  - subst m'. exact S1.
Qed.

Lemma links_same_triangle m m' h c :
  triangles m' !! h = triangles m !! h -> links m h c -> links m' h c.
Proof. intros E (i & Hi & Hs). exists i. split; [exact Hi|]. unfold slot in *. now rewrite E. Qed.


(** The kite with a third triangle beyond the edge of its first triangle
    that lies opposite the corner 0. *)
Definition kite_outer : AdvancedTriangle :=
  mkAdvancedTriangle
    (mkArray3 (Vertex_at 12 (-1) 0) (Vertex_at 11 0 (-1)) (Vertex_at 15 (-1) (-1)))
    [] (mkArray3 None None (Some 0)) false.

Definition kite_first_outer : AdvancedTriangle :=
  mkAdvancedTriangle (mCorners kite_first) [] (mkArray3 (Some 2) None (Some 1)) false.

Definition kite_fan : Mesh :=
  mkMesh (<[2 := kite_outer]> (<[1 := kite_second]> (<[0 := kite_first_outer]> ∅))) 3 ∅.

Lemma handles_fresh_kite_fan : handles_fresh kite_fan.
Proof.
  change (map_Forall (fun h _ => h < 3) (triangles kite_fan)).
  unfold kite_fan. cbn [triangles].
  repeat (apply map_Forall_insert_2; [lia|]). apply map_Forall_empty.
Qed.

